(** * EmployeeOrgApp: organisation chart with move / undo / redo

    A shallow embedding of [src/index.ts].  The program works on mutable
    JavaScript objects: [move] updates the [subordinates] arrays of nodes
    that are shared between the live tree and the local variables
    [employee], [supervisor] and [currentSupervisor], while snapshots are
    made with [JSON.parse(JSON.stringify(_))].  The embedding therefore
    keeps an explicit object store; a reference is an index into it.

    Ids are integers.  The recursive searches and [JSON.stringify] run
    against a bound [stack] on the depth of the call stack and throw
    [RangeError] beyond it, as the engine does on a cyclic or very deep
    structure; [JSON.parse] is total. *)

From stdpp Require Import base decidable option list.
From Stdlib Require Import ZArith String List Lia Permutation.
Import ListNotations.
#[local] Set Warnings "-register-all".
Local Open Scope Z_scope.
Local Open Scope nat_scope.
Local Open Scope string_scope.
Local Open Scope list_scope.

(** ** Objects and the store *)

(** A reference to an [Employee] object. *)
Abbreviation addr := nat.

(** [interface Employee { uniqueId; name; subordinates }].  Every
    [subordinates] array belongs to exactly one object (arrays are created
    by [JSON.parse] and by [filter], and never stored twice), so the array
    is kept inside the record; its elements are references. *)
Record Employee := mkEmployee {
  uniqueId : Z;
  name : string;
  subordinates : list addr
}.

(** The object store: [store !! a] is the object behind reference [a].
    Allocation appends, so the fresh reference is [length store]. *)
Abbreviation heap := (list Employee).

(** Exceptions a call can end with.  [Error] is the one thrown by [move];
    [RangeError] is the engine's "Maximum call stack size exceeded";
    [TypeError] is what [JSON.stringify] throws on a circular structure
    (and what reading a property of [undefined] throws). *)
Inductive exn :=
| Error (message : string)
| RangeError
| TypeError.

Inductive outcome (A : Type) :=
| Ok (a : A)
| Throw (e : exn).
Arguments Ok {A} a.
Arguments Throw {A} e.

(** The error of [move], line 34. *)
Definition EntityNotFound : exn := Error "Employee or Supervisor not found".

(** ** Traversal *)

(** [for (const x of xs) { const found = body(x); if (found) return found; }
    return null;] *)
Fixpoint for_of (body : addr -> outcome (option addr)) (xs : list addr)
  : outcome (option addr) :=
  match xs with
  | [] => Ok None
  | x :: rest =>
      match body x with
      | Ok (Some found) => Ok (Some found)
      | Ok None => for_of body rest
      | Throw e => Throw e
      end
  end.

(** [findEmployee(root, id)], lines 78-91.  [stack] is the number of frames
    the call stack still has room for: the recursion throws [RangeError]
    when it is used up, which is how a search that runs into a cycle ends. *)
Fixpoint findEmployee (stack : nat) (h : heap) (root : addr) (id : Z)
  : outcome (option addr) :=
  match stack with
  | O => Throw RangeError
  | S stack' =>
      match h !! root with
      | None => Throw TypeError
      | Some r =>
          if decide (uniqueId r = id) then Ok (Some root)
          else for_of (fun subordinate => findEmployee stack' h subordinate id)
                      (subordinates r)
      end
  end.

(** [findEmployeeSupervisor(root, id)], lines 93-110. *)
Fixpoint findEmployeeSupervisor (stack : nat) (h : heap) (root : addr) (id : Z)
  : outcome (option addr) :=
  match stack with
  | O => Throw RangeError
  | S stack' =>
      match h !! root with
      | None => Throw TypeError
      | Some r =>
          match subordinates r with
          | [] => Ok None
          | subs =>
              for_of (fun subordinate =>
                        match h !! subordinate with
                        | None => Throw TypeError
                        | Some sub =>
                            if decide (uniqueId sub = id) then Ok (Some root)
                            else findEmployeeSupervisor stack' h subordinate id
                        end) subs
          end
      end
  end.

(** ** JSON round trip *)

(** The text produced by [JSON.stringify] for an [Employee], as the value
    it denotes. *)
Inductive json :=
| JEmployee (jid : Z) (jname : string) (jsubs : list json).

Fixpoint map_outcome {A B} (f : A -> outcome B) (xs : list A) : outcome (list B) :=
  match xs with
  | [] => Ok []
  | x :: rest =>
      match f x with
      | Ok y =>
          match map_outcome f rest with
          | Ok ys => Ok (y :: ys)
          | Throw e => Throw e
          end
      | Throw e => Throw e
      end
  end.

(** [JSON.stringify(a)]: [path] holds the objects being serialised around
    the current one; meeting one of them again is the circular-structure
    [TypeError].  An object met twice on different branches is written
    twice. *)
Fixpoint JSON_stringify (stack : nat) (path : list addr) (h : heap) (a : addr)
  : outcome json :=
  match stack with
  | O => if decide (a ∈ path) then Throw TypeError else Throw RangeError
  | S stack' =>
      if decide (a ∈ path) then Throw TypeError
      else
        match h !! a with
        | None => Throw TypeError
        | Some e =>
            match map_outcome (JSON_stringify stack' (a :: path) h) (subordinates e) with
            | Ok js => Ok (JEmployee (uniqueId e) (name e) js)
            | Throw x => Throw x
            end
        end
  end.

(** [JSON.parse(text)]: builds fresh objects, the subordinates before the
    object that holds them. *)
Fixpoint JSON_parse (j : json) (h : heap) : addr * heap :=
  match j with
  | JEmployee i n js =>
      let '(subs, h') :=
        (fix parse_all (js : list json) (h : heap) : list addr * heap :=
           match js with
           | [] => ([], h)
           | j :: rest =>
               let '(a, h1) := JSON_parse j h in
               let '(subs, h2) := parse_all rest h1 in
               (a :: subs, h2)
           end) js h in
      (length h', h' ++ [mkEmployee i n subs])
  end.

(** The loop of [JSON_parse] over the elements of an array, by its own
    name. *)
Fixpoint parse_all (js : list json) (h : heap) : list addr * heap :=
  match js with
  | [] => ([], h)
  | j :: rest =>
      let '(a, h1) := JSON_parse j h in
      let '(subs, h2) := parse_all rest h1 in
      (a :: subs, h2)
  end.

(** ** The application object *)

(** An entry of [history]: [{ move: string; undoData: Employee[] }].  The
    field [move] is [undo_move] here, and [redo_move] in [RedoEntry]:
    [move] is the name of the method. *)
Record HistoryEntry := mkHistory {
  undo_move : string;
  undoData : list addr
}.

(** An entry of [redoStack]: [{ move: string; redoData: Employee[] }]. *)
Record RedoEntry := mkRedo {
  redo_move : string;
  redoData : list addr
}.

(** The store together with the fields of the [EmployeeOrgApp] instance.
    [current] is [None] when the field holds [undefined] (reading an array
    past its end). *)
Record State := mkState {
  store : heap;
  ceo : addr;
  history : list HistoryEntry;
  current : option addr;
  redoStack : list RedoEntry
}.

(** Computations that read and write the state and may throw; what was
    written before a throw stays written. *)
Definition M (A : Type) := State -> outcome A * State.

Definition ret {A} (a : A) : M A := fun s => (Ok a, s).
Definition throw {A} (e : exn) : M A := fun s => (Throw e, s).
Definition bind {A B} (m : M A) (k : A -> M B) : M B :=
  fun s =>
    match m s with
    | (Ok a, s') => k a s'
    | (Throw e, s') => (Throw e, s')
    end.

Notation "x <- m ;; k" := (bind m (fun x => k))
  (at level 100, m at next level, right associativity).
Notation "m ;;; k" := (bind m (fun _ => k))
  (at level 100, right associativity).

(** Run a read-only traversal on the store. *)
Definition on_store {A} (f : heap -> outcome A) : M A :=
  fun s => (f (store s), s).

Definition set_store (h : heap) (s : State) : State :=
  mkState h (ceo s) (history s) (current s) (redoStack s).
Definition set_history (hs : list HistoryEntry) (s : State) : State :=
  mkState (store s) (ceo s) hs (current s) (redoStack s).
Definition set_current (c : option addr) (s : State) : State :=
  mkState (store s) (ceo s) (history s) c (redoStack s).
Definition set_redoStack (rs : list RedoEntry) (s : State) : State :=
  mkState (store s) (ceo s) (history s) (current s) rs.

(** [this.current], as an object to traverse. *)
Definition this_current : M addr :=
  fun s =>
    match current s with
    | Some c => (Ok c, s)
    | None => (Throw TypeError, s)
    end.

(** Property reads [o.uniqueId] and [o.subordinates]. *)
Definition get (a : addr) : M Employee :=
  fun s =>
    match store s !! a with
    | Some e => (Ok e, s)
    | None => (Throw TypeError, s)
    end.

(** The assignment [o.subordinates = subs]; [o.subordinates.push(x)] is the
    assignment of the array extended by [x]. *)
Definition set_subordinates (a : addr) (subs : list addr) : M unit :=
  fun s =>
    match store s !! a with
    | Some e =>
        (Ok tt, set_store (<[a := mkEmployee (uniqueId e) (name e) subs]> (store s)) s)
    | None => (Throw TypeError, s)
    end.

(** [JSON.parse(JSON.stringify(o))]: the copy and the store that holds it. *)
Definition clone (stack : nat) (h : heap) (a : addr) : outcome (addr * heap) :=
  match JSON_stringify stack [] h a with
  | Ok j => Ok (JSON_parse j h)
  | Throw e => Throw e
  end.

Definition JSON_clone (stack : nat) (a : addr) : M addr :=
  fun s =>
    match clone stack (store s) a with
    | Ok (a', h') => (Ok a', set_store h' s)
    | Throw e => (Throw e, s)
    end.

(** [array.push(x)] and [array.pop()] on the two stacks: the top is the
    last element. *)
Definition push {A} (l : list A) (x : A) : list A := l ++ [x].
Definition pop {A} (l : list A) : option (A * list A) :=
  match rev l with
  | x :: r => Some (x, rev r)
  | [] => None
  end.

(** [sub => sub.uniqueId !== employeeID], the predicate of the [filter] in
    [move]. *)
Definition other_id (h : heap) (employeeID : Z) (sub : addr) : bool :=
  match h !! sub with
  | Some e => negb (Z.eqb (uniqueId e) employeeID)
  | None => true
  end.

(** [new EmployeeOrgApp(ceo)], lines 22-27, for an object [ceo] of the
    caller's store. *)
Definition constructor (stack : nat) (h : heap) (ceo : addr) : outcome State :=
  match clone stack h ceo with
  | Ok (c, h') => Ok (mkState h' ceo [] (Some c) [])
  | Throw e => Throw e
  end.

(** [createUndoData(employee, supervisor)], lines 112-139. *)
Definition createUndoData (stack : nat) (employee supervisor : addr)
  : M (list addr) :=
  cur <- this_current ;;
  e <- get employee ;;
  currentSupervisor <-
    on_store (fun h => findEmployeeSupervisor stack h cur (uniqueId e)) ;;
  cloneCurrent <- JSON_clone stack cur ;;
  undoData <- ret [cloneCurrent] ;;
  undoData <-
    match currentSupervisor with
    | Some cs =>
        cloneSupervisor <- JSON_clone stack cs ;;
        ret (push undoData cloneSupervisor)
    | None => ret undoData
    end ;;
  cloneEmployee <- JSON_clone stack employee ;;
  cloneSupervisorNew <- JSON_clone stack supervisor ;;
  ret (push (push undoData cloneEmployee) cloneSupervisorNew).

(** [move(employeeID, supervisorID)], lines 29-53. *)
Definition move (stack : nat) (employeeID supervisorID : Z) : M unit :=
  cur <- this_current ;;
  employee <- on_store (fun h => findEmployee stack h cur employeeID) ;;
  supervisor <- on_store (fun h => findEmployee stack h cur supervisorID) ;;
  match employee, supervisor with
  | Some employee, Some supervisor =>
      undoData <- createUndoData stack employee supervisor ;;
      (fun s => (Ok tt, set_history (push (history s) (mkHistory "move" undoData)) s)) ;;;
      cur <- this_current ;;
      currentSupervisor <-
        on_store (fun h => findEmployeeSupervisor stack h cur employeeID) ;;
      match currentSupervisor with
      | Some cs =>
          c <- get cs ;;
          filtered <- on_store (fun h => Ok (List.filter (other_id h employeeID) (subordinates c))) ;;
          set_subordinates cs filtered
      | None => ret tt
      end ;;;
      sup <- get supervisor ;;
      set_subordinates supervisor (push (subordinates sup) employee)
  | _, _ => throw EntityNotFound
  end.

(** [undo()], lines 55-62. *)
Definition undo : M unit :=
  fun s =>
    match pop (history s) with
    | None => (Ok tt, s)
    | Some (lastAction, rest) =>
        let s := set_history rest s in
        if String.eqb (undo_move lastAction) "move"
        then (Ok tt, set_current (undoData lastAction !! 0) s)
        else (Ok tt, s)
    end.

(** [redo()], lines 68-76. *)
Definition redo : M unit :=
  fun s =>
    match pop (redoStack s) with
    | None => (Ok tt, s)
    | Some (lastRedoAction, rest) =>
        let s := set_redoStack rest s in
        if String.eqb (redo_move lastRedoAction) "move"
        then
          let s := set_history
                     (push (history s) (mkHistory "move" (redoData lastRedoAction))) s in
          (Ok tt, set_current (redoData lastRedoAction !! 1) s)
        else (Ok tt, s)
    end.

(** ** Calls from the transport layer *)

(** The three routes call [move], [undo] and [redo] and catch what they
    throw; the instance lives on in the state the call left behind. *)
Inductive call :=
| Move (employeeID supervisorID : Z)
| Undo
| Redo.

Definition exec (stack : nat) (c : call) : M unit :=
  match c with
  | Move employeeID supervisorID => move stack employeeID supervisorID
  | Undo => undo
  | Redo => redo
  end.

Fixpoint run (stack : nat) (cs : list call) (s : State) : State :=
  match cs with
  | [] => s
  | c :: rest => run stack rest (snd (exec stack c s))
  end.

(** The chart built from an object literal [j] evaluated in an empty store. *)
Definition new_app (stack : nat) (j : json) : outcome State :=
  let '(c, h) := JSON_parse j [] in constructor stack h c.

(** ** Trees in the store *)

(** A tree of objects: each node carries the reference of the object it
    stands for. *)
Inductive atree :=
| ANode (aroot : addr) (aid : Z) (aname : string) (akids : list atree).

Definition aroot (T : atree) : addr := match T with ANode a _ _ _ => a end.
Definition aid (T : atree) : Z := match T with ANode _ i _ _ => i end.
Definition aname (T : atree) : string := match T with ANode _ _ n _ => n end.
Definition akids (T : atree) : list atree := match T with ANode _ _ _ ks => ks end.

(** The value a tree of objects denotes (what [JSON.stringify] writes). *)
Fixpoint erase (T : atree) : json :=
  match T with
  | ANode _ i n ks => JEmployee i n (map erase ks)
  end.

(** References, (reference, id) pairs and subtrees in pre-order. *)
Fixpoint addrs (T : atree) : list addr :=
  match T with
  | ANode a _ _ ks => a :: flat_map addrs ks
  end.

Fixpoint labels (T : atree) : list (addr * Z) :=
  match T with
  | ANode a i _ ks => (a, i) :: flat_map labels ks
  end.

Fixpoint subtrees (T : atree) : list atree :=
  match T with
  | ANode _ _ _ ks => T :: flat_map subtrees ks
  end.

Definition ids (T : atree) : list Z := map snd (labels T).

Fixpoint height (T : atree) : nat :=
  match T with
  | ANode _ _ _ ks => S (list_max (map height ks))
  end.

Fixpoint json_ids (j : json) : list Z :=
  match j with
  | JEmployee i _ js => i :: flat_map json_ids js
  end.

(** [layout h T]: the objects of [T] are in the store [h] with the fields
    and the subordinates [T] gives them.  Nothing is said about sharing:
    a reference may occur at several nodes. *)
Inductive layout (h : heap) : atree -> Prop :=
| layout_node a i n ks :
    h !! a = Some (mkEmployee i n (map aroot ks)) ->
    Forall (layout h) ks ->
    layout h (ANode a i n ks).

(** The structure under [a] is a tree of objects: laid out, and no object
    occurs twice. *)
Definition is_tree (h : heap) (a : addr) (T : atree) : Prop :=
  layout h T /\ aroot T = a /\ NoDup (addrs T).

(** Deep equality with a value: the structure under [a] unfolds to [j]. *)
Definition deep_eq (h : heap) (a : addr) (j : json) : Prop :=
  exists T, layout h T /\ aroot T = a /\ erase T = j.

(** [b] is [a] or below it. *)
Inductive reach (h : heap) : addr -> addr -> Prop :=
| reach_refl a : reach h a a
| reach_step a e b c :
    h !! a = Some e -> In b (subordinates e) -> reach h b c -> reach h a c.

(** The first result of [f] over a list, as [for_of] finds it. *)
Fixpoint first_some {A B} (f : A -> option B) (xs : list A) : option B :=
  match xs with
  | [] => None
  | x :: rest =>
      match f x with
      | Some y => Some y
      | None => first_some f rest
      end
  end.

(** The two searches, read on a tree of objects. *)
Fixpoint find_pre (id : Z) (T : atree) : option addr :=
  match T with
  | ANode a i _ ks =>
      if decide (i = id) then Some a else first_some (find_pre id) ks
  end.

Fixpoint find_sup (id : Z) (T : atree) : option addr :=
  match T with
  | ANode a _ _ ks =>
      first_some (fun k => if decide (aid k = id) then Some a else find_sup id k) ks
  end.

(** The (supervisor, subordinate) pairs of a tree, in pre-order of the
    subordinates. *)
Fixpoint edges (T : atree) : list (addr * addr) :=
  match T with
  | ANode a _ _ ks => flat_map (fun k => (a, aroot k) :: edges k) ks
  end.

(** Where the two searches stop below a node: the one returns the node
    found, the other its supervisor. *)
Definition same_stop (id : Z) (T : atree) : Prop :=
  match find_pre id T with
  | Some e =>
      exists P X, find_sup id T = Some (aroot P) /\ In P (subtrees T) /\
                  In X (akids P) /\ aroot X = e /\ aid X = id
  | None => find_sup id T = None
  end.

(** Replace the subordinates of the node at reference [x]. *)
Fixpoint modify (x : addr) (f : list atree -> list atree) (T : atree) : atree :=
  match T with
  | ANode a i n ks =>
      if decide (a = x) then ANode a i n (f ks)
      else ANode a i n (map (modify x f) ks)
  end.

Definition keep_other (employeeID : Z) (ks : list atree) : list atree :=
  List.filter (fun k => negb (Z.eqb (aid k) employeeID)) ks.

(** The store after lines 45-52 of [move]. *)
Definition detach (h : heap) (employeeID : Z) (currentSupervisor : option addr) : heap :=
  match currentSupervisor with
  | Some cs =>
      match h !! cs with
      | Some c =>
          <[cs := mkEmployee (uniqueId c) (name c)
                    (List.filter (other_id h employeeID) (subordinates c))]> h
      | None => h
      end
  | None => h
  end.

Definition attach (h : heap) (supervisor employee : addr) : heap :=
  match h !! supervisor with
  | Some sup =>
      <[supervisor := mkEmployee (uniqueId sup) (name sup)
                        (push (subordinates sup) employee)]> h
  | None => h
  end.

(** [h'] is [h] with fresh objects added whose subordinates are fresh. *)
Definition extends (h h' : heap) : Prop :=
  exists new,
    h' = h ++ new /\
    Forall (fun e => Forall (fun b => length h <= b < length h') (subordinates e)) new.

(** Objects from reference [n] on only refer to objects from [n] on. *)
Definition closed_from (n : nat) (h : heap) : Prop :=
  forall a e, n <= a -> h !! a = Some e ->
    Forall (fun b => n <= b < length h) (subordinates e).

(** What [JSON.parse] leaves behind: the store has grown by fresh objects
    that form a tree of objects denoting [j]. *)
Definition fresh_tree (h h' : heap) (a : addr) (j : json) : Prop :=
  extends h h' /\
  exists T, layout h' T /\ aroot T = a /\ erase T = j /\ NoDup (addrs T) /\
            forall x, In x (addrs T) -> length h <= x < length h'.

(** What holds of the instance built from the object [ceo0] of the store
    [h0], whatever is called afterwards: the caller's objects are still
    there, everything the instance works on was created after them, and
    nothing is on the redo stack. *)
Definition chart_inv (h0 : heap) (ceo0 : addr) (s : State) : Prop :=
  (exists new, store s = h0 ++ new) /\
  closed_from (length h0) (store s) /\
  ceo s = ceo0 /\
  (exists c, current s = Some c /\ length h0 <= c < length (store s)) /\
  Forall (fun r => exists c rest, undoData r = c :: rest /\
                                  length h0 <= c < length (store s)) (history s) /\
  redoStack s = [].

(** Sequences of moves that return and in which the new supervisor is
    neither the employee moved nor below it. *)
Inductive proper_moves (stack : nat) : State -> list (Z * Z) -> State -> Prop :=
| proper_nil s : proper_moves stack s [] s
| proper_cons s cur e sv employeeID supervisorID ms s1 s2 :
    current s = Some cur ->
    findEmployee stack (store s) cur employeeID = Ok (Some e) ->
    findEmployee stack (store s) cur supervisorID = Ok (Some sv) ->
    ~ reach (store s) e sv ->
    move stack employeeID supervisorID s = (Ok tt, s1) ->
    proper_moves stack s1 ms s2 ->
    proper_moves stack s ((employeeID, supervisorID) :: ms) s2.

(** The live structure is a tree of objects with the ids [ids0], each
    once. *)
Definition tree_inv (ids0 : list Z) (s : State) : Prop :=
  exists cur T,
    current s = Some cur /\ is_tree (store s) cur T /\
    NoDup (ids T) /\ ids T ≡ₚ ids0.

(** ** The search of the specification *)

(** Follows the words of the specification: a pre-order walk over the
    nodes that returns the first node whose immediate subordinates contain
    a node with the id. *)
Definition spec_findSupervisor (id : Z) (T : atree) : option addr :=
  aroot <$> List.find (fun n => existsb (fun k => Z.eqb (aid k) id) (akids n)) (subtrees T).

(** A tree in which the id 4 occurs twice, and one in which a subordinate
    has the id of the root. *)
Definition dup_tree : atree :=
  ANode 3 1 "CEO" [ANode 1 2 "A" [ANode 0 4 "C" []]; ANode 2 4 "B" []].
Definition dup_heap : heap := snd (JSON_parse (erase dup_tree) []).

Definition twin_tree : atree := ANode 1 1 "CEO" [ANode 0 1 "A" []].
Definition twin_heap : heap := snd (JSON_parse (erase twin_tree) []).

(** ** A chart to run the program on *)

(** The scenario of the specification: a CEO with subordinates A and B. *)
Definition ex_tree : json :=
  JEmployee 1 "CEO" [JEmployee 2 "A" []; JEmployee 3 "B" []].

Definition state_of (r : outcome State) : State :=
  match r with
  | Ok s => s
  | Throw _ => mkState [] 0 [] None []
  end.

(** The object literal in the caller's store, and the instance built from
    it. *)
Definition ex_heap : heap := snd (JSON_parse ex_tree []).
Definition ex_ceo : addr := fst (JSON_parse ex_tree []).
Definition ex_app : State := state_of (constructor 10 ex_heap ex_ceo).

(** Its live tree, with the objects it is made of. *)
Definition ex_live : atree :=
  ANode 5 1 "CEO" [ANode 3 2 "A" []; ANode 4 3 "B" []].

(** A chain CEO - A - B, the instance built from it, its live tree, and
    the instance after [move(2, 3)], which puts A under its own
    subordinate B. *)
Definition chain_tree : json :=
  JEmployee 1 "CEO" [JEmployee 2 "A" [JEmployee 3 "B" []]].
Definition chain_app : State := state_of (new_app 10 chain_tree).
Definition chain_live : atree :=
  ANode 5 1 "CEO" [ANode 4 2 "A" [ANode 3 3 "B" []]].
Definition chain_moved : State := snd (move 10 2 3 chain_app).

(** A chart with unique ids in which B has a sibling on either side:
    CEO over A, B and C, with D under A; the instance built from it and
    its live tree. *)
Definition org_tree : json :=
  JEmployee 1 "CEO"
    [JEmployee 2 "A" [JEmployee 5 "D" []]; JEmployee 3 "B" []; JEmployee 4 "C" []].
Definition org_app : State := state_of (new_app 10 org_tree).
Definition org_live : atree :=
  ANode 9 1 "CEO"
    [ANode 6 2 "A" [ANode 5 5 "D" []]; ANode 7 3 "B" []; ANode 8 4 "C" []].

(** The chart after [move(2, 3)]. *)
Definition ex_moved : State := snd (move 10 2 3 ex_app).

Definition live (stack : nat) (s : State) : outcome json :=
  match current s with
  | Some c => JSON_stringify stack [] (store s) c
  | None => Throw TypeError
  end.

(** ** The employee search as a list search *)

(** The first node with the id in the pre-order list of the nodes; what
    [findEmployee] is compared with. *)
Definition spec_findEmployee (id : Z) (T : atree) : option addr :=
  aroot <$> List.find (fun n => Z.eqb (aid n) id) (subtrees T).

(** ** The routes *)

(** What a handler sends: [res.json({ message })] with the default status
    200, or [res.status(400).json({ error })]. *)
Inductive Body :=
| message (m : string)
| error (m : string).

Record Response := mkResponse {
  status : nat;
  body : Body
}.

(** [(error as Error).message]: the text of the [Error] thrown by [move],
    and the engine's text [text e] for what the engine throws itself. *)
Definition message_of (text : exn -> string) (e : exn) : string :=
  match e with
  | Error m => m
  | _ => text e
  end.

(** [POST /move], lines 157-166, for a body that holds the two ids. *)
Definition post_move (text : exn -> string) (stack : nat)
    (employeeID supervisorID : Z) (s : State) : Response * State :=
  match move stack employeeID supervisorID s with
  | (Ok _, s') => (mkResponse 200 (message "Employee moved successfully"), s')
  | (Throw e, s') => (mkResponse 400 (error (message_of text e)), s')
  end.

(** [POST /undo], lines 169-177. *)
Definition post_undo (text : exn -> string) (s : State) : Response * State :=
  match undo s with
  | (Ok _, s') => (mkResponse 200 (message "Undo successful"), s')
  | (Throw e, s') => (mkResponse 400 (error (message_of text e)), s')
  end.

(** [POST /redo], lines 180-188. *)
Definition post_redo (text : exn -> string) (s : State) : Response * State :=
  match redo s with
  | (Ok _, s') => (mkResponse 200 (message "Redo successful"), s')
  | (Throw e, s') => (mkResponse 400 (error (message_of text e)), s')
  end.

(** The chart the server starts with, lines 143-151: [ceo] is the object
    literal with no subordinates, [app] the instance built from it. *)
Definition server_ceo : json := JEmployee 1 "John Smith" [].
Definition server_app (stack : nat) : State := state_of (new_app stack server_ceo).

(** A structure in which the two subordinates of the root are one and the
    same object. *)
Definition shared_heap : heap :=
  [mkEmployee 2 "A" []; mkEmployee 1 "CEO" [0; 0]].

(** Sequences of moves that all return. *)
Inductive moves_ok (stack : nat) : State -> list (Z * Z) -> State -> Prop :=
| moves_nil s : moves_ok stack s [] s
| moves_cons s employeeID supervisorID ms s1 s2 :
    move stack employeeID supervisorID s = (Ok tt, s1) ->
    moves_ok stack s1 ms s2 ->
    moves_ok stack s ((employeeID, supervisorID) :: ms) s2.

(** An object that is its own subordinate. *)
Definition loop_heap : heap := [mkEmployee 1 "CEO" [0]].

(** The records of the undo stack and the trees [Ts] their first
    snapshots are: each tree is intact in the store, no object is in two
    of them, and none of their objects is within reach of the live
    root. *)
Definition snapshots_inv (s : State) (Ts : list atree) : Prop :=
  Forall2 (fun r T => undo_move r = "move" /\
                      exists rest, undoData r = aroot T :: rest /\ layout (store s) T)
          (history s) Ts /\
  NoDup (flat_map addrs Ts) /\
  forall cur x, current s = Some cur -> reach (store s) cur x ->
                ~ In x (flat_map addrs Ts).

(** * Proofs *)

(** Unfold the plumbing of the state. *)
Ltac run_state :=
  cbv beta iota zeta delta
    [bind this_current on_store throw get set_subordinates ret JSON_clone
     set_history set_store set_current set_redoStack
     store current history ceo redoStack].

(** ** Induction on trees *)

Lemma atree_ind' (P : atree -> Prop) :
  (forall a i n ks, Forall P ks -> P (ANode a i n ks)) ->
  forall T, P T.
Proof.
  intros step. fix IH 1. intros [a i n ks]. apply step.
  induction ks as [|k ks IHks]; constructor; [apply IH | exact IHks].
Qed.

Lemma json_ind' (P : json -> Prop) :
  (forall i n js, Forall P js -> P (JEmployee i n js)) ->
  forall j, P j.
Proof.
  intros step. fix IH 1. intros [i n js]. apply step.
  induction js as [|j js IHjs]; constructor; [apply IH | exact IHjs].
Qed.

(** ** The loop *)

(** If every body returns what [f] says, the loop returns the first hit. *)
Lemma for_of_first {A} (body : addr -> outcome (option addr))
      (key : A -> addr) (f : A -> option addr) (xs : list A) :
  Forall (fun x => body (key x) = Ok (f x)) xs ->
  for_of body (map key xs) = Ok (first_some f xs).
Proof.
  induction 1 as [|x xs Hx _ IH]; simpl; [reflexivity|].
  rewrite Hx. destruct (f x); [reflexivity | exact IH].
Qed.

Lemma for_of_Some body xs r :
  for_of body xs = Ok (Some r) ->
  exists x, In x xs /\ body x = Ok (Some r).
Proof.
  induction xs as [|x xs IH]; simpl; [discriminate|].
  destruct (body x) as [[y|]|e] eqn:E; intros H.
  - inversion H; subst. exists x. split; [left; reflexivity | exact E].
  - destruct (IH H) as (z & Hz & Hb). exists z. split; [right; exact Hz | exact Hb].
  - discriminate.
Qed.

Lemma for_of_None body xs :
  for_of body xs = Ok None -> forall x, In x xs -> body x = Ok None.
Proof.
  induction xs as [|x xs IH]; simpl; intros H y Hy; [contradiction|].
  destruct (body x) as [[z|]|e] eqn:E; try discriminate.
  destruct Hy as [<-|Hy]; [exact E | exact (IH H y Hy)].
Qed.

Lemma for_of_returns body xs :
  (forall x, In x xs -> exists r, body x = Ok r) ->
  exists r, for_of body xs = Ok r.
Proof.
  induction xs as [|x xs IH]; simpl; intros H; [eauto|].
  destruct (H x) as [[y|] E]; [left; reflexivity | |]; rewrite E; [eauto|].
  apply IH. intros z Hz. apply H. right. exact Hz.
Qed.

(** ** What the searches return, in any store *)

Lemma findEmployee_S stack h root id :
  findEmployee (S stack) h root id =
  match h !! root with
  | None => Throw TypeError
  | Some r =>
      if decide (uniqueId r = id) then Ok (Some root)
      else for_of (fun x => findEmployee stack h x id) (subordinates r)
  end.
Proof. reflexivity. Qed.

(** The test for an empty array in front of the loop changes nothing. *)
Lemma findEmployeeSupervisor_S stack h root id :
  findEmployeeSupervisor (S stack) h root id =
  match h !! root with
  | None => Throw TypeError
  | Some r =>
      for_of (fun x =>
                match h !! x with
                | None => Throw TypeError
                | Some sub =>
                    if decide (uniqueId sub = id) then Ok (Some root)
                    else findEmployeeSupervisor stack h x id
                end) (subordinates r)
  end.
Proof.
  simpl. destruct (h !! root) as [r|]; [|reflexivity].
  destruct (subordinates r); reflexivity.
Qed.

(** The object found carries the id. *)
Lemma findEmployee_id stack h root id a :
  findEmployee stack h root id = Ok (Some a) ->
  exists e, h !! a = Some e /\ uniqueId e = id.
Proof.
  revert root. induction stack as [|n IH]; intros root; simpl; [discriminate|].
  destruct (h !! root) as [r|] eqn:Hr; [|discriminate].
  destruct (decide (uniqueId r = id)) as [Hid|Hid]; intros H.
  - inversion H; subst a. eauto.
  - apply for_of_Some in H as (x & _ & Hx). exact (IH _ Hx).
Qed.

(** The object found is the root or below it. *)
Lemma findEmployee_reach stack h root id a :
  findEmployee stack h root id = Ok (Some a) -> reach h root a.
Proof.
  revert root. induction stack as [|n IH]; intros root; simpl; [discriminate|].
  destruct (h !! root) as [r|] eqn:Hr; [|discriminate].
  destruct (decide (uniqueId r = id)) as [Hid|Hid]; intros H.
  - inversion H; subst a. constructor.
  - apply for_of_Some in H as (x & Hin & Hx).
    eapply reach_step; [exact Hr | exact Hin | exact (IH _ Hx)].
Qed.

(** A search that came back empty-handed walked the whole structure, so a
    search for any other id comes back as well. *)
Lemma findEmployee_None_returns stack h root id id' :
  findEmployee stack h root id = Ok None ->
  exists r, findEmployee stack h root id' = Ok r.
Proof.
  revert root. induction stack as [|n IH]; intros root; simpl; [discriminate|].
  destruct (h !! root) as [r|] eqn:Hr; [|discriminate].
  destruct (decide (uniqueId r = id)) as [Hid|Hid]; [discriminate|]. intros H.
  destruct (decide (uniqueId r = id')); [eauto|].
  apply for_of_returns. intros x Hx. apply IH.
  exact (for_of_None _ _ H x Hx).
Qed.

(** The supervisor found is an object of the store, below the root, and
    one of its subordinates carries the id. *)
Lemma findEmployeeSupervisor_sub stack h root id p :
  findEmployeeSupervisor stack h root id = Ok (Some p) ->
  reach h root p /\
  exists c b e, h !! p = Some c /\ In b (subordinates c) /\
                h !! b = Some e /\ uniqueId e = id.
Proof.
  revert root. induction stack as [|n IH]; intros root; [discriminate|].
  rewrite findEmployeeSupervisor_S.
  destruct (h !! root) as [r|] eqn:Hr; [|discriminate]. intros H.
  apply for_of_Some in H as (x & Hin & Hx).
  destruct (h !! x) as [sub|] eqn:Hsub; [|discriminate].
  destruct (decide (uniqueId sub = id)) as [Hid|Hid].
  - inversion Hx; subst p. split; [constructor|].
    exists r, x, sub. auto.
  - destruct (IH _ Hx) as [Hreach Hrest]. split; [|exact Hrest].
    eapply reach_step; [exact Hr | exact Hin | exact Hreach].
Qed.

(** ** Growing the store *)

Lemma lookup_app_old (h new : heap) a e :
  h !! a = Some e -> (h ++ new) !! a = Some e.
Proof. intros H. apply lookup_app_l_Some. exact H. Qed.

Lemma findEmployee_app stack h new root id r :
  findEmployee stack h root id = Ok r ->
  findEmployee stack (h ++ new) root id = Ok r.
Proof.
  revert root r. induction stack as [|n IH]; intros root r; [discriminate|].
  rewrite !findEmployee_S.
  destruct (h !! root) as [e|] eqn:He; [|discriminate].
  rewrite (lookup_app_old _ new _ _ He).
  destruct (decide (uniqueId e = id)); [tauto|].
  generalize (subordinates e). intros xs. revert r.
  induction xs as [|x xs IHxs]; intros r; simpl; [tauto|].
  destruct (findEmployee n h x id) as [[y|]|err] eqn:E; try discriminate.
  - rewrite (IH _ _ E). tauto.
  - rewrite (IH _ _ E). apply IHxs.
Qed.

Lemma findEmployeeSupervisor_app stack h new root id r :
  findEmployeeSupervisor stack h root id = Ok r ->
  findEmployeeSupervisor stack (h ++ new) root id = Ok r.
Proof.
  revert root r. induction stack as [|n IH]; intros root r; [discriminate|].
  rewrite !findEmployeeSupervisor_S.
  destruct (h !! root) as [e|] eqn:He; [|discriminate].
  rewrite (lookup_app_old _ new _ _ He).
  generalize (subordinates e). intros xs. revert r.
  induction xs as [|x xs IHxs]; intros r; simpl; [tauto|].
  destruct (h !! x) as [sub|] eqn:Hsub; [|discriminate].
  rewrite (lookup_app_old _ new _ _ Hsub).
  destruct (decide (uniqueId sub = id)); [tauto|].
  destruct (findEmployeeSupervisor n h x id) as [[y|]|err] eqn:E; try discriminate.
  - rewrite (IH _ _ E). tauto.
  - rewrite (IH _ _ E). apply IHxs.
Qed.

(** ** Trees of objects *)

Lemma layout_inv h a i n ks :
  layout h (ANode a i n ks) ->
  h !! a = Some (mkEmployee i n (map aroot ks)) /\ Forall (layout h) ks.
Proof. intros H. inversion H; subst. auto. Qed.

Lemma layout_root h T :
  layout h T ->
  h !! aroot T = Some (mkEmployee (aid T) (aname T) (map aroot (akids T))).
Proof. destruct T. intros H. apply layout_inv in H. apply H. Qed.

Lemma layout_app h new T : layout h T -> layout (h ++ new) T.
Proof.
  induction T as [a i n ks IH] using atree_ind'. intros H.
  apply layout_inv in H as [Ha Hks]. constructor.
  - apply lookup_app_old. exact Ha.
  - rewrite Forall_forall in *. intros k Hk. apply IH; [exact Hk | apply Hks; exact Hk].
Qed.

Lemma layout_insert h x e T :
  ~ In x (addrs T) -> layout h T -> layout (<[x := e]> h) T.
Proof.
  induction T as [a i n ks IH] using atree_ind'. simpl. intros Hx H.
  apply layout_inv in H as [Ha Hks]. constructor.
  - rewrite list_lookup_insert_ne; [exact Ha | intros ->; apply Hx; left; reflexivity].
  - rewrite Forall_forall in *. intros k Hk. apply IH; [exact Hk | | apply Hks; exact Hk].
    intros Hin. apply Hx. right. apply in_flat_map. exists k. auto.
Qed.

(** The store and the root determine the tree. *)
Lemma layout_functional h T : forall T',
  layout h T -> layout h T' -> aroot T = aroot T' -> T = T'.
Proof.
  induction T as [a i n ks IH] using atree_ind'. intros [a' i' n' ks'] H H' E.
  simpl in E. subst a'.
  apply layout_inv in H as [Ha Hks]. apply layout_inv in H' as [Ha' Hks'].
  rewrite Ha in Ha'. inversion Ha' as [[Hi Hn Hr]]. subst i' n'. f_equal.
  clear Ha Ha'. revert ks' Hks' Hr.
  induction ks as [|k ks IHks]; intros [|k' ks'] Hks' Hr; simpl in Hr;
    try discriminate; [reflexivity|].
  inversion Hr as [[Hk Hrest]]. inversion IH; subst. inversion Hks; subst.
  inversion Hks'; subst. f_equal; auto.
Qed.

Lemma layout_lt h T : layout h T -> forall a, In a (addrs T) -> a < length h.
Proof.
  induction T as [a i n ks IH] using atree_ind'. intros H x Hx.
  apply layout_inv in H as [Ha Hks]. destruct Hx as [<-|Hx].
  - eapply lookup_lt_Some. exact Ha.
  - apply in_flat_map in Hx as (k & Hk & Hx). rewrite Forall_forall in *. eauto.
Qed.

Lemma subtrees_self T : In T (subtrees T).
Proof. destruct T. left. reflexivity. Qed.

Lemma subtrees_kid a i n ks k X :
  In k ks -> In X (subtrees k) -> In X (subtrees (ANode a i n ks)).
Proof. intros Hk HX. right. apply in_flat_map. eauto. Qed.

(** Induction over the subtrees of a tree. *)
Lemma subtrees_ind (P : atree -> atree -> Prop) :
  (forall T, P T T) ->
  (forall a i n ks k X, In k ks -> In X (subtrees k) -> P k X -> P (ANode a i n ks) X) ->
  forall T X, In X (subtrees T) -> P T X.
Proof.
  intros Hself Hkid. induction T as [a i n ks IH] using atree_ind'.
  intros X [<-|HX]; [apply Hself|].
  apply in_flat_map in HX as (k & Hk & HX). rewrite Forall_forall in IH.
  eapply Hkid; eauto.
Qed.

Lemma subtrees_layout h T X : In X (subtrees T) -> layout h T -> layout h X.
Proof.
  revert T X. apply (subtrees_ind (fun T X => layout h T -> layout h X)); [auto|].
  intros a i n ks k X Hk _ IH H. apply layout_inv in H as [_ Hks].
  rewrite Forall_forall in Hks. auto.
Qed.

Lemma subtrees_addrs T X : In X (subtrees T) -> incl (addrs X) (addrs T).
Proof.
  revert T X. apply (subtrees_ind (fun T X => incl (addrs X) (addrs T))).
  - intros T x Hx. exact Hx.
  - intros a i n ks k X Hk _ IH x Hx. right. apply in_flat_map. exists k. auto.
Qed.

Lemma list_max_In (f : atree -> nat) ks k : In k ks -> f k <= list_max (map f ks).
Proof.
  induction ks as [|k0 ks IH]; simpl; [contradiction|].
  intros [->|Hk]; [lia|]. specialize (IH Hk). lia.
Qed.

Lemma subtrees_height T X : In X (subtrees T) -> height X <= height T.
Proof.
  revert T X. apply (subtrees_ind (fun T X => height X <= height T)); [lia|].
  intros a i n ks k X Hk _ IH. simpl.
  pose proof (list_max_In height ks k Hk). lia.
Qed.

Lemma NoDup_flat_map_In {A B} (f : A -> list B) l x :
  NoDup (flat_map f l) -> In x l -> NoDup (f x).
Proof.
  induction l as [|y l IH]; simpl; [contradiction|].
  intros H [->|Hx].
  - eapply NoDup_app_remove_r. exact H.
  - apply IH; [|exact Hx]. eapply NoDup_app_remove_l. exact H.
Qed.

Lemma subtrees_NoDup T X : In X (subtrees T) -> NoDup (addrs T) -> NoDup (addrs X).
Proof.
  revert T X. apply (subtrees_ind (fun T X => NoDup (addrs T) -> NoDup (addrs X))); [auto|].
  intros a i n ks k X Hk _ IH H. apply IH. simpl in H.
  apply NoDup_cons_iff in H as [_ H]. eapply NoDup_flat_map_In; eauto.
Qed.

Lemma addrs_subtree T x : In x (addrs T) -> exists X, In X (subtrees T) /\ aroot X = x.
Proof.
  induction T as [a i n ks IH] using atree_ind'. intros [<-|Hx].
  - exists (ANode a i n ks). split; [left; reflexivity | reflexivity].
  - apply in_flat_map in Hx as (k & Hk & Hx). rewrite Forall_forall in IH.
    destruct (IH k Hk Hx) as (X & HX & Hr). exists X. split; [|exact Hr].
    eapply subtrees_kid; eauto.
Qed.

Lemma aroot_addrs T : In (aroot T) (addrs T).
Proof. destruct T. left. reflexivity. Qed.

(** In a tree of objects a reference names one subtree. *)
Lemma subtrees_unique h T X Y :
  layout h T -> In X (subtrees T) -> In Y (subtrees T) -> aroot X = aroot Y -> X = Y.
Proof.
  intros H HX HY E. eapply layout_functional; [| |exact E]; eapply subtrees_layout; eauto.
Qed.

(** ** The searches on a tree of objects *)

Lemma findEmployee_layout h id T : forall stack,
  layout h T -> height T <= stack ->
  findEmployee stack h (aroot T) id = Ok (find_pre id T).
Proof.
  induction T as [a i n ks IH] using atree_ind'. intros [|stack] H Hh; simpl in Hh; [lia|].
  apply layout_inv in H as [Ha Hks]. rewrite findEmployee_S. simpl aroot. rewrite Ha.
  simpl. destruct (decide (i = id)); [reflexivity|].
  apply for_of_first. rewrite Forall_forall in *. intros k Hk.
  apply IH; [exact Hk | apply Hks; exact Hk |].
  pose proof (list_max_In height ks k Hk). lia.
Qed.

Lemma findEmployeeSupervisor_layout h id T : forall stack,
  layout h T -> height T <= stack ->
  findEmployeeSupervisor stack h (aroot T) id = Ok (find_sup id T).
Proof.
  induction T as [a i n ks IH] using atree_ind'. intros [|stack] H Hh; simpl in Hh; [lia|].
  apply layout_inv in H as [Ha Hks]. rewrite findEmployeeSupervisor_S. simpl aroot. rewrite Ha.
  simpl subordinates. simpl find_sup.
  apply (for_of_first _ aroot (fun k => if decide (aid k = id) then Some a else find_sup id k)).
  rewrite Forall_forall in *. intros k Hk.
  rewrite (layout_root h k (Hks k Hk)). simpl uniqueId.
  destruct (decide (aid k = id)); [reflexivity|].
  apply IH; [exact Hk | apply Hks; exact Hk |].
  pose proof (list_max_In height ks k Hk). lia.
Qed.

(** ** Growing stores *)

Lemma extends_refl h : extends h h.
Proof. exists []. split; [symmetry; apply app_nil_r | constructor]. Qed.

Lemma extends_length h h' : extends h h' -> length h <= length h'.
Proof. intros (new & -> & _). rewrite length_app. lia. Qed.

Lemma extends_trans h1 h2 h3 : extends h1 h2 -> extends h2 h3 -> extends h1 h3.
Proof.
  intros (n1 & -> & H1) (n2 & -> & H2). exists (n1 ++ n2).
  split; [symmetry; apply app_assoc|].
  apply Forall_app. split.
  - eapply Forall_impl; [|exact H1]. intros e He. eapply Forall_impl; [|exact He].
    simpl. intros b. rewrite !length_app. lia.
  - eapply Forall_impl; [|exact H2]. intros e He. eapply Forall_impl; [|exact He].
    simpl. intros b. rewrite !length_app. lia.
Qed.

Lemma extends_lookup h h' a e : extends h h' -> h !! a = Some e -> h' !! a = Some e.
Proof. intros (new & -> & _). apply lookup_app_old. Qed.

Lemma extends_layout h h' T : extends h h' -> layout h T -> layout h' T.
Proof. intros (new & -> & _). apply layout_app. Qed.

Lemma closed_from_extends n h h' :
  n <= length h -> extends h h' -> closed_from n h -> closed_from n h'.
Proof.
  intros Hn (new & -> & Hnew) Hc a e Ha He.
  destruct (proj1 (lookup_app_Some h new a e)) as [Hl|[Hge Hr]].
  - exact He.
  - pose proof (Hc a e Ha Hl) as H. eapply Forall_impl; [|exact H].
    simpl. intros b. rewrite length_app. lia.
  - rewrite Forall_forall in Hnew.
    assert (In e new) as Hin.
    { apply list_elem_of_In. eapply list_elem_of_lookup_2. exact Hr. }
    pose proof (Hnew e Hin) as H. eapply Forall_impl; [|exact H].
    simpl. intros b. lia.
Qed.

(** ** [JSON.parse] *)

Lemma JSON_parse_eq i n js h :
  JSON_parse (JEmployee i n js) h =
  let '(subs, h') := parse_all js h in
  (length h', h' ++ [mkEmployee i n subs]).
Proof. reflexivity. Qed.

Lemma parse_all_fresh js : forall h subs h',
  Forall (fun j => forall h a h', JSON_parse j h = (a, h') -> fresh_tree h h' a j) js ->
  parse_all js h = (subs, h') ->
  extends h h' /\
  exists Ts, Forall (layout h') Ts /\ map aroot Ts = subs /\ map erase Ts = js /\
             NoDup (flat_map addrs Ts) /\
             forall x, In x (flat_map addrs Ts) -> length h <= x < length h'.
Proof.
  induction js as [|j js IH]; intros h subs h' HP; simpl.
  - intros E. inversion E; subst. split; [apply extends_refl|].
    exists []. simpl. repeat split; try constructor; contradiction.
  - destruct (JSON_parse j h) as [a h1] eqn:Ej.
    destruct (parse_all js h1) as [subs' h2] eqn:Ejs. intros E. inversion E; subst.
    inversion HP as [|? ? Hj Hjs]; subst.
    destruct (Hj _ _ _ Ej) as (Hext1 & T & HT & Hr & He & Hnd & Hb).
    destruct (IH _ _ _ Hjs Ejs) as (Hext2 & Ts & HTs & Hrs & Hes & Hnds & Hbs).
    pose proof (extends_length _ _ Hext1). pose proof (extends_length _ _ Hext2).
    split; [eapply extends_trans; eauto|].
    exists (T :: Ts). simpl. repeat split.
    + constructor; [eapply extends_layout; eauto | exact HTs].
    + congruence.
    + congruence.
    + apply NoDup_app; [exact Hnd | exact Hnds |].
      intros x Hx Hx'. apply Hb in Hx. apply Hbs in Hx'. lia.
    + apply in_app_or in H1 as [Hx|Hx]; [apply Hb in Hx | apply Hbs in Hx]; lia.
    + apply in_app_or in H1 as [Hx|Hx]; [apply Hb in Hx | apply Hbs in Hx]; lia.
Qed.

Lemma JSON_parse_fresh j : forall h a h',
  JSON_parse j h = (a, h') -> fresh_tree h h' a j.
Proof.
  induction j as [i n js IH] using json_ind'. intros h a h'.
  rewrite JSON_parse_eq. destruct (parse_all js h) as [subs h1] eqn:E.
  intros Eq. inversion Eq; subst. clear Eq.
  destruct (parse_all_fresh _ _ _ _ IH E) as (Hext & Ts & HTs & Hrs & Hes & Hnd & Hb).
  pose proof (extends_length _ _ Hext) as Hlen.
  assert (extends h (h1 ++ [mkEmployee i n subs])) as Hext'.
  { destruct Hext as (new & Hh1 & Hnew). exists (new ++ [mkEmployee i n subs]).
    split; [rewrite Hh1; symmetry; apply app_assoc|].
    apply Forall_app. split.
    - eapply Forall_impl; [|exact Hnew]. intros e He. eapply Forall_impl; [|exact He].
      simpl. intros b. rewrite length_app. lia.
    - constructor; [|constructor]. simpl. subst subs.
      apply Forall_forall. intros b Hb'. apply in_map_iff in Hb' as (k & <- & Hk).
      rewrite length_app. simpl.
      assert (In (aroot k) (flat_map addrs Ts)) as Hin.
      { apply in_flat_map. exists k. split; [exact Hk | apply aroot_addrs]. }
      apply Hb in Hin. lia. }
  split; [exact Hext'|].
  exists (ANode (length h1) i n Ts). simpl.
  split; [|split; [reflexivity|split; [congruence|split]]].
  - constructor.
    + rewrite Hrs. apply (list_lookup_middle h1 []). reflexivity.
    + eapply Forall_impl; [|exact HTs]. intros k. apply layout_app.
  - constructor; [|exact Hnd]. intros Hin. apply Hb in Hin. lia.
  - intros x Hx. rewrite length_app. simpl.
    destruct Hx as [<-|Hx]; [lia | apply Hb in Hx; lia].
Qed.

(** ** [JSON.stringify] *)

Lemma JSON_stringify_S stack path h a :
  JSON_stringify (S stack) path h a =
  if decide (a ∈ path) then Throw TypeError
  else
    match h !! a with
    | None => Throw TypeError
    | Some e =>
        match map_outcome (JSON_stringify stack (a :: path) h) (subordinates e) with
        | Ok js => Ok (JEmployee (uniqueId e) (name e) js)
        | Throw x => Throw x
        end
    end.
Proof. reflexivity. Qed.

Lemma map_outcome_Ok {A B} (f : A -> outcome B) xs ys :
  map_outcome f xs = Ok ys -> Forall2 (fun x y => f x = Ok y) xs ys.
Proof.
  revert ys. induction xs as [|x xs IH]; simpl; intros ys H.
  - inversion H. constructor.
  - destruct (f x) as [y|] eqn:E; [|discriminate].
    destruct (map_outcome f xs) as [ys'|]; [|discriminate].
    inversion H; subst. constructor; auto.
Qed.

Lemma map_outcome_map {A B C} (f : A -> outcome B) (key : C -> A) (g : C -> B) xs :
  Forall (fun x => f (key x) = Ok (g x)) xs ->
  map_outcome f (map key xs) = Ok (map g xs).
Proof.
  induction 1 as [|x xs Hx _ IH]; simpl; [reflexivity|]. rewrite Hx, IH. reflexivity.
Qed.

(** What was written is what the structure unfolds to. *)
Lemma JSON_stringify_deep_eq stack : forall path h a j,
  JSON_stringify stack path h a = Ok j -> deep_eq h a j.
Proof.
  induction stack as [|n IH]; intros path h a j; [simpl; destruct (decide _); discriminate|].
  rewrite JSON_stringify_S. destruct (decide (a ∈ path)); [discriminate|].
  destruct (h !! a) as [e|] eqn:He; [|discriminate].
  destruct (map_outcome _ _) as [js|] eqn:E; [|discriminate].
  intros Eq. inversion Eq; subst j. clear Eq.
  apply map_outcome_Ok in E.
  assert (exists Ts, Forall (layout h) Ts /\ map aroot Ts = subordinates e /\ map erase Ts = js)
    as (Ts & HTs & Hr & Hj).
  { clear He. induction E as [|x y xs ys Hxy _ IHE].
    - exists []. repeat split. constructor.
    - destruct IHE as (Ts & HTs & Hr & Hj).
      destruct (IH _ _ _ _ Hxy) as (T & HT & HrT & HjT).
      exists (T :: Ts). simpl. repeat split; [constructor; auto | congruence | congruence]. }
  exists (ANode a (uniqueId e) (name e) Ts). simpl.
  split; [|split; [reflexivity | congruence]].
  constructor; [|exact HTs]. rewrite Hr. destruct e; exact He.
Qed.

(** A tree of objects within the stack's reach is written in full. *)
Lemma JSON_stringify_tree h T : forall stack path,
  layout h T -> NoDup (addrs T) -> height T <= stack ->
  (forall x, In x path -> ~ In x (addrs T)) ->
  JSON_stringify stack path h (aroot T) = Ok (erase T).
Proof.
  induction T as [a i n ks IH] using atree_ind'.
  intros [|stack] path H Hnd Hh Hp; simpl in Hh; [lia|].
  apply layout_inv in H as [Ha Hks]. rewrite JSON_stringify_S. simpl aroot.
  destruct (decide (a ∈ path)) as [Hin|_].
  { exfalso. apply list_elem_of_In in Hin. apply (Hp a Hin). left. reflexivity. }
  rewrite Ha. simpl subordinates. simpl uniqueId. simpl name.
  rewrite (map_outcome_map _ aroot erase); [reflexivity|].
  simpl in Hnd. apply NoDup_cons_iff in Hnd as [Hna Hnd].
  rewrite Forall_forall in *. intros k Hk. apply IH.
  - exact Hk.
  - apply Hks. exact Hk.
  - eapply NoDup_flat_map_In; eauto.
  - pose proof (list_max_In height ks k Hk). lia.
  - intros x [<-|Hx] Hxk.
    + apply Hna. apply in_flat_map. eauto.
    + apply (Hp x Hx). right. apply in_flat_map. eauto.
Qed.

(** ** [JSON.parse(JSON.stringify(_))] *)

Lemma clone_Ok stack h a a' h' :
  clone stack h a = Ok (a', h') ->
  exists j, JSON_stringify stack [] h a = Ok j /\ fresh_tree h h' a' j.
Proof.
  unfold clone. destruct (JSON_stringify stack [] h a) as [j|] eqn:E; [|discriminate].
  intros Eq. inversion Eq as [Hp]. exists j. split; [reflexivity|].
  apply JSON_parse_fresh. exact Hp.
Qed.

Lemma clone_tree stack h T :
  layout h T -> NoDup (addrs T) -> height T <= stack ->
  exists a' h', clone stack h (aroot T) = Ok (a', h') /\ fresh_tree h h' a' (erase T).
Proof.
  intros H Hnd Hh. unfold clone.
  rewrite (JSON_stringify_tree h T stack [] H Hnd Hh) by (intros x []).
  destruct (JSON_parse (erase T) h) as [a' h'] eqn:E.
  exists a', h'. split; [reflexivity|]. apply JSON_parse_fresh. exact E.
Qed.

(** ** The steps of [move] *)

Lemma pop_push {A} (l : list A) x : pop (push l x) = Some (x, l).
Proof. unfold pop, push. rewrite rev_app_distr. simpl. rewrite rev_involutive. reflexivity. Qed.

Lemma pop_nil {A} : pop (@nil A) = None.
Proof. reflexivity. Qed.

Lemma pop_None {A} (l : list A) : pop l = None -> l = [].
Proof.
  unfold pop. destruct (rev l) eqn:E; [|discriminate]. intros _.
  rewrite <- (rev_involutive l), E. reflexivity.
Qed.

Lemma pop_Some {A} (l : list A) x r : pop l = Some (x, r) -> l = push r x.
Proof.
  unfold pop, push. destruct (rev l) as [|y t] eqn:E; [discriminate|].
  intros H. inversion H; subst. rewrite <- (rev_involutive l), E. reflexivity.
Qed.

(** [createUndoData] written out call by call. *)
Lemma createUndoData_eq stack e sv s :
  createUndoData stack e sv s =
  match current s with
  | None => (Throw TypeError, s)
  | Some cur =>
    match store s !! e with
    | None => (Throw TypeError, s)
    | Some ee =>
      match findEmployeeSupervisor stack (store s) cur (uniqueId ee) with
      | Throw x => (Throw x, s)
      | Ok cs =>
        match clone stack (store s) cur with
        | Throw x => (Throw x, s)
        | Ok (c0, h1) =>
          match
            match cs with
            | Some p =>
                match clone stack h1 p with
                | Throw x => Throw x
                | Ok (c1, h2) => Ok ([c0; c1], h2)
                end
            | None => Ok ([c0], h1)
            end
          with
          | Throw x => (Throw x, set_store h1 s)
          | Ok (ud, h2) =>
            match clone stack h2 e with
            | Throw x => (Throw x, set_store h2 s)
            | Ok (c2, h3) =>
              match clone stack h3 sv with
              | Throw x => (Throw x, set_store h3 s)
              | Ok (c3, h4) => (Ok (ud ++ [c2; c3]), set_store h4 s)
              end
            end
          end
        end
      end
    end
  end.
Proof.
  destruct s as [h c hist cur rs].
  unfold createUndoData, bind, this_current, get, on_store, JSON_clone, ret, push, set_store.
  cbn. destruct cur as [cur|]; [|reflexivity]. cbn.
  destruct (h !! e) as [ee|]; [|reflexivity]. cbn.
  destruct (findEmployeeSupervisor stack h cur (uniqueId ee)) as [cs|]; [|reflexivity].
  destruct (clone stack h cur) as [[c0 h1]|]; [|reflexivity]. cbn.
  destruct cs as [p|]; cbn.
  - destruct (clone stack h1 p) as [[c1 h2]|]; [|reflexivity]. cbn.
    destruct (clone stack h2 e) as [[c2 h3]|]; [|reflexivity]. cbn.
    destruct (clone stack h3 sv) as [[c3 h4]|]; reflexivity.
  - destruct (clone stack h1 e) as [[c2 h3]|]; [|reflexivity]. cbn.
    destruct (clone stack h3 sv) as [[c3 h4]|]; reflexivity.
Qed.

Lemma clone_extends stack h a a' h' : clone stack h a = Ok (a', h') -> extends h h'.
Proof. intros H. apply clone_Ok in H as (j & _ & He & _). exact He. Qed.

(** Whatever [createUndoData] ends with, it has only added fresh objects;
    when it returns, the first snapshot is a fresh copy of the live
    structure. *)
Lemma createUndoData_cases stack e sv s r s' :
  createUndoData stack e sv s = (r, s') ->
  exists h4,
    extends (store s) h4 /\ s' = set_store h4 s /\
    forall ud, r = Ok ud ->
      exists cur ee cs c0 rest j T,
        current s = Some cur /\ store s !! e = Some ee /\
        findEmployeeSupervisor stack (store s) cur (uniqueId ee) = Ok cs /\
        ud = c0 :: rest /\
        JSON_stringify stack [] (store s) cur = Ok j /\
        layout h4 T /\ aroot T = c0 /\ erase T = j /\
        (forall x, In x (addrs T) -> length (store s) <= x < length h4) /\
        Forall (fun x => length (store s) <= x < length h4) ud.
Proof.
  rewrite createUndoData_eq.
  assert (forall x h, extends (store s) h -> (Throw x, set_store h s) = (r, s') ->
            exists h4, extends (store s) h4 /\ s' = set_store h4 s /\
              forall ud, r = Ok ud -> exists cur ee cs c0 rest j T,
                current s = Some cur /\ store s !! e = Some ee /\
                findEmployeeSupervisor stack (store s) cur (uniqueId ee) = Ok cs /\
                ud = c0 :: rest /\
                JSON_stringify stack [] (store s) cur = Ok j /\
                layout h4 T /\ aroot T = c0 /\ erase T = j /\
                (forall x, In x (addrs T) -> length (store s) <= x < length h4) /\
                Forall (fun x => length (store s) <= x < length h4) ud) as Hthrow.
  { intros x h Hext H. inversion H; subst. exists h.
    split; [exact Hext | split; [reflexivity | intros ud Hud; discriminate Hud]]. }
  assert (set_store (store s) s = s) as Hsame by (destruct s; reflexivity).
  destruct (current s) as [cur|] eqn:Hcur;
    [|intros H; apply (Hthrow TypeError (store s)); [apply extends_refl | rewrite Hsame; exact H]].
  destruct (store s !! e) as [ee|] eqn:Hee;
    [|intros H; apply (Hthrow TypeError (store s)); [apply extends_refl | rewrite Hsame; exact H]].
  destruct (findEmployeeSupervisor stack (store s) cur (uniqueId ee)) as [cs|x] eqn:Hcs;
    [|intros H; apply (Hthrow x (store s)); [apply extends_refl | rewrite Hsame; exact H]].
  destruct (clone stack (store s) cur) as [[c0 h1]|x] eqn:Hc0;
    [|intros H; apply (Hthrow x (store s)); [apply extends_refl | rewrite Hsame; exact H]].
  pose proof (clone_Ok _ _ _ _ _ Hc0) as (j & Hj & Hext1 & T & HT & Hr & He & _ & Hb).
  assert (exists ud1 h2,
            (match cs with
             | Some p => match clone stack h1 p with
                         | Throw x => Throw x
                         | Ok (c1, h2) => Ok ([c0; c1], h2)
                         end
             | None => Ok ([c0], h1)
             end = Ok (ud1, h2) /\ extends h1 h2 /\
             (exists rest, ud1 = c0 :: rest) /\
             Forall (fun x => length (store s) <= x < length h2) ud1)
            \/ exists x, match cs with
             | Some p => match clone stack h1 p with
                         | Throw x => Throw x
                         | Ok (c1, h2) => Ok ([c0; c1], h2)
                         end
             | None => Ok ([c0], h1)
             end = @Throw (list addr * heap) x) as Hmid.
  { assert (length (store s) <= c0 < length h1) as Hc0b
      by (apply Hb; rewrite <- Hr; apply aroot_addrs).
    destruct cs as [p|].
    - destruct (clone stack h1 p) as [[c1 h2]|x] eqn:Hc1; [|exists [], []; right; eauto].
      exists [c0; c1], h2. left. pose proof (clone_Ok _ _ _ _ _ Hc1) as (j1 & _ & Hext2 & T1 & _ & Hr1 & _ & _ & Hb1).
      pose proof (extends_length _ _ Hext1). pose proof (extends_length _ _ Hext2).
      assert (length h1 <= c1 < length h2) by (apply Hb1; rewrite <- Hr1; apply aroot_addrs).
      split; [reflexivity | split; [exact Hext2 | split; [eauto|]]].
      repeat constructor; lia.
    - exists [c0], h1. left.
      split; [reflexivity | split; [apply extends_refl | split; [eauto|]]].
      repeat constructor; lia. }
  destruct Hmid as (ud1 & h2 & [(-> & Hext2 & (rest & ->) & Hud1)|(x & ->)]);
    [|intros H; apply (Hthrow x h1); [exact Hext1 | exact H]].
  pose proof (extends_trans _ _ _ Hext1 Hext2) as Hext12.
  destruct (clone stack h2 e) as [[c2 h3]|x] eqn:Hc2;
    [|intros H; apply (Hthrow x h2); [exact Hext12 | exact H]].
  pose proof (clone_Ok _ _ _ _ _ Hc2) as (j2 & _ & Hext3 & T2 & _ & Hr2 & _ & _ & Hb2).
  pose proof (extends_trans _ _ _ Hext12 Hext3) as Hext123.
  destruct (clone stack h3 sv) as [[c3 h4]|x] eqn:Hc3;
    [|intros H; apply (Hthrow x h3); [exact Hext123 | exact H]].
  pose proof (clone_Ok _ _ _ _ _ Hc3) as (j3 & _ & Hext4 & T3 & _ & Hr3 & _ & _ & Hb3).
  pose proof (extends_trans _ _ _ Hext123 Hext4) as Hext1234.
  pose proof (extends_length _ _ Hext1). pose proof (extends_length _ _ Hext2).
  pose proof (extends_length _ _ Hext3). pose proof (extends_length _ _ Hext4).
  assert (length h2 <= c2 < length h3) by (apply Hb2; rewrite <- Hr2; apply aroot_addrs).
  assert (length h3 <= c3 < length h4) by (apply Hb3; rewrite <- Hr3; apply aroot_addrs).
  assert (Forall (fun x => length (store s) <= x < length h4) ((c0 :: rest) ++ [c2; c3])) as Hall.
  { apply Forall_app. split.
    - eapply Forall_impl; [|exact Hud1]. simpl. intros. lia.
    - repeat constructor; lia. }
  assert (layout h4 T) as HT4.
  { eapply extends_layout; [|exact HT].
    eapply extends_trans; [exact Hext2|]. eapply extends_trans; eauto. }
  intros Hres. inversion Hres as [[Hres1 Hres2]]. exists h4.
  split; [exact Hext1234 | split; [reflexivity|]]. intros ud Hud.
  inversion Hud as [Hud']. clear Hud Hres.
  exists cur, ee, cs, c0, (rest ++ [c2; c3]), j, T.
  split; [reflexivity | split; [reflexivity | split; [exact Hcs | split; [reflexivity|]]]].
  split; [exact Hj|]. split; [exact HT4|].
  split; [exact Hr | split; [exact He|]]. split; [|exact Hall].
  intros x Hx. apply Hb in Hx. lia.
Qed.

(** [move] written out call by call. *)
Lemma move_eq stack employeeID supervisorID s :
  move stack employeeID supervisorID s =
  match current s with
  | None => (Throw TypeError, s)
  | Some cur =>
    match findEmployee stack (store s) cur employeeID with
    | Throw x => (Throw x, s)
    | Ok employee =>
      match findEmployee stack (store s) cur supervisorID with
      | Throw x => (Throw x, s)
      | Ok supervisor =>
        match employee, supervisor with
        | Some e, Some sv =>
          match createUndoData stack e sv s with
          | (Throw x, s1) => (Throw x, s1)
          | (Ok ud, s1) =>
            let s2 := set_history (push (history s1) (mkHistory "move" ud)) s1 in
            match current s2 with
            | None => (Throw TypeError, s2)
            | Some cur2 =>
              match findEmployeeSupervisor stack (store s2) cur2 employeeID with
              | Throw x => (Throw x, s2)
              | Ok cs =>
                match
                  match cs with
                  | Some p =>
                      match store s2 !! p with
                      | None => (Throw TypeError, s2)
                      | Some c =>
                          (Ok tt,
                           set_store
                             (<[p := mkEmployee (uniqueId c) (name c)
                                       (List.filter (other_id (store s2) employeeID)
                                                    (subordinates c))]> (store s2)) s2)
                      end
                  | None => (Ok tt, s2)
                  end
                with
                | (Throw x, s3) => (Throw x, s3)
                | (Ok _, s3) =>
                    match store s3 !! sv with
                    | None => (Throw TypeError, s3)
                    | Some sup =>
                        (Ok tt,
                         set_store
                           (<[sv := mkEmployee (uniqueId sup) (name sup)
                                      (push (subordinates sup) e)]> (store s3)) s3)
                    end
                end
              end
            end
          end
        | _, _ => (Throw EntityNotFound, s)
        end
      end
    end
  end.
Proof.
  destruct s as [h c hist cur0 rs].
  destruct cur0 as [cur|]; [|reflexivity]. unfold move. run_state.
  destruct (findEmployee stack h cur employeeID) as [employee|]; [|reflexivity].
  destruct (findEmployee stack h cur supervisorID) as [supervisor|]; [|reflexivity].
  destruct employee as [e|], supervisor as [sv|]; try reflexivity.
  destruct (createUndoData stack e sv _) as [[ud|x] s1]; [|reflexivity].
  destruct s1 as [h1 c1 hist1 cur1 rs1].
  destruct cur1 as [cur2|]; [|reflexivity].
  destruct (findEmployeeSupervisor stack h1 cur2 employeeID) as [cs|]; [|reflexivity].
  destruct cs as [p|].
  - destruct (h1 !! p) as [c'|] eqn:E1; [|reflexivity]. run_state. rewrite E1.
    destruct (_ !! sv) eqn:E2; run_state; rewrite ?E2; reflexivity.
  - destruct (h1 !! sv) eqn:E2; run_state; rewrite ?E2; reflexivity.
Qed.

Lemma detach_length h id cs : length (detach h id cs) = length h.
Proof.
  unfold detach. destruct cs as [p|]; [|reflexivity].
  destruct (h !! p); [apply length_insert | reflexivity].
Qed.

Lemma attach_length h sv e : length (attach h sv e) = length h.
Proof. unfold attach. destruct (h !! sv); [apply length_insert | reflexivity]. Qed.

(** The two ways [move] can end: with an exception, having at most added
    fresh objects to the store; or normally, having pushed the snapshots
    and rewired the two arrays. *)
Lemma move_cases stack employeeID supervisorID s r s' :
  move stack employeeID supervisorID s = (r, s') ->
  (exists x h4, r = Throw x /\ extends (store s) h4 /\ s' = set_store h4 s) \/
  (exists cur e sv ud h4 cs,
      r = Ok tt /\ current s = Some cur /\
      findEmployee stack (store s) cur employeeID = Ok (Some e) /\
      findEmployee stack (store s) cur supervisorID = Ok (Some sv) /\
      createUndoData stack e sv s = (Ok ud, set_store h4 s) /\
      extends (store s) h4 /\
      findEmployeeSupervisor stack (store s) cur employeeID = Ok cs /\
      s' = mkState (attach (detach h4 employeeID cs) sv e) (ceo s)
                   (push (history s) (mkHistory "move" ud)) (current s) (redoStack s)).
Proof.
  rewrite move_eq.
  assert (set_store (store s) s = s) as Hsame by (destruct s; reflexivity).
  assert (forall x, (Throw x, s) = (r, s') ->
            exists x h4, r = Throw x /\ extends (store s) h4 /\ s' = set_store h4 s) as Hthrow.
  { intros x H. inversion H; subst. exists x, (store s').
    split; [reflexivity | split; [apply extends_refl | symmetry; exact Hsame]]. }
  destruct (current s) as [cur|] eqn:Hcur; [|intros H; left; eapply Hthrow; exact H].
  destruct (findEmployee stack (store s) cur employeeID) as [employee|x] eqn:He;
    [|intros H; left; eapply Hthrow; exact H].
  destruct (findEmployee stack (store s) cur supervisorID) as [supervisor|x] eqn:Hsv;
    [|intros H; left; eapply Hthrow; exact H].
  destruct employee as [e|]; [|destruct supervisor; intros H; left; eapply Hthrow; exact H].
  destruct supervisor as [sv|]; [|intros H; left; eapply Hthrow; exact H].
  destruct (createUndoData stack e sv s) as [[ud|x] s1] eqn:Hc.
  2:{ apply createUndoData_cases in Hc as (h4 & Hext & -> & _).
      intros H. inversion H; subst. left. exists x, h4. auto. }
  pose proof Hc as Hc'.
  apply createUndoData_cases in Hc' as (h4 & Hext & -> & Hud).
  destruct (Hud ud eq_refl) as (cur' & ee & cs & c0 & rest & j & T & Hcur' & Hee & Hcs & _).
  assert (cur' = cur) as -> by congruence. clear Hcur' Hud.
  destruct (findEmployee_id _ _ _ _ _ He) as (ee' & Hee' & Hid).
  assert (ee' = ee) as -> by congruence. rewrite Hid in Hcs. clear Hee'.
  assert (exists sup, store s !! sv = Some sup) as (sup & Hsup).
  { destruct (findEmployee_id _ _ _ _ _ Hsv) as (sup & Hsup & _). eauto. }
  intros H. right. exists cur, e, sv, ud, h4, cs.
  assert ((r, s') =
          (Ok tt, mkState (attach (detach h4 employeeID cs) sv e) (ceo s)
                          (push (history s) (mkHistory "move" ud)) (Some cur)
                          (redoStack s))) as Hres.
  { rewrite <- H. clear H Hthrow. cbn zeta. unfold set_history, set_store.
    cbn [store current history ceo redoStack]. rewrite Hcur.
    destruct Hext as (new & -> & Hnew).
    rewrite (findEmployeeSupervisor_app _ _ new _ _ _ Hcs).
    unfold attach, detach. destruct cs as [p|].
    - destruct (findEmployeeSupervisor_sub _ _ _ _ _ Hcs) as (_ & c & _ & _ & Hp & _).
      rewrite (lookup_app_old _ new _ _ Hp). cbn [store].
      destruct (<[p := _]> (store s ++ new) !! sv) as [sup'|] eqn:E; [reflexivity|].
      exfalso. apply lookup_ge_None in E. rewrite length_insert, length_app in E.
      apply lookup_lt_Some in Hsup. lia.
    - cbn [store]. rewrite (lookup_app_old _ new _ _ Hsup). reflexivity. }
  inversion Hres; subst r s'.
  repeat (split; [first [reflexivity | eassumption]|]). reflexivity.
Qed.

(** ** Not found *)

(** C1.  When either id is not found in the live structure, [move] throws
    its "not found" error and the state -- the store, hence the live tree,
    and both stacks -- is the one it started from. *)
Theorem move_not_found stack employeeID supervisorID s c :
  current s = Some c ->
  findEmployee stack (store s) c employeeID = Ok None \/
  findEmployee stack (store s) c supervisorID = Ok None ->
  move stack employeeID supervisorID s = (Throw EntityNotFound, s).
Proof.
  intros Hc H. rewrite move_eq, Hc. destruct H as [H|H].
  - rewrite H.
    destruct (findEmployee_None_returns _ _ _ _ supervisorID H) as [r ->].
    destruct r; reflexivity.
  - destruct (findEmployee_None_returns _ _ _ _ employeeID H) as [r ->].
    rewrite H. destruct r; reflexivity.
Qed.

Lemma move_not_found_witness :
  move 10 9 2 ex_app = (Throw EntityNotFound, ex_app) /\
  move 10 2 9 ex_app = (Throw EntityNotFound, ex_app).
Proof.
  split.
  - apply (move_not_found 10 9 2 ex_app 5); [reflexivity | left; reflexivity].
  - apply (move_not_found 10 2 9 ex_app 5); [reflexivity | right; reflexivity].
Defined.

(** ** Undo *)

Lemma layout_detach h id cs T :
  (forall p, cs = Some p -> ~ In p (addrs T)) -> layout h T -> layout (detach h id cs) T.
Proof.
  intros Hp H. unfold detach. destruct cs as [p|]; [|exact H].
  destruct (h !! p); [|exact H]. apply layout_insert; auto.
Qed.

Lemma layout_attach h sv e T :
  ~ In sv (addrs T) -> layout h T -> layout (attach h sv e) T.
Proof.
  intros Hp H. unfold attach. destruct (h !! sv); [|exact H]. apply layout_insert; auto.
Qed.

Lemma deep_eq_functional h a j j' : deep_eq h a j -> deep_eq h a j' -> j = j'.
Proof.
  intros (T & HT & Hr & <-) (T' & HT' & Hr' & <-). f_equal.
  eapply layout_functional; eauto. congruence.
Qed.

(** C2.  After a [move] that returned, [undo] puts a structure deep-equal
    to the tree from before the move in place of the live tree (and takes
    the record off the undo stack again). *)
Theorem move_undo_restores stack employeeID supervisorID s s' c T0 :
  current s = Some c ->
  deep_eq (store s) c T0 ->
  move stack employeeID supervisorID s = (Ok tt, s') ->
  exists c',
    undo s' = (Ok tt, mkState (store s') (ceo s) (history s) (Some c') (redoStack s)) /\
    deep_eq (store s') c' T0.
Proof.
  intros Hc HT0 Hm. apply move_cases in Hm as [(x & h4 & Hx & _)|Hm]; [discriminate|].
  destruct Hm as (cur & e & sv & ud & h4 & cs & _ & Hcur & He & Hsv & Hud & Hext & Hcs & ->).
  assert (cur = c) as -> by congruence.
  apply createUndoData_cases in Hud as (h4' & _ & Hh4 & Hud).
  assert (h4' = h4) as -> by (destruct s; inversion Hh4; reflexivity).
  destruct (Hud ud eq_refl)
    as (cur' & ee & cs' & c0 & rest & j & T & Hcur' & _ & _ & -> & Hj & HT & Hr & Hej & Hb & _).
  assert (cur' = c) as -> by congruence.
  exists c0. split.
  - unfold undo. cbn [history]. rewrite pop_push. reflexivity.
  - cbn [store]. apply JSON_stringify_deep_eq in Hj.
    rewrite (deep_eq_functional _ _ _ _ HT0 Hj). exists T.
    split; [|split; [exact Hr | exact Hej]].
    apply layout_attach; [|apply layout_detach; [|exact HT]].
    + intros Hin. apply Hb in Hin.
      destruct (findEmployee_id _ _ _ _ _ Hsv) as (sup & Hsup & _).
      apply lookup_lt_Some in Hsup. lia.
    + intros p -> Hin. apply Hb in Hin.
      destruct (findEmployeeSupervisor_sub _ _ _ _ _ Hcs) as (_ & c1 & _ & _ & Hp & _).
      apply lookup_lt_Some in Hp. lia.
Qed.

Lemma move_undo_restores_witness :
  exists c',
    undo ex_moved =
      (Ok tt, mkState (store ex_moved) (ceo ex_app) (history ex_app) (Some c')
                      (redoStack ex_app)) /\
    deep_eq (store ex_moved) c' ex_tree.
Proof.
  apply (move_undo_restores 10 2 3 ex_app ex_moved 5 ex_tree).
  - reflexivity.
  - apply (JSON_stringify_deep_eq 10 []). reflexivity.
  - vm_compute. reflexivity.
Defined.

(** ** What every call preserves *)

Lemma closed_from_insert n h a e :
  closed_from n h -> Forall (fun b => n <= b < length h) (subordinates e) ->
  closed_from n (<[a := e]> h).
Proof.
  intros Hc He x ex Hx Hl. rewrite length_insert.
  destruct (decide (a = x)) as [->|Hne].
  - destruct (decide (x < length h)) as [Hlt|Hge].
    + rewrite list_lookup_insert_eq in Hl by exact Hlt. inversion Hl; subst. exact He.
    + rewrite list_insert_ge in Hl by lia. apply (Hc x ex Hx Hl).
  - rewrite list_lookup_insert_ne in Hl by exact Hne. apply (Hc x ex Hx Hl).
Qed.

Lemma closed_from_reach n h a b :
  closed_from n h -> n <= a < length h -> reach h a b -> n <= b < length h.
Proof.
  intros Hc Ha Hr. induction Hr as [a|a e b c He Hb _ IH]; [exact Ha|].
  apply IH. pose proof (Hc a e (proj1 Ha) He) as H.
  rewrite Forall_forall in H. apply H. exact Hb.
Qed.

Lemma closed_from_detach n h id cs :
  closed_from n h -> closed_from n (detach h id cs).
Proof.
  intros Hc. unfold detach. destruct cs as [p|]; [|exact Hc].
  destruct (h !! p) as [c|] eqn:Hp; [|exact Hc].
  destruct (decide (n <= p)) as [Hn|Hn].
  - apply closed_from_insert; [exact Hc|]. simpl.
    pose proof (Hc p c Hn Hp) as H. rewrite Forall_forall in *.
    intros b Hb. apply filter_In in Hb as [Hb _]. auto.
  - intros x ex Hx Hl. rewrite length_insert.
    rewrite list_lookup_insert_ne in Hl by lia. apply (Hc x ex Hx Hl).
Qed.

Lemma closed_from_attach n h sv e :
  closed_from n h -> n <= sv -> n <= e < length h -> closed_from n (attach h sv e).
Proof.
  intros Hc Hsv He. unfold attach. destruct (h !! sv) as [sup|] eqn:Hs; [|exact Hc].
  apply closed_from_insert; [exact Hc|]. simpl. unfold push.
  apply Forall_app. split; [apply (Hc sv sup Hsv Hs) | repeat constructor; lia].
Qed.

Lemma prefix_insert (h0 new : heap) a e :
  length h0 <= a -> exists new', <[a := e]> (h0 ++ new) = h0 ++ new'.
Proof.
  intros Ha. exists (<[a - length h0 := e]> new).
  apply insert_app_r_alt. exact Ha.
Qed.

Lemma prefix_detach (h0 new : heap) id cs :
  (forall p, cs = Some p -> length h0 <= p) ->
  exists new', detach (h0 ++ new) id cs = h0 ++ new'.
Proof.
  intros Hp. unfold detach. destruct cs as [p|]; [|eauto].
  destruct (_ !! p); [|eauto]. apply prefix_insert. auto.
Qed.

Lemma prefix_attach (h0 new : heap) sv e :
  length h0 <= sv -> exists new', attach (h0 ++ new) sv e = h0 ++ new'.
Proof.
  intros Hp. unfold attach. destruct (_ !! sv); [|eauto]. apply prefix_insert. auto.
Qed.

Lemma chart_inv_constructor stack h c s0 :
  constructor stack h c = Ok s0 -> chart_inv h c s0 /\ c < length h.
Proof.
  unfold constructor. destruct (clone stack h c) as [[c' h']|] eqn:E; [|discriminate].
  intros H. inversion H; subst s0. clear H.
  apply clone_Ok in E as (j & Hj & Hext & T & HT & Hr & _ & _ & Hb).
  split.
  - split; [destruct Hext as (new & -> & _); eauto|].
    split; [eapply closed_from_extends; [reflexivity | exact Hext |]|].
    { intros a e Ha He. apply lookup_lt_Some in He. lia. }
    split; [reflexivity|]. split; [|split; [constructor | reflexivity]].
    exists c'. split; [reflexivity|]. apply Hb. rewrite <- Hr. apply aroot_addrs.
  - apply JSON_stringify_deep_eq in Hj as (T0 & HT0 & Hr0 & _).
    apply layout_root in HT0. rewrite Hr0 in HT0. eapply lookup_lt_Some. exact HT0.
Qed.

Lemma chart_inv_grow h0 c0 s h4 :
  chart_inv h0 c0 s -> extends (store s) h4 -> chart_inv h0 c0 (set_store h4 s).
Proof.
  intros ((new & Hpre) & Hcl & Hceo & (c & Hc & Hcb) & Hh & Hr) Hext.
  pose proof (extends_length _ _ Hext) as Hlen.
  unfold set_store, chart_inv. cbn [store ceo current history redoStack].
  split. { destruct Hext as (new' & -> & _). rewrite Hpre, <- app_assoc. eauto. }
  split. { eapply closed_from_extends; [|exact Hext | exact Hcl]. rewrite Hpre, length_app. lia. }
  split; [exact Hceo|]. split; [exists c; split; [exact Hc | lia]|]. split; [|exact Hr].
  eapply Forall_impl; [|exact Hh]. simpl. intros r (c1 & rest & Hu & Hb).
  exists c1, rest. split; [exact Hu | lia].
Qed.

Lemma chart_inv_move stack employeeID supervisorID h0 c0 s :
  chart_inv h0 c0 s -> chart_inv h0 c0 (snd (move stack employeeID supervisorID s)).
Proof.
  intros Hinv. destruct (move stack employeeID supervisorID s) as [r s'] eqn:Hm.
  cbn [snd].
  apply move_cases in Hm as [(x & h4 & _ & Hext & ->)|Hm].
  { apply (chart_inv_grow h0 c0 s h4); assumption. }
  destruct Hm as (cur & e & sv & ud & h4 & cs & _ & Hcur & He & Hsv & Hud & Hext & Hcs & ->).
  pose proof (chart_inv_grow _ _ _ _ Hinv Hext) as ((new & Hpre) & Hcl & Hceo & (c & Hc & Hcb) & Hh & Hr).
  destruct Hinv as (_ & Hcl0 & _ & (c' & Hc' & Hcb') & _ & _).
  unfold set_store in *. cbn [store ceo current history redoStack snd] in *.
  assert (c' = cur) as -> by congruence. assert (c = cur) as -> by congruence.
  pose proof (extends_length _ _ Hext) as Hlen.
  pose proof (closed_from_reach _ _ _ _ Hcl0 Hcb' (findEmployee_reach _ _ _ _ _ He)) as Heb.
  pose proof (closed_from_reach _ _ _ _ Hcl0 Hcb' (findEmployee_reach _ _ _ _ _ Hsv)) as Hsvb.
  assert (forall p, cs = Some p -> length h0 <= p) as Hpb.
  { intros p ->. destruct (findEmployeeSupervisor_sub _ _ _ _ _ Hcs) as (Hreach & _).
    apply (closed_from_reach _ _ _ _ Hcl0 Hcb' Hreach). }
  apply createUndoData_cases in Hud as (h4' & _ & Hh4 & Hud).
  assert (h4' = h4) as -> by (destruct s; inversion Hh4; reflexivity).
  destruct (Hud ud eq_refl)
    as (_ & _ & _ & u0 & rest & _ & T & _ & _ & _ & -> & _ & _ & Hr0 & _ & Hb & _).
  unfold chart_inv. cbn [store ceo current history redoStack].
  rewrite attach_length, detach_length.
  split.
  { destruct (prefix_detach h0 new employeeID cs Hpb) as (new1 & H1).
    rewrite Hpre, H1. apply prefix_attach. lia. }
  split.
  { apply closed_from_attach; [apply closed_from_detach; exact Hcl | lia |].
    rewrite detach_length. lia. }
  split; [exact Hceo|]. split; [exists cur; split; [exact Hcur | lia]|]. split; [|exact Hr].
  unfold push. apply Forall_app. split; [exact Hh|]. constructor; [|constructor].
  exists u0, rest. split; [reflexivity|].
  assert (length (store s) <= u0 < length h4) by (apply Hb; rewrite <- Hr0; apply aroot_addrs).
  lia.
Qed.

Lemma chart_inv_undo h0 c0 s : chart_inv h0 c0 s -> chart_inv h0 c0 (snd (undo s)).
Proof.
  intros Hinv. unfold undo. destruct (pop (history s)) as [[lastAction rest]|] eqn:E; [|exact Hinv].
  apply pop_Some in E. destruct Hinv as (Hpre & Hcl & Hceo & Hcur & Hh & Hr).
  rewrite E in Hh. unfold push in Hh. apply Forall_app in Hh as [Hrest Hlast].
  apply Forall_inv in Hlast as (c & rest' & Hu & Hb).
  destruct (String.eqb (undo_move lastAction) "move").
  - unfold chart_inv, set_current, set_history. cbn [store ceo current history redoStack snd].
    rewrite Hu. split; [exact Hpre|]. split; [exact Hcl|]. split; [exact Hceo|].
    split; [|split; [exact Hrest | exact Hr]].
    exists c. split; [reflexivity | exact Hb].
  - unfold chart_inv, set_history. cbn [store ceo current history redoStack snd].
    split; [exact Hpre|]. split; [exact Hcl|]. split; [exact Hceo|].
    split; [exact Hcur|]. split; [exact Hrest | exact Hr].
Qed.

Lemma redo_empty s : redoStack s = [] -> redo s = (Ok tt, s).
Proof. intros H. unfold redo. rewrite H. reflexivity. Qed.

Lemma chart_inv_exec stack c h0 c0 s :
  chart_inv h0 c0 s -> chart_inv h0 c0 (snd (exec stack c s)).
Proof.
  intros Hinv. destruct c as [e sv| |]; simpl.
  - apply chart_inv_move. exact Hinv.
  - apply chart_inv_undo. exact Hinv.
  - rewrite redo_empty; [exact Hinv | apply Hinv].
Qed.

Lemma chart_inv_run stack cs : forall h0 c0 s,
  chart_inv h0 c0 s -> chart_inv h0 c0 (run stack cs s).
Proof.
  induction cs as [|c cs IH]; intros h0 c0 s Hinv; simpl; [exact Hinv|].
  apply IH. apply chart_inv_exec. exact Hinv.
Qed.

(** ** Redo *)

(** C4.  Nothing ever reaches the redo stack, so in every state the
    instance can get into [redo] changes nothing. *)
Theorem redo_is_inert stack h c s0 cs :
  constructor stack h c = Ok s0 ->
  redoStack (run stack cs s0) = [] /\
  redo (run stack cs s0) = (Ok tt, run stack cs s0).
Proof.
  intros H. apply chart_inv_constructor in H as [H _].
  pose proof (chart_inv_run stack cs _ _ _ H) as (_ & _ & _ & _ & _ & Hr).
  split; [exact Hr | apply redo_empty; exact Hr].
Qed.

Lemma redo_is_inert_witness :
  redoStack (run 10 [Move 2 3; Undo; Redo] ex_app) = [] /\
  redo (run 10 [Move 2 3; Undo; Redo] ex_app) =
    (Ok tt, run 10 [Move 2 3; Undo; Redo] ex_app).
Proof.
  apply (redo_is_inert 10 ex_heap ex_ceo ex_app [Move 2 3; Undo; Redo]). reflexivity.
Defined.

(** ** The [ceo] field *)

Lemma chart_inv_original h c s j :
  chart_inv h c s -> deep_eq h c j ->
  (forall a e, h !! a = Some e -> store s !! a = Some e) /\ deep_eq (store s) (ceo s) j.
Proof.
  intros ((new & Hpre) & _ & Hceo & _) (T & HT & Hr & Hj).
  split.
  - intros a e Ha. rewrite Hpre. apply lookup_app_old. exact Ha.
  - exists T. rewrite Hpre, Hceo. split; [apply layout_app; exact HT | auto].
Qed.

(** On the chart of the specification the [ceo] field is not the root of
    the live tree: after
    [move(2, 3)] the live tree has A under B, while [ceo] still reads as
    the tree given to the constructor, and is another object than the root
    of the live tree. *)
Lemma ceo_is_not_the_live_root :
  run 10 [Move 2 3] ex_app = ex_moved /\
  move 10 2 3 ex_app = (Ok tt, ex_moved) /\
  live 10 ex_moved = Ok (JEmployee 1 "CEO" [JEmployee 3 "B" [JEmployee 2 "A" []]]) /\
  JSON_stringify 10 [] (store ex_moved) (ceo ex_moved) = Ok ex_tree /\
  current ex_moved <> Some (ceo ex_moved).
Proof.
  split; [reflexivity|]. split; [vm_compute; reflexivity|].
  split; [vm_compute; reflexivity|]. split; [vm_compute; reflexivity|].
  vm_compute. discriminate.
Qed.

(** C5, amended.  In every state the instance can get into, [ceo] is the
    reference given to the constructor and reads as the tree it had then;
    the root of the live tree is another object, created later and held in
    [current]. *)
Theorem ceo_is_the_original stack h c s0 cs j :
  constructor stack h c = Ok s0 ->
  deep_eq h c j ->
  ceo (run stack cs s0) = c /\
  deep_eq (store (run stack cs s0)) (ceo (run stack cs s0)) j /\
  exists cur, current (run stack cs s0) = Some cur /\ length h <= cur /\
              cur <> ceo (run stack cs s0).
Proof.
  intros H Hj. apply chart_inv_constructor in H as [H Hc].
  pose proof (chart_inv_run stack cs _ _ _ H) as Hinv.
  destruct (chart_inv_original _ _ _ _ Hinv Hj) as [_ Hd].
  destruct Hinv as (_ & _ & Hceo & (cur & Hcur & Hb) & _).
  split; [exact Hceo|]. split; [exact Hd|].
  exists cur. split; [exact Hcur|]. split; [lia|]. rewrite Hceo. lia.
Qed.

Lemma ex_heap_deep_eq : deep_eq ex_heap ex_ceo ex_tree.
Proof. apply (JSON_stringify_deep_eq 10 []). reflexivity. Qed.

Lemma ceo_is_the_original_witness :
  ceo (run 10 [Move 2 3] ex_app) = ex_ceo /\
  deep_eq (store (run 10 [Move 2 3] ex_app)) (ceo (run 10 [Move 2 3] ex_app)) ex_tree /\
  exists cur, current (run 10 [Move 2 3] ex_app) = Some cur /\ length ex_heap <= cur /\
              cur <> ceo (run 10 [Move 2 3] ex_app).
Proof.
  apply (ceo_is_the_original 10 ex_heap ex_ceo ex_app [Move 2 3] ex_tree).
  - reflexivity.
  - exact ex_heap_deep_eq.
Defined.

(** C9.  Whatever is called, the objects that existed when the instance
    was built are still in the store as they were, so the object given to
    the constructor and kept in [ceo] still reads as the tree it had. *)
Theorem original_never_mutated stack h c s0 cs j :
  constructor stack h c = Ok s0 ->
  deep_eq h c j ->
  ceo (run stack cs s0) = c /\
  (forall a e, h !! a = Some e -> store (run stack cs s0) !! a = Some e) /\
  deep_eq (store (run stack cs s0)) c j.
Proof.
  intros H Hj. apply chart_inv_constructor in H as [H _].
  pose proof (chart_inv_run stack cs _ _ _ H) as Hinv.
  destruct (chart_inv_original _ _ _ _ Hinv Hj) as [Hs Hd].
  destruct Hinv as (_ & _ & Hceo & _).
  split; [exact Hceo|]. split; [exact Hs|]. rewrite Hceo in Hd. exact Hd.
Qed.

Lemma original_never_mutated_witness :
  ceo (run 10 [Move 2 3; Move 3 1; Undo] ex_app) = ex_ceo /\
  (forall a e, ex_heap !! a = Some e ->
               store (run 10 [Move 2 3; Move 3 1; Undo] ex_app) !! a = Some e) /\
  deep_eq (store (run 10 [Move 2 3; Move 3 1; Undo] ex_app)) ex_ceo ex_tree.
Proof.
  apply (original_never_mutated 10 ex_heap ex_ceo ex_app [Move 2 3; Move 3 1; Undo] ex_tree).
  - reflexivity.
  - exact ex_heap_deep_eq.
Defined.

(** ** The supervisor search against its specification *)

Lemma ids_node a i n ks : ids (ANode a i n ks) = i :: flat_map ids ks.
Proof.
  unfold ids. simpl. f_equal. induction ks as [|k ks IH]; simpl; [reflexivity|].
  rewrite map_app, IH. reflexivity.
Qed.

Lemma aid_ids T : In (aid T) (ids T).
Proof. destruct T. rewrite ids_node. left. reflexivity. Qed.

Lemma find_app_first {B} (P : B -> bool) l1 l2 :
  List.find P (l1 ++ l2) =
  match List.find P l1 with
  | Some x => Some x
  | None => List.find P l2
  end.
Proof.
  induction l1 as [|x l1 IH]; simpl; [reflexivity|].
  destruct (P x); [reflexivity | exact IH].
Qed.

Lemma find_flat_map {A B} (P : B -> bool) (f : A -> list B) (g : B -> addr) xs :
  g <$> List.find P (flat_map f xs) = first_some (fun x => g <$> List.find P (f x)) xs.
Proof.
  induction xs as [|x xs IH]; simpl; [reflexivity|].
  rewrite find_app_first. destruct (List.find P (f x)); [reflexivity | exact IH].
Qed.

(** The walk of the specification, node by node. *)
Lemma spec_findSupervisor_node id a i n ks :
  spec_findSupervisor id (ANode a i n ks) =
  if existsb (fun k => Z.eqb (aid k) id) ks then Some a
  else first_some (spec_findSupervisor id) ks.
Proof.
  unfold spec_findSupervisor. simpl.
  destruct (existsb _ ks); [reflexivity|]. apply find_flat_map.
Qed.

(** An id that no node below the root carries has no supervisor. *)
Lemma find_sup_absent id T :
  ~ In id (flat_map ids (akids T)) -> find_sup id T = None.
Proof.
  induction T as [a i n ks IH] using atree_ind'. simpl. intros Hn.
  induction ks as [|k ks IHks]; simpl; [reflexivity|].
  simpl in Hn. rewrite in_app_iff in Hn.
  inversion IH as [|? ? Hk Hks]; subst.
  destruct (decide (aid k = id)) as [E|_].
  { exfalso. apply Hn. left. rewrite <- E. apply aid_ids. }
  rewrite Hk.
  - apply IHks; [exact Hks | tauto].
  - intros Hin. apply Hn. left. destruct k as [ka ki kn kks].
    rewrite ids_node. right. exact Hin.
Qed.

Lemma existsb_aid_In id ks :
  existsb (fun k => Z.eqb (aid k) id) ks = true -> In id (flat_map ids ks).
Proof.
  intros H. apply existsb_exists in H as (k & Hk & E). apply Z.eqb_eq in E.
  apply in_flat_map. exists k. split; [exact Hk | rewrite <- E; apply aid_ids].
Qed.

(** Where the id occurs at most once, the search of the code finds what
    the walk of the specification finds. *)
Lemma find_sup_spec id T :
  count_occ Z.eq_dec (ids T) id <= 1 -> find_sup id T = spec_findSupervisor id T.
Proof.
  induction T as [a i n ks IH] using atree_ind'. intros Hc.
  rewrite spec_findSupervisor_node. simpl find_sup.
  assert (count_occ Z.eq_dec (flat_map ids ks) id <= 1) as Hks.
  { rewrite ids_node in Hc. simpl in Hc. destruct (Z.eq_dec i id); lia. }
  clear Hc. induction ks as [|k ks IHks]; simpl; [reflexivity|].
  simpl in Hks. rewrite count_occ_app in Hks.
  inversion IH as [|? ? Hk Hrest]; subst.
  destruct (decide (aid k = id)) as [E|E].
  { apply Z.eqb_eq in E. rewrite E. reflexivity. }
  apply Z.eqb_neq in E. rewrite E. simpl.
  destruct (existsb (fun k0 => Z.eqb (aid k0) id) ks) eqn:Hex.
  - assert (find_sup id k = None) as ->.
    { apply existsb_aid_In in Hex. apply (count_occ_In Z.eq_dec) in Hex.
      assert (count_occ Z.eq_dec (ids k) id = 0) as H0 by lia.
      apply count_occ_not_In in H0. apply find_sup_absent.
      intros Hin. apply H0. destruct k. rewrite ids_node. right. exact Hin. }
    rewrite (IHks Hrest) by lia. reflexivity.
  - rewrite Hk by lia.
    destruct (spec_findSupervisor id k); [reflexivity|].
    rewrite (IHks Hrest) by lia. reflexivity.
Qed.

(** An id that a node below the root carries has a supervisor. *)
Lemma find_sup_present id T :
  In id (flat_map ids (akids T)) -> find_sup id T <> None.
Proof.
  induction T as [a i n ks IH] using atree_ind'. simpl. intros Hin.
  induction ks as [|k ks IHks]; simpl in *; [contradiction|].
  inversion IH as [|? ? Hk Hks]; subst.
  destruct (decide (aid k = id)) as [E|E]; [discriminate|].
  destruct (find_sup id k) eqn:Ek; [discriminate|].
  apply (IHks Hks). apply in_app_or in Hin as [Hin|Hin]; [|exact Hin].
  exfalso. destruct k as [ka ki kn kks]. rewrite ids_node in Hin. simpl in E.
  destruct Hin as [Hin|Hin]; [contradiction|]. apply (Hk Hin). reflexivity.
Qed.

(** Outside the data model, where an id occurs twice, the search of the
    code and the walk differ: in [dup_tree] the first node in pre-order
    with a subordinate of id 4 is the root (object 3), and the code
    returns A (object 1); in [twin_tree] the search for the id of the root
    returns the root. *)
Lemma findEmployeeSupervisor_not_first :
  layout dup_heap dup_tree /\
  spec_findSupervisor 4 dup_tree = Some 3 /\
  findEmployeeSupervisor 10 dup_heap (aroot dup_tree) 4 = Ok (Some 1) /\
  findEmployeeSupervisor 10 dup_heap (aroot dup_tree) 4 <>
    Ok (spec_findSupervisor 4 dup_tree) /\
  layout twin_heap twin_tree /\
  findEmployeeSupervisor 10 twin_heap (aroot twin_tree) (aid twin_tree) = Ok (Some 1) /\
  findEmployeeSupervisor 10 twin_heap (aroot twin_tree) (aid twin_tree) <> Ok None.
Proof.
  split; [repeat constructor|]. split; [reflexivity|]. split; [reflexivity|].
  split; [vm_compute; discriminate|].
  split; [repeat constructor|]. split; [reflexivity | vm_compute; discriminate].
Qed.

(** C8.  On a tree in which the id occurs at most once -- so for every
    id on a tree of the data model, whose ids are unique --
    [findEmployeeSupervisor] returns what the pre-order walk returns, the
    first node one of whose immediate subordinates carries the id, and it
    returns nothing exactly when the id is the root's or does not occur
    in the tree. *)
Theorem findEmployeeSupervisor_spec stack h T id :
  layout h T ->
  height T <= stack ->
  count_occ Z.eq_dec (ids T) id <= 1 ->
  findEmployeeSupervisor stack h (aroot T) id = Ok (spec_findSupervisor id T) /\
  (findEmployeeSupervisor stack h (aroot T) id = Ok None <->
   id = aid T \/ ~ In id (ids T)).
Proof.
  intros HT Hh Hc. rewrite (findEmployeeSupervisor_layout h id T stack HT Hh).
  split; [f_equal; apply find_sup_spec; exact Hc|].
  destruct T as [a i n ks]. rewrite ids_node in *. cbn [aid]. split.
  - intros H. destruct (decide (id = i)) as [E|E]; [left; exact E|]. right.
    intros [Hin|Hin]; [congruence|].
    apply (find_sup_present id (ANode a i n ks) Hin). congruence.
  - intros H. f_equal. apply find_sup_absent. cbn [akids]. intros Hin.
    destruct H as [->|H].
    + apply (count_occ_In Z.eq_dec) in Hin. simpl in Hc.
      destruct (Z.eq_dec i i); [lia | congruence].
    + apply H. right. exact Hin.
Qed.

Lemma org_live_layout : layout (store org_app) org_live.
Proof. repeat constructor. Qed.

Lemma findEmployeeSupervisor_spec_witness :
  (findEmployeeSupervisor 10 (store org_app) (aroot org_live) 5 =
     Ok (spec_findSupervisor 5 org_live) /\
   (findEmployeeSupervisor 10 (store org_app) (aroot org_live) 5 = Ok None <->
    5%Z = aid org_live \/ ~ In 5%Z (ids org_live))) /\
  (findEmployeeSupervisor 10 (store org_app) (aroot org_live) 1 =
     Ok (spec_findSupervisor 1 org_live) /\
   (findEmployeeSupervisor 10 (store org_app) (aroot org_live) 1 = Ok None <->
    1%Z = aid org_live \/ ~ In 1%Z (ids org_live))) /\
  (findEmployeeSupervisor 10 (store org_app) (aroot org_live) 9 =
     Ok (spec_findSupervisor 9 org_live) /\
   (findEmployeeSupervisor 10 (store org_app) (aroot org_live) 9 = Ok None <->
    9%Z = aid org_live \/ ~ In 9%Z (ids org_live))).
Proof.
  split; [|split].
  - apply (findEmployeeSupervisor_spec 10 (store org_app) org_live 5).
    + exact org_live_layout.
    + vm_compute. lia.
    + vm_compute. lia.
  - apply (findEmployeeSupervisor_spec 10 (store org_app) org_live 1).
    + exact org_live_layout.
    + vm_compute. lia.
    + vm_compute. lia.
  - apply (findEmployeeSupervisor_spec 10 (store org_app) org_live 9).
    + exact org_live_layout.
    + vm_compute. lia.
    + vm_compute. lia.
Defined.

(** ** Supervisors in a tree of objects *)

Lemma edges_snd T : map snd (edges T) = flat_map addrs (akids T).
Proof.
  induction T as [a i n ks IH] using atree_ind'. simpl.
  induction ks as [|k ks IHks]; simpl; [reflexivity|].
  inversion IH as [|? ? Hk Hks]; subst. rewrite map_app, (IHks Hks), Hk.
  destruct k; reflexivity.
Qed.

Lemma subtree_edge T P X :
  In P (subtrees T) -> In X (akids P) -> In (aroot P, aroot X) (edges T).
Proof.
  revert T P. apply (subtrees_ind (fun T P => In X (akids P) -> In (aroot P, aroot X) (edges T))).
  - intros [a i n ks] HX. simpl in *. apply in_flat_map. exists X.
    split; [exact HX | left; reflexivity].
  - intros a i n ks k P Hk _ IH HX. simpl. apply in_flat_map. exists k.
    split; [exact Hk | right; exact (IH HX)].
Qed.

(** In a tree of objects an object has one supervisor. *)
Lemma edges_functional T p p' c :
  NoDup (addrs T) -> In (p, c) (edges T) -> In (p', c) (edges T) -> p = p'.
Proof.
  intros Hnd. assert (NoDup (map snd (edges T))) as H.
  { rewrite edges_snd. destruct T. simpl in *. apply NoDup_cons_iff in Hnd. apply Hnd. }
  revert H. generalize (edges T). intros l. induction l as [|[q d] l IH]; simpl; [contradiction|].
  intros Hl. apply NoDup_cons_iff in Hl as [Hd Hl]. intros [E|H1] [E'|H2].
  - congruence.
  - exfalso. apply Hd. inversion E; subst. apply (in_map snd) in H2. exact H2.
  - exfalso. apply Hd. inversion E'; subst. apply (in_map snd) in H1. exact H1.
  - auto.
Qed.

(** What [findEmployee] finds is a node of the tree with the id. *)
Lemma find_pre_subtree id T e :
  find_pre id T = Some e ->
  exists X, In X (subtrees T) /\ aroot X = e /\ aid X = id.
Proof.
  induction T as [a i n ks IH] using atree_ind'. simpl.
  destruct (decide (i = id)) as [->|Hne].
  - intros H. inversion H; subst. exists (ANode e id n ks). auto.
  - intros H. induction ks as [|k ks IHks]; simpl in H; [discriminate|].
    inversion IH as [|? ? Hk Hks]; subst.
    destruct (find_pre id k) as [y|] eqn:E.
    + inversion H; subst. destruct (Hk eq_refl) as (X & HX & Hr & Hi).
      exists X. split; [|auto]. right. simpl. apply in_or_app. left. exact HX.
    + destruct (IHks Hks H) as (X & [HX|HX] & Hr & Hi).
      * exfalso. subst X. simpl in Hi. contradiction.
      * exists X. split; [|auto]. right. simpl. apply in_or_app. right. exact HX.
Qed.

Lemma find_pre_root id T : aid T = id -> find_pre id T = Some (aroot T).
Proof. destruct T as [a i n ks]. simpl. intros ->. destruct (decide (id = id)); congruence. Qed.

Lemma same_stop_kids id a ks :
  Forall (fun k => aid k <> id -> same_stop id k) ks ->
  match first_some (find_pre id) ks with
  | Some e =>
      (exists X,
          first_some (fun k => if decide (aid k = id) then Some a else find_sup id k) ks
            = Some a /\
          In X ks /\ aroot X = e /\ aid X = id) \/
      (exists k P X,
          In k ks /\
          first_some (fun k => if decide (aid k = id) then Some a else find_sup id k) ks
            = Some (aroot P) /\
          In P (subtrees k) /\ In X (akids P) /\ aroot X = e /\ aid X = id)
  | None =>
      first_some (fun k => if decide (aid k = id) then Some a else find_sup id k) ks = None
  end.
Proof.
  induction 1 as [|k ks Hk _ IH]; simpl; [reflexivity|].
  destruct (decide (aid k = id)) as [E|E].
  - rewrite (find_pre_root id k E). left. exists k. auto.
  - specialize (Hk E). unfold same_stop in Hk.
    destruct (find_pre id k) as [e|].
    + destruct Hk as (P & X & -> & HP & HX & Hr & Hi). right. exists k, P, X. auto 10.
    + rewrite Hk. destruct (first_some (find_pre id) ks) as [e|]; [|exact IH].
      destruct IH as [(X & Hs & HX & Hr & Hi)|(k' & P & X & Hk' & Hs & HP & HX & Hr & Hi)].
      * left. exists X. auto 10.
      * right. exists k', P, X. auto 10.
Qed.

Lemma find_pre_sup id T : aid T <> id -> same_stop id T.
Proof.
  induction T as [a i n ks IH] using atree_ind'. intros Hne. simpl in Hne.
  pose proof (same_stop_kids id a ks IH) as H. unfold same_stop. simpl.
  destruct (decide (i = id)) as [|_]; [contradiction|].
  destruct (first_some (find_pre id) ks) as [e|]; [|exact H].
  destruct H as [(X & Hs & HX & Hr & Hi)|(k & P & X & Hk & Hs & HP & HX & Hr & Hi)].
  - exists (ANode a i n ks), X. rewrite Hs. simpl. auto 10.
  - exists P, X. rewrite Hs. split; [reflexivity|].
    split; [eapply subtrees_kid; eauto | auto].
Qed.

(** ** Reaching objects *)

Lemma layout_reach h T : layout h T -> forall x, In x (addrs T) -> reach h (aroot T) x.
Proof.
  induction T as [a i n ks IH] using atree_ind'. intros H x Hx.
  apply layout_inv in H as [Ha Hks]. simpl. destruct Hx as [<-|Hx]; [constructor|].
  apply in_flat_map in Hx as (k & Hk & Hx). rewrite Forall_forall in *.
  eapply reach_step; [exact Ha | simpl; apply in_map; exact Hk | auto].
Qed.

Lemma reach_layout h a x :
  reach h a x -> forall T, layout h T -> aroot T = a -> In x (addrs T).
Proof.
  induction 1 as [a|a e b c He Hb _ IH]; intros T HT Hr.
  - rewrite <- Hr. apply aroot_addrs.
  - pose proof (layout_root _ _ HT) as Hl. rewrite Hr, He in Hl. inversion Hl; subst e.
    simpl in Hb. apply in_map_iff in Hb as (k & Hkb & Hk).
    destruct T as [a' i n ks]. simpl in *. apply layout_inv in HT as [_ Hks].
    rewrite Forall_forall in Hks. right. apply in_flat_map. exists k.
    split; [exact Hk | apply IH; auto].
Qed.

(** ** [move] on a tree of objects returns *)

Lemma find_pre_In id T e : find_pre id T = Some e -> In e (addrs T).
Proof.
  intros H. apply find_pre_subtree in H as (X & HX & <- & _).
  apply (subtrees_addrs _ _ HX). apply aroot_addrs.
Qed.

Lemma find_sup_In h id T p :
  layout h T -> find_sup id T = Some p -> In p (addrs T).
Proof.
  intros HT H.
  pose proof (findEmployeeSupervisor_layout h id T (height T) HT (Nat.le_refl _)) as E.
  rewrite H in E. apply findEmployeeSupervisor_sub in E as [Hr _].
  eapply reach_layout; eauto.
Qed.

Lemma clone_subtree stack h h' T x :
  layout h T -> NoDup (addrs T) -> height T <= stack ->
  In x (addrs T) -> extends h h' ->
  exists a' h'', clone stack h' x = Ok (a', h'') /\ extends h' h''.
Proof.
  intros HT Hnd Hh Hx Hext. apply addrs_subtree in Hx as (X & HX & <-).
  destruct (clone_tree stack h' X) as (a' & h'' & Hc & Hf & _).
  - eapply extends_layout; [exact Hext|]. eapply subtrees_layout; eauto.
  - eapply subtrees_NoDup; eauto.
  - pose proof (subtrees_height _ _ HX). lia.
  - eauto.
Qed.

Lemma createUndoData_returns stack e sv s cur T :
  current s = Some cur -> is_tree (store s) cur T -> height T <= stack ->
  In e (addrs T) -> In sv (addrs T) ->
  exists ud h4, createUndoData stack e sv s = (Ok ud, set_store h4 s).
Proof.
  intros Hcur (HT & Hr & Hnd) Hh He Hsv. rewrite createUndoData_eq, Hcur.
  destruct (addrs_subtree _ _ He) as (X & HX & HXr).
  pose proof (layout_root _ _ (subtrees_layout _ _ _ HX HT)) as Hee.
  rewrite HXr in Hee. rewrite Hee. cbn [uniqueId]. subst cur.
  rewrite (findEmployeeSupervisor_layout _ _ _ _ HT Hh).
  destruct (clone_subtree stack _ _ T (aroot T) HT Hnd Hh (aroot_addrs T) (extends_refl _))
    as (c0 & h1 & -> & Hext1).
  assert (exists ud1 h2,
            match find_sup (aid X) T with
            | Some p => match clone stack h1 p with
                        | Throw x => Throw x
                        | Ok (c1, h2) => Ok ([c0; c1], h2)
                        end
            | None => Ok ([c0], h1)
            end = Ok (ud1, h2) /\ extends (store s) h2) as (ud1 & h2 & -> & Hext2).
  { destruct (find_sup (aid X) T) as [p|] eqn:Hp; [|eauto].
    destruct (clone_subtree stack _ h1 T p HT Hnd Hh (find_sup_In _ _ _ _ HT Hp) Hext1)
      as (c1 & h2 & -> & Hext2).
    exists [c0; c1], h2. split; [reflexivity | eapply extends_trans; eauto]. }
  destruct (clone_subtree stack _ h2 T e HT Hnd Hh He Hext2) as (c2 & h3 & -> & Hext3).
  destruct (clone_subtree stack _ h3 T sv HT Hnd Hh Hsv (extends_trans _ _ _ Hext2 Hext3))
    as (c3 & h4 & -> & Hext4).
  eauto.
Qed.

(** With both nodes found and the snapshots taken, [move] goes through. *)
Lemma move_Ok stack employeeID supervisorID s cur e sv ud h4 cs :
  current s = Some cur ->
  findEmployee stack (store s) cur employeeID = Ok (Some e) ->
  findEmployee stack (store s) cur supervisorID = Ok (Some sv) ->
  createUndoData stack e sv s = (Ok ud, set_store h4 s) ->
  findEmployeeSupervisor stack (store s) cur employeeID = Ok cs ->
  move stack employeeID supervisorID s =
    (Ok tt, mkState (attach (detach h4 employeeID cs) sv e) (ceo s)
                    (push (history s) (mkHistory "move" ud)) (current s) (redoStack s)).
Proof.
  intros Hcur He Hsv Hc Hcs. rewrite move_eq, Hcur, He, Hsv, Hc.
  pose proof (createUndoData_cases _ _ _ _ _ _ Hc) as (h4' & Hext & Hh4 & _).
  assert (h4' = h4) as -> by (destruct s; inversion Hh4; reflexivity).
  destruct (findEmployee_id _ _ _ _ _ Hsv) as (sup & Hsup & _).
  cbn zeta. unfold set_history, set_store.
  cbn [store current history ceo redoStack]. rewrite Hcur.
  destruct Hext as (new & -> & Hnew).
  rewrite (findEmployeeSupervisor_app _ _ new _ _ _ Hcs).
  unfold attach, detach. destruct cs as [p|].
  - destruct (findEmployeeSupervisor_sub _ _ _ _ _ Hcs) as (_ & c & _ & _ & Hp & _).
    rewrite (lookup_app_old _ new _ _ Hp). cbn [store].
    destruct (<[p := _]> (store s ++ new) !! sv) as [sup'|] eqn:E; [reflexivity|].
    exfalso. apply lookup_ge_None in E. rewrite length_insert, length_app in E.
    apply lookup_lt_Some in Hsup. lia.
  - cbn [store]. rewrite (lookup_app_old _ new _ _ Hsup). reflexivity.
Qed.

Lemma move_tree_returns stack employeeID supervisorID s cur T e sv :
  current s = Some cur -> is_tree (store s) cur T -> height T <= stack ->
  find_pre employeeID T = Some e -> find_pre supervisorID T = Some sv ->
  exists ud h4,
    extends (store s) h4 /\
    move stack employeeID supervisorID s =
      (Ok tt, mkState (attach (detach h4 employeeID (find_sup employeeID T)) sv e) (ceo s)
                      (push (history s) (mkHistory "move" ud)) (current s) (redoStack s)).
Proof.
  intros Hcur Htree Hh He Hsv. pose proof Htree as (HT & Hr & Hnd).
  destruct (createUndoData_returns stack e sv s cur T Hcur Htree Hh) as (ud & h4 & Hc).
  { eapply find_pre_In; eauto. }
  { eapply find_pre_In; eauto. }
  exists ud, h4. split.
  { apply createUndoData_cases in Hc as (h4' & Hext & Hh4 & _).
    assert (h4' = h4) as -> by (destruct s; inversion Hh4; reflexivity). exact Hext. }
  subst cur. apply (move_Ok _ _ _ _ (aroot T)); try assumption.
  - rewrite (findEmployee_layout _ _ _ _ HT Hh). f_equal. exact He.
  - rewrite (findEmployee_layout _ _ _ _ HT Hh). f_equal. exact Hsv.
  - apply findEmployeeSupervisor_layout; assumption.
Qed.

(** ** Move correctness *)

Lemma other_id_app h new id b e :
  h !! b = Some e -> other_id (h ++ new) id b = other_id h id b.
Proof. intros H. unfold other_id. rewrite (lookup_app_old _ new _ _ H), H. reflexivity. Qed.

(** A node under a supervisor is not the root, and the supervisor search
    for its id returns that supervisor. *)
Lemma find_sup_of_subordinate h id T E S1 n1 :
  layout h T -> NoDup (addrs T) ->
  find_pre id T = Some E ->
  In S1 (addrs T) -> h !! S1 = Some n1 -> In E (subordinates n1) ->
  find_sup id T = Some S1.
Proof.
  intros HT Hnd HE HS1 Hn1 Hin.
  destruct (addrs_subtree _ _ HS1) as (P1 & HP1 & HP1r).
  pose proof (layout_root _ _ (subtrees_layout _ _ _ HP1 HT)) as Hl.
  rewrite HP1r, Hn1 in Hl. inversion Hl; subst n1. simpl in Hin.
  apply in_map_iff in Hin as (X1 & HX1r & HX1).
  pose proof (subtree_edge _ _ _ HP1 HX1) as Hedge. rewrite HP1r, HX1r in Hedge.
  assert (aid T <> id) as Hne.
  { intros Heq. rewrite (find_pre_root _ _ Heq) in HE. inversion HE as [HEr].
    apply (in_map snd) in Hedge. rewrite edges_snd in Hedge. simpl in Hedge.
    destruct T as [a i n ks]. simpl in *. apply NoDup_cons_iff in Hnd as [Hnd _].
    apply Hnd. rewrite HEr. exact Hedge. }
  pose proof (find_pre_sup id T Hne) as Hs. unfold same_stop in Hs. rewrite HE in Hs.
  destruct Hs as (P & X & -> & HP & HX & HXr & _). f_equal.
  pose proof (subtree_edge _ _ _ HP HX) as Hedge'. rewrite HXr in Hedge'.
  eapply edges_functional; eauto.
Qed.

(** What [move] does to the objects, for an employee E under S1 and a
    new supervisor S2 other than S1. *)
Lemma reparent_nodes stack employeeID supervisorID s cur T E S1 S2 n1 n2 :
  current s = Some cur ->
  is_tree (store s) cur T ->
  height T <= stack ->
  findEmployee stack (store s) cur employeeID = Ok (Some E) ->
  findEmployee stack (store s) cur supervisorID = Ok (Some S2) ->
  In S1 (addrs T) ->
  store s !! S1 = Some n1 ->
  In E (subordinates n1) ->
  store s !! S2 = Some n2 ->
  S2 <> S1 ->
  exists s',
    move stack employeeID supervisorID s = (Ok tt, s') /\
    store s' !! S1 =
      Some (mkEmployee (uniqueId n1) (name n1)
              (List.filter (other_id (store s) employeeID) (subordinates n1))) /\
    ~ In E (List.filter (other_id (store s) employeeID) (subordinates n1)) /\
    store s' !! S2 =
      Some (mkEmployee (uniqueId n2) (name n2) (subordinates n2 ++ [E])) /\
    forall a e, a <> S1 -> a <> S2 -> store s !! a = Some e -> store s' !! a = Some e.
Proof.
  intros Hcur Htree Hh HE HS2 HS1 Hn1 Hin Hn2 Hne.
  pose proof Htree as (HT & Hr & Hnd). subst cur.
  rewrite (findEmployee_layout _ _ _ _ HT Hh) in HE.
  rewrite (findEmployee_layout _ _ _ _ HT Hh) in HS2.
  inversion HE as [HE']. inversion HS2 as [HS2']. clear HE HS2.
  destruct (move_tree_returns stack employeeID supervisorID s (aroot T) T E S2
              Hcur Htree Hh HE' HS2') as (ud & h4 & Hext & Hm).
  rewrite (find_sup_of_subordinate _ _ _ _ _ _ HT Hnd HE' HS1 Hn1 Hin) in Hm.
  eexists. split; [exact Hm|]. cbn [store].
  destruct Hext as (new & -> & _).
  assert (List.filter (other_id (store s ++ new) employeeID) (subordinates n1) =
          List.filter (other_id (store s) employeeID) (subordinates n1)) as Hf.
  { apply filter_ext_in. intros b Hb.
    destruct (addrs_subtree _ _ HS1) as (P1 & HP1 & HP1r).
    pose proof (subtrees_layout _ _ _ HP1 HT) as HP1l.
    pose proof (layout_root _ _ HP1l) as Hl. rewrite HP1r, Hn1 in Hl.
    inversion Hl; subst n1. simpl in Hb. apply in_map_iff in Hb as (k & <- & Hk).
    destruct P1 as [pa pi pn pks]. apply layout_inv in HP1l as [_ Hks].
    rewrite Forall_forall in Hks. simpl in Hk.
    eapply other_id_app. apply layout_root. apply Hks. exact Hk. }
  pose proof (lookup_lt_Some _ _ _ Hn1) as HS1lt.
  pose proof (lookup_lt_Some _ _ _ Hn2) as HS2lt.
  unfold attach, detach. rewrite (lookup_app_old _ new _ _ Hn1), Hf.
  rewrite (list_lookup_insert_ne (store s ++ new) S1 S2) by congruence.
  rewrite (lookup_app_old _ new _ _ Hn2).
  split; [|split; [|split]].
  - rewrite list_lookup_insert_ne by exact Hne.
    apply list_lookup_insert_eq. rewrite length_app. lia.
  - intros HinF. apply filter_In in HinF as [_ Ho].
    destruct (find_pre_subtree _ _ _ HE') as (X & HX & HXr & HXi).
    pose proof (layout_root _ _ (subtrees_layout _ _ _ HX HT)) as Hl.
    rewrite HXr in Hl. unfold other_id in Ho. rewrite Hl in Ho. simpl in Ho.
    rewrite HXi, Z.eqb_refl in Ho. discriminate.
  - apply list_lookup_insert_eq. rewrite length_insert, length_app. lia.
  - intros a e Ha1 Ha2 Hae.
    rewrite list_lookup_insert_ne by congruence.
    rewrite list_lookup_insert_ne by congruence.
    apply lookup_app_old. exact Hae.
Qed.

(** ** Rewiring a tree of objects *)

Lemma modify_aroot x f T : aroot (modify x f T) = aroot T.
Proof. destruct T as [a i n ks]. simpl. destruct (decide (a = x)); reflexivity. Qed.

Lemma modify_notin x f T : ~ In x (addrs T) -> modify x f T = T.
Proof.
  induction T as [a i n ks IH] using atree_ind'. simpl. intros Hx.
  destruct (decide (a = x)) as [->|_]; [tauto|]. f_equal.
  induction ks as [|k ks IHks]; simpl; [reflexivity|].
  inversion IH as [|? ? Hk Hks]; subst. simpl in Hx. rewrite in_app_iff in Hx.
  rewrite Hk, IHks by tauto. reflexivity.
Qed.

Lemma map_modify_notin x f ks :
  (forall k, In k ks -> ~ In x (addrs k)) -> map (modify x f) ks = ks.
Proof.
  induction ks as [|k ks IH]; simpl; intros H; [reflexivity|].
  rewrite modify_notin, IH; auto.
Qed.

Lemma NoDup_app_disjoint {A} (l1 l2 : list A) y :
  NoDup (l1 ++ l2) -> In y l1 -> In y l2 -> False.
Proof.
  induction l1 as [|x l1 IH]; simpl; [tauto|]. intros H [->|H1] H2.
  - apply NoDup_cons_iff in H as [H _]. apply H. apply in_or_app. right. exact H2.
  - apply NoDup_cons_iff in H as [_ H]. eauto.
Qed.

(** A subtree other than the tree itself lies in one subordinate, and its
    objects are in no other. *)
Lemma locate_kid a i n ks P :
  NoDup (addrs (ANode a i n ks)) ->
  In P (subtrees (ANode a i n ks)) -> aroot P <> a ->
  exists l1 k0 l2,
    ks = l1 ++ k0 :: l2 /\ In P (subtrees k0) /\
    forall k, In k (l1 ++ l2) -> forall y, In y (addrs k0) -> ~ In y (addrs k).
Proof.
  intros Hnd [<-|HP] Hne; [contradiction Hne; reflexivity|].
  apply in_flat_map in HP as (k0 & Hk0 & HP).
  apply in_split in Hk0 as (l1 & l2 & ->). exists l1, k0, l2.
  split; [reflexivity | split; [exact HP|]].
  simpl in Hnd. apply NoDup_cons_iff in Hnd as [_ Hnd].
  rewrite flat_map_app in Hnd. simpl in Hnd.
  intros k Hk y Hy Hyk. apply in_app_or in Hk as [Hk|Hk].
  - apply (NoDup_app_disjoint _ _ y Hnd).
    + apply in_flat_map. eauto.
    + apply in_or_app. left. exact Hy.
  - apply NoDup_app_remove_l in Hnd. apply (NoDup_app_disjoint _ _ y Hnd Hy).
    apply in_flat_map. eauto.
Qed.

(** The store updated at [x] lays out the tree modified at [x]. *)
Lemma layout_modify h x f e' T P :
  layout h T -> In P (subtrees T) -> aroot P = x ->
  e' = mkEmployee (aid P) (aname P) (map aroot (f (akids P))) ->
  (forall k, In k (f (akids P)) -> layout (<[x := e']> h) k) ->
  layout (<[x := e']> h) (modify x f T).
Proof.
  intros HT HP Hx He' Hnew. revert HT HP.
  induction T as [a i n ks IH] using atree_ind'. intros HT HP. simpl.
  destruct (decide (a = x)) as [Hax|Hax].
  - assert (P = ANode a i n ks) as HPT.
    { eapply subtrees_unique; [exact HT | exact HP | apply subtrees_self | simpl; congruence]. }
    subst P. simpl in *. constructor.
    + subst a. rewrite He'. apply list_lookup_insert_eq.
      apply layout_inv in HT as [Ha _]. eapply lookup_lt_Some. exact Ha.
    + apply Forall_forall. exact Hnew.
  - pose proof HT as HT'. apply layout_inv in HT' as [Ha Hks]. constructor.
    + rewrite list_lookup_insert_ne by congruence. rewrite Ha. do 2 f_equal.
      rewrite map_map. apply map_ext. intros k. symmetry. apply modify_aroot.
    + rewrite Forall_forall in *. intros k' Hk'. apply in_map_iff in Hk' as (k & <- & Hk).
      destruct (in_dec Nat.eq_dec x (addrs k)) as [Hin|Hnin].
      * apply IH; [exact Hk | apply Hks; exact Hk |].
        destruct (addrs_subtree _ _ Hin) as (P' & HP' & HP'r).
        assert (P' = P) as <-; [|exact HP'].
        eapply subtrees_unique; [exact HT | eapply subtrees_kid; eauto | exact HP | congruence].
      * rewrite modify_notin by exact Hnin. apply layout_insert; [exact Hnin | apply Hks; exact Hk].
Qed.

Lemma perm_rearr {A} (X Y Z W : list A) : (X ++ Y ++ Z) ++ W ≡ₚ X ++ Z ++ (Y ++ W).
Proof.
  rewrite <- !app_assoc. apply Permutation_app_head.
  rewrite !app_assoc. apply Permutation_app_tail. apply Permutation_app_comm.
Qed.

(** What the modification does to the nodes of the tree, counted with
    multiplicity. *)
Lemma labels_modify x f T P A B :
  NoDup (addrs T) -> In P (subtrees T) -> aroot P = x ->
  flat_map labels (akids P) ++ A ≡ₚ flat_map labels (f (akids P)) ++ B ->
  labels T ++ A ≡ₚ labels (modify x f T) ++ B.
Proof.
  intros Hnd HP Hx Hperm. revert Hnd HP.
  induction T as [a i n ks IH] using atree_ind'. intros Hnd HP. simpl modify.
  destruct (decide (a = x)) as [Hax|Hax].
  - assert (P = ANode a i n ks) as ->.
    { destruct HP as [<-|HP]; [reflexivity|]. exfalso.
      apply in_flat_map in HP as (k & Hk & HP). simpl in Hnd.
      apply NoDup_cons_iff in Hnd as [Hnd _]. apply Hnd. apply in_flat_map.
      exists k. split; [exact Hk|]. apply (subtrees_addrs _ _ HP).
      rewrite Hax, <- Hx. apply aroot_addrs. }
    simpl in *. apply perm_skip. exact Hperm.
  - destruct (locate_kid a i n ks P Hnd HP) as (l1 & k0 & l2 & -> & HPk & Hdis); [congruence|].
    assert (In x (addrs k0)) as Hxk.
    { apply (subtrees_addrs _ _ HPk). rewrite <- Hx. apply aroot_addrs. }
    rewrite map_app. simpl map.
    rewrite (map_modify_notin x f l1), (map_modify_notin x f l2).
    2:{ intros k Hk. apply Hdis; [apply in_or_app; right; exact Hk | exact Hxk]. }
    2:{ intros k Hk. apply Hdis; [apply in_or_app; left; exact Hk | exact Hxk]. }
    simpl. rewrite !flat_map_app. simpl. apply perm_skip.
    rewrite !perm_rearr. do 2 apply Permutation_app_head.
    apply Forall_app in IH as [_ IH]. apply Forall_inv in IH. apply IH; [|exact HPk].
    simpl in Hnd. apply NoDup_cons_iff in Hnd as [_ Hnd].
    rewrite flat_map_app in Hnd. simpl in Hnd.
    apply NoDup_app_remove_l in Hnd. apply NoDup_app_remove_r in Hnd. exact Hnd.
Qed.

Lemma addrs_labels T : addrs T = map fst (labels T).
Proof.
  induction T as [a i n ks IH] using atree_ind'. simpl. f_equal.
  induction ks as [|k ks IHks]; simpl; [reflexivity|].
  inversion IH as [|? ? Hk Hks]; subst. rewrite map_app, Hk, IHks by exact Hks. reflexivity.
Qed.

Lemma flat_addrs_labels ks : flat_map addrs ks = map fst (flat_map labels ks).
Proof.
  induction ks as [|k ks IH]; simpl; [reflexivity|].
  rewrite map_app, IH, addrs_labels. reflexivity.
Qed.

Lemma flat_ids_labels ks : flat_map ids ks = map snd (flat_map labels ks).
Proof.
  induction ks as [|k ks IH]; simpl; [reflexivity|]. rewrite map_app, IH. reflexivity.
Qed.

(** The subordinates [filter] keeps and those it drops. *)
Lemma keep_other_perm id ks :
  flat_map labels ks ≡ₚ
  flat_map labels (keep_other id ks) ++
  flat_map labels (List.filter (fun k => Z.eqb (aid k) id) ks).
Proof.
  induction ks as [|k ks IH]; simpl; [constructor|].
  destruct (Z.eqb (aid k) id); simpl.
  - rewrite IH. rewrite !app_assoc. apply Permutation_app_tail. apply Permutation_app_comm.
  - rewrite <- app_assoc. apply Permutation_app_head. exact IH.
Qed.

Lemma filter_other_id h id ks :
  Forall (layout h) ks ->
  List.filter (other_id h id) (map aroot ks) = map aroot (keep_other id ks).
Proof.
  induction 1 as [|k ks Hk _ IH]; simpl; [reflexivity|].
  unfold other_id at 1. rewrite (layout_root _ _ Hk). simpl.
  destruct (Z.eqb (aid k) id); simpl; rewrite IH; reflexivity.
Qed.

Lemma kid_not_parent P X : NoDup (addrs P) -> In X (akids P) -> ~ In (aroot P) (addrs X).
Proof.
  destruct P as [p i n ks]. simpl. intros Hnd HX Hin.
  apply NoDup_cons_iff in Hnd as [Hnd _]. apply Hnd. apply in_flat_map. eauto.
Qed.

(** Taking the subordinates with the id away from their supervisor: the
    store afterwards lays out the tree without them, and what was taken
    away is disjoint from what is left. *)
Lemma detach_tree h id T P X :
  layout h T -> NoDup (addrs T) -> In P (subtrees T) -> In X (akids P) -> aid X = id ->
  layout (detach h id (Some (aroot P))) (modify (aroot P) (keep_other id) T) /\
  labels T ≡ₚ labels (modify (aroot P) (keep_other id) T) ++
              flat_map labels (List.filter (fun k => Z.eqb (aid k) id) (akids P)) /\
  NoDup (addrs (modify (aroot P) (keep_other id) T)) /\
  (forall y, In y (addrs X) -> ~ In y (addrs (modify (aroot P) (keep_other id) T))) /\
  layout (detach h id (Some (aroot P))) X.
Proof.
  intros HT Hnd HP HX Hid.
  pose proof (subtrees_layout _ _ _ HP HT) as HPl.
  pose proof (subtrees_NoDup _ _ HP Hnd) as HPnd.
  assert (Forall (layout h) (akids P)) as Hks.
  { destruct P. apply layout_inv in HPl. apply HPl. }
  assert (labels T ≡ₚ labels (modify (aroot P) (keep_other id) T) ++
            flat_map labels (List.filter (fun k => Z.eqb (aid k) id) (akids P))) as Hperm.
  { rewrite <- (app_nil_r (labels T)).
    apply (labels_modify _ _ _ P); [exact Hnd | exact HP | reflexivity|].
    rewrite app_nil_r. apply keep_other_perm. }
  assert (NoDup (addrs (modify (aroot P) (keep_other id) T) ++
                 map fst (flat_map labels (List.filter (fun k => Z.eqb (aid k) id) (akids P)))))
    as Hnd'.
  { rewrite addrs_labels, <- map_app. eapply Permutation_NoDup.
    - apply Permutation_map. exact Hperm.
    - rewrite <- addrs_labels. exact Hnd. }
  unfold detach. rewrite (layout_root _ _ HPl). cbn [uniqueId name subordinates].
  rewrite (filter_other_id _ _ _ Hks).
  split; [|split; [exact Hperm | split; [eapply NoDup_app_remove_r; exact Hnd' | split]]].
  - apply (layout_modify _ _ _ _ _ P); [exact HT | exact HP | reflexivity | reflexivity|].
    intros k Hk. apply filter_In in Hk as [Hk _]. apply layout_insert.
    + apply kid_not_parent; assumption.
    + rewrite Forall_forall in Hks. auto.
  - intros y Hy Hy'. apply (NoDup_app_disjoint _ _ y Hnd' Hy').
    rewrite <- flat_addrs_labels. apply in_flat_map. exists X. split; [|exact Hy].
    apply filter_In. split; [exact HX | apply Z.eqb_eq; exact Hid].
  - apply layout_insert; [apply kid_not_parent; assumption|].
    rewrite Forall_forall in Hks. auto.
Qed.

(** [move] on a live tree, for an employee below the root: the employee's
    subtree [X] is taken from its supervisor [P]; it is put under the new
    supervisor if that one is still in the tree, and is lost otherwise. *)
Lemma move_tree stack employeeID supervisorID s cur T e sv :
  current s = Some cur -> is_tree (store s) cur T -> height T <= stack ->
  find_pre employeeID T = Some e -> e <> cur ->
  find_pre supervisorID T = Some sv ->
  exists s' P X,
    move stack employeeID supervisorID s = (Ok tt, s') /\
    current s' = Some cur /\
    In P (subtrees T) /\ In X (akids P) /\ aroot X = e /\ aid X = employeeID /\
    (forall a n, a <> aroot P -> a <> sv -> store s !! a = Some n -> store s' !! a = Some n) /\
    NoDup (addrs (modify (aroot P) (keep_other employeeID) T)) /\
    (forall y, In y (addrs X) ->
               ~ In y (addrs (modify (aroot P) (keep_other employeeID) T))) /\
    labels T ≡ₚ labels (modify (aroot P) (keep_other employeeID) T) ++
                flat_map labels (List.filter (fun k => Z.eqb (aid k) employeeID) (akids P)) /\
    (~ In sv (addrs (modify (aroot P) (keep_other employeeID) T)) ->
     layout (store s') (modify (aroot P) (keep_other employeeID) T)) /\
    (In sv (addrs (modify (aroot P) (keep_other employeeID) T)) ->
     layout (store s')
       (modify sv (fun ks => ks ++ [X]) (modify (aroot P) (keep_other employeeID) T))).
Proof.
  intros Hcur Htree Hh He Hne Hsv. pose proof Htree as (HT & Hr & Hnd).
  destruct (move_tree_returns stack employeeID supervisorID s cur T e sv
              Hcur Htree Hh He Hsv) as (ud & h4 & Hext & Hm).
  assert (aid T <> employeeID) as Hid.
  { intros E. rewrite (find_pre_root _ _ E) in He. congruence. }
  pose proof (find_pre_sup employeeID T Hid) as Hs. unfold same_stop in Hs.
  rewrite He in Hs. destruct Hs as (P & X & Hsup & HP & HX & HXr & HXi).
  rewrite Hsup in Hm. eexists _, P, X. split; [exact Hm|].
  cbn [current store]. split; [exact Hcur|]. do 4 (split; [assumption|]).
  pose proof (extends_layout _ _ _ Hext HT) as HT4.
  destruct (detach_tree h4 employeeID T P X HT4 Hnd HP HX HXi)
    as (HT1 & Hperm & Hnd1 & Hdis & HXl).
  set (T1 := modify (aroot P) (keep_other employeeID) T) in *.
  set (h5 := detach h4 employeeID (Some (aroot P))) in *.
  split.
  { intros a n Hap Hasv Han. unfold attach. subst h5. unfold detach.
    destruct (h4 !! aroot P); destruct (_ !! sv);
      rewrite ?list_lookup_insert_ne by congruence;
      eapply extends_lookup; eauto. }
  split; [exact Hnd1|]. split; [exact Hdis|]. split; [exact Hperm|]. split.
  - intros Hn. apply layout_attach; assumption.
  - intros Hin. destruct (addrs_subtree _ _ Hin) as (S' & HS' & HS'r).
    pose proof (subtrees_layout _ _ _ HS' HT1) as HS'l.
    unfold attach. rewrite <- HS'r. rewrite (layout_root _ _ HS'l).
    cbn [uniqueId name subordinates].
    apply (layout_modify _ _ _ _ _ S'); [exact HT1 | exact HS' | reflexivity | |].
    + unfold push. rewrite map_app. simpl. rewrite HXr. reflexivity.
    + intros k Hk. apply in_app_or in Hk as [Hk|[<-|[]]].
      * apply layout_insert.
        -- apply kid_not_parent; [eapply subtrees_NoDup; eauto | exact Hk].
        -- destruct S'. apply layout_inv in HS'l as [_ Hks].
           rewrite Forall_forall in Hks. auto.
      * apply layout_insert; [|exact HXl].
        intros HinX. apply (Hdis _ HinX). rewrite HS'r. exact Hin.
Qed.

Lemma ids_subtrees T : ids T = map aid (subtrees T).
Proof.
  induction T as [a i n ks IH] using atree_ind'. rewrite ids_node. simpl. f_equal.
  induction ks as [|k ks IHks]; simpl; [reflexivity|].
  inversion IH as [|? ? Hk Hks]; subst. rewrite map_app, Hk, (IHks Hks). reflexivity.
Qed.

Lemma subtrees_trans T P X : In P (subtrees T) -> In X (subtrees P) -> In X (subtrees T).
Proof.
  revert T P. apply (subtrees_ind (fun T P => In X (subtrees P) -> In X (subtrees T))).
  - auto.
  - intros a i n ks k P Hk _ IH HX. eapply subtrees_kid; eauto.
Qed.

(** Where a key occurs at most once, two elements with that key are one. *)
Lemma count_occ_unique {A} (f : A -> Z) l v x y :
  count_occ Z.eq_dec (map f l) v <= 1 ->
  In x l -> In y l -> f x = v -> f y = v -> x = y.
Proof.
  induction l as [|a l IH]; simpl; [contradiction|]. intros Hc Hx Hy Ex Ey.
  assert (forall z, In z l -> f z = v -> f a = v -> False) as Hno.
  { intros z Hz Ez Ea. destruct (Z.eq_dec (f a) v); [|contradiction].
    assert (count_occ Z.eq_dec (map f l) v = 0) as H0 by lia.
    apply count_occ_not_In in H0. apply H0. rewrite <- Ez. apply in_map. exact Hz. }
  destruct Hx as [->|Hx], Hy as [->|Hy].
  - reflexivity.
  - exfalso. eapply Hno; eauto.
  - exfalso. eapply Hno; eauto.
  - apply IH; try assumption. destruct (Z.eq_dec (f a) v); lia.
Qed.

Lemma NoDup_roots ks : NoDup (flat_map addrs ks) -> NoDup (map aroot ks).
Proof.
  induction ks as [|k ks IH]; simpl; intros H; [constructor|]. constructor.
  - intros Hin. apply in_map_iff in Hin as (k' & Hr & Hk').
    apply (NoDup_app_disjoint _ _ (aroot k) H); [apply aroot_addrs|].
    apply in_flat_map. exists k'. split; [exact Hk'|]. rewrite <- Hr. apply aroot_addrs.
  - apply IH. eapply NoDup_app_remove_l. exact H.
Qed.

Lemma filter_all {A} (p : A -> bool) l :
  (forall b, In b l -> p b = true) -> List.filter p l = l.
Proof.
  induction l as [|a l IH]; simpl; intros H; [reflexivity|].
  rewrite (H a) by (left; reflexivity). f_equal. apply IH. intros b Hb. apply H. right. exact Hb.
Qed.

(** A filter that rejects one element of a list without repetitions, and
    no other, takes that element out and leaves the rest in place. *)
Lemma filter_out_one {A} (p : A -> bool) l x :
  NoDup l -> In x l -> p x = false ->
  (forall b, In b l -> p b = false -> b = x) ->
  exists before after,
    l = before ++ x :: after /\ List.filter p l = before ++ after /\
    ~ In x (before ++ after).
Proof.
  intros Hnd Hin Hx Hone. apply in_split in Hin as (l1 & l2 & ->).
  apply NoDup_remove_2 in Hnd. exists l1, l2. split; [reflexivity|]. split; [|exact Hnd].
  assert (forall b, In b (l1 ++ l2) -> p b = true) as Hall.
  { intros b Hb. destruct (p b) eqn:E; [reflexivity|]. exfalso. apply Hnd.
    rewrite <- (Hone b); [exact Hb | | exact E].
    apply in_app_or in Hb as [Hb|Hb]; apply in_or_app; [left | right; right]; exact Hb. }
  rewrite filter_app. simpl. rewrite Hx. f_equal; apply filter_all; intros b Hb; apply Hall;
    apply in_or_app; [left | right]; exact Hb.
Qed.

(** In a tree in which the employee's id occurs once, the filter of
    [move] takes the employee out of its supervisor's subordinates and
    nothing else. *)
Lemma detach_one h id T E S1 n1 :
  layout h T -> NoDup (addrs T) ->
  count_occ Z.eq_dec (ids T) id <= 1 ->
  find_pre id T = Some E ->
  In S1 (addrs T) -> h !! S1 = Some n1 -> In E (subordinates n1) ->
  exists before after,
    subordinates n1 = before ++ E :: after /\
    List.filter (other_id h id) (subordinates n1) = before ++ after /\
    ~ In E (before ++ after).
Proof.
  intros HT Hnd Hc HE HS1 Hn1 Hin.
  destruct (find_pre_subtree _ _ _ HE) as (X & HX & HXr & HXi).
  pose proof (layout_root _ _ (subtrees_layout _ _ _ HX HT)) as HXl. rewrite HXr in HXl.
  destruct (addrs_subtree _ _ HS1) as (P1 & HP1 & HP1r).
  pose proof (subtrees_layout _ _ _ HP1 HT) as HP1l.
  pose proof (layout_root _ _ HP1l) as Hl. rewrite HP1r, Hn1 in Hl.
  inversion Hl; subst n1. cbn [subordinates] in *.
  pose proof (subtrees_NoDup _ _ HP1 Hnd) as HndP.
  destruct P1 as [pa pi pn pks]. cbn [akids] in *.
  apply layout_inv in HP1l as [_ Hks]. rewrite Forall_forall in Hks.
  apply filter_out_one.
  - apply NoDup_roots. simpl in HndP. apply NoDup_cons_iff in HndP. apply HndP.
  - exact Hin.
  - unfold other_id. rewrite HXl. simpl. rewrite HXi, Z.eqb_refl. reflexivity.
  - intros b Hb Ho. apply in_map_iff in Hb as (k & <- & Hk).
    unfold other_id in Ho. rewrite (layout_root _ _ (Hks k Hk)) in Ho. simpl in Ho.
    apply negb_false_iff in Ho. apply Z.eqb_eq in Ho.
    assert (k = X) as ->; [|exact HXr].
    rewrite ids_subtrees in Hc.
    apply (count_occ_unique aid (subtrees T) id); try assumption.
    apply (subtrees_trans _ (ANode pa pi pn pks)); [exact HP1|].
    eapply subtrees_kid; [exact Hk | apply subtrees_self].
Qed.

(** C3.  In a live tree in which the employee's id occurs once and E, the
    employee, is a subordinate of S1, [move] to a supervisor S2 other
    than S1 returns and leaves [current] the root it was.  Afterwards the
    subordinates of S1 are the former ones with E taken out, the others
    in their places and order; those of S2 are the former ones followed
    by E; and every other object is as before. *)
Theorem move_reparents stack employeeID supervisorID s cur T E S1 S2 n1 n2 :
  current s = Some cur ->
  is_tree (store s) cur T ->
  height T <= stack ->
  count_occ Z.eq_dec (ids T) employeeID <= 1 ->
  findEmployee stack (store s) cur employeeID = Ok (Some E) ->
  findEmployee stack (store s) cur supervisorID = Ok (Some S2) ->
  In S1 (addrs T) ->
  store s !! S1 = Some n1 ->
  In E (subordinates n1) ->
  store s !! S2 = Some n2 ->
  S2 <> S1 ->
  exists s' before after,
    move stack employeeID supervisorID s = (Ok tt, s') /\
    current s' = Some cur /\
    subordinates n1 = before ++ E :: after /\
    ~ In E (before ++ after) /\
    store s' !! S1 = Some (mkEmployee (uniqueId n1) (name n1) (before ++ after)) /\
    store s' !! S2 =
      Some (mkEmployee (uniqueId n2) (name n2) (subordinates n2 ++ [E])) /\
    forall a e, a <> S1 -> a <> S2 -> store s !! a = Some e -> store s' !! a = Some e.
Proof.
  intros Hcur Htree Hh Hc HE HS2 HS1 Hn1 Hin Hn2 Hne.
  destruct (reparent_nodes stack employeeID supervisorID s cur T E S1 S2 n1 n2
              Hcur Htree Hh HE HS2 HS1 Hn1 Hin Hn2 Hne)
    as (s' & Hm & HS1' & _ & HS2' & Hframe).
  pose proof Htree as (HT & Hr & Hnd). subst cur.
  rewrite (findEmployee_layout _ _ _ _ HT Hh) in HE. inversion HE as [HE'].
  destruct (detach_one _ _ _ _ _ _ HT Hnd Hc HE' HS1 Hn1 Hin)
    as (before & after & Hsplit & Hf & Hout).
  exists s', before, after. split; [exact Hm|]. split.
  { apply move_cases in Hm as [(x & h4 & Hx & _)|(c & e & sv & ud & h4 & cs & _ & _ & _ & _ & _ & _ & _ & ->)];
      [discriminate | exact Hcur]. }
  split; [exact Hsplit|]. split; [exact Hout|].
  split; [rewrite <- Hf; exact HS1'|]. split; [exact HS2' | exact Hframe].
Qed.

Lemma ex_live_is_tree : is_tree (store ex_app) 5 ex_live.
Proof.
  split; [repeat constructor|]. split; [reflexivity|].
  repeat constructor; simpl; intuition discriminate.
Qed.

Lemma org_live_is_tree : is_tree (store org_app) 9 org_live.
Proof.
  split; [repeat constructor|]. split; [reflexivity|].
  repeat constructor; simpl; intuition discriminate.
Qed.

Lemma move_reparents_witness :
  exists s' before after,
    move 10 3 4 org_app = (Ok tt, s') /\
    current s' = Some 9 /\
    [6; 7; 8] = before ++ 7 :: after /\
    ~ In 7 (before ++ after) /\
    store s' !! 9 = Some (mkEmployee 1 "CEO" (before ++ after)) /\
    store s' !! 8 = Some (mkEmployee 4 "C" ([] ++ [7])) /\
    forall a e, a <> 9 -> a <> 8 -> store org_app !! a = Some e -> store s' !! a = Some e.
Proof.
  apply (move_reparents 10 3 4 org_app 9 org_live 7 9 8
           (mkEmployee 1 "CEO" [6; 7; 8]) (mkEmployee 4 "C" [])).
  - reflexivity.
  - exact org_live_is_tree.
  - vm_compute. lia.
  - vm_compute. lia.
  - reflexivity.
  - reflexivity.
  - simpl. tauto.
  - reflexivity.
  - simpl. tauto.
  - reflexivity.
  - discriminate.
Defined.

(** ** Moving an employee under itself or under one of its own *)

(** C10.  For an id that resolves to a node of the live tree other than
    the root, [move(id, id)] returns; the node is filtered out of its
    supervisor's subordinates and appended to its own, and neither it nor
    anything below it can be reached from the root any more. *)
Theorem move_under_itself stack id s cur T n :
  current s = Some cur ->
  is_tree (store s) cur T ->
  height T <= stack ->
  findEmployee stack (store s) cur id = Ok (Some n) ->
  n <> cur ->
  exists s' p np nn,
    move stack id id s = (Ok tt, s') /\
    current s' = Some cur /\
    store s !! p = Some np /\ In n (subordinates np) /\ store s !! n = Some nn /\
    store s' !! p =
      Some (mkEmployee (uniqueId np) (name np)
              (List.filter (other_id (store s) id) (subordinates np))) /\
    ~ In n (List.filter (other_id (store s) id) (subordinates np)) /\
    store s' !! n = Some (mkEmployee (uniqueId nn) (name nn) (subordinates nn ++ [n])) /\
    forall x, reach (store s) n x -> ~ reach (store s') cur x.
Proof.
  intros Hcur Htree Hh Hn Hne. pose proof Htree as (HT & Hr & Hnd).
  pose proof Hn as Hn'. rewrite <- Hr in Hn'.
  rewrite (findEmployee_layout _ _ _ _ HT Hh) in Hn'. inversion Hn' as [Hpre]. clear Hn'.
  destruct (move_tree stack id id s cur T n n Hcur Htree Hh Hpre Hne Hpre)
    as (s' & P & X & Hm & Hcur' & HP & HX & HXr & HXi & _ & Hnd1 & Hdis & _ & Hlost & _).
  pose proof (subtrees_layout _ _ _ HP HT) as HPl.
  pose proof (layout_root _ _ HPl) as Hp.
  assert (layout (store s) X) as HXl.
  { destruct P. apply layout_inv in HPl as [_ Hks]. rewrite Forall_forall in Hks. auto. }
  pose proof (layout_root _ _ HXl) as Hnn. rewrite HXr in Hnn.
  assert (In n (map aroot (akids P))) as Hin by (rewrite <- HXr; apply in_map; exact HX).
  assert (n <> aroot P) as Hnp.
  { intros E. apply (kid_not_parent P X (subtrees_NoDup _ _ HP Hnd) HX).
    rewrite <- E, <- HXr. apply aroot_addrs. }
  destruct (reparent_nodes stack id id s cur T n (aroot P) n _ _ Hcur Htree Hh Hn Hn
              (subtrees_addrs _ _ HP _ (aroot_addrs P)) Hp Hin Hnn Hnp)
    as (s'' & Hm' & Hs1 & Hs2 & Hs3 & _).
  assert (s'' = s') as -> by congruence.
  exists s', (aroot P), (mkEmployee (aid P) (aname P) (map aroot (akids P))),
    (mkEmployee (aid X) (aname X) (map aroot (akids X))).
  split; [exact Hm|]. split; [exact Hcur'|]. split; [exact Hp|]. split; [exact Hin|].
  split; [exact Hnn|]. split; [exact Hs1|]. split; [exact Hs2|]. split; [exact Hs3|].
  assert (~ In n (addrs (modify (aroot P) (keep_other id) T))) as Hout.
  { apply Hdis. rewrite <- HXr. apply aroot_addrs. }
  intros x Hx Hx'.
  apply (Hdis x).
  - eapply reach_layout; [exact Hx | exact HXl | exact HXr].
  - eapply reach_layout; [exact Hx' | exact (Hlost Hout) |].
    rewrite modify_aroot. exact Hr.
Qed.

Lemma move_under_itself_witness :
  exists s' p np nn,
    move 10 2 2 ex_app = (Ok tt, s') /\
    current s' = Some 5 /\
    store ex_app !! p = Some np /\ In 3 (subordinates np) /\ store ex_app !! 3 = Some nn /\
    store s' !! p =
      Some (mkEmployee (uniqueId np) (name np)
              (List.filter (other_id (store ex_app) 2) (subordinates np))) /\
    ~ In 3 (List.filter (other_id (store ex_app) 2) (subordinates np)) /\
    store s' !! 3 = Some (mkEmployee (uniqueId nn) (name nn) (subordinates nn ++ [3])) /\
    forall x, reach (store ex_app) 3 x -> ~ reach (store s') 5 x.
Proof.
  apply (move_under_itself 10 2 ex_app 5 ex_live 3).
  - reflexivity.
  - exact ex_live_is_tree.
  - vm_compute. lia.
  - reflexivity.
  - discriminate.
Defined.

(** C7.  On the chain CEO - A - B, a well-formed tree, [move(2, 3)] puts A
    under its own subordinate B: both ids resolve, B is strictly below A,
    the call returns, and afterwards A and B hang on each other and
    neither can be reached from the root. *)
Theorem move_under_descendant_corrupts :
  exists j employeeID supervisorID s0 s1 c e sv T,
    new_app 10 j = Ok s0 /\ current s0 = Some c /\
    is_tree (store s0) c T /\ erase T = j /\ NoDup (ids T) /\
    findEmployee 10 (store s0) c employeeID = Ok (Some e) /\
    findEmployee 10 (store s0) c supervisorID = Ok (Some sv) /\
    e <> sv /\ reach (store s0) e sv /\
    move 10 employeeID supervisorID s0 = (Ok tt, s1) /\ current s1 = Some c /\
    ~ reach (store s1) c e /\ ~ reach (store s1) c sv /\
    reach (store s1) sv e /\ reach (store s1) e sv.
Proof.
  exists chain_tree, 2%Z, 3%Z, chain_app, chain_moved, 5, 4, 3, chain_live.
  assert (layout (store chain_moved) (ANode 5 1 "CEO" [])) as Hl
    by (constructor; [vm_compute; reflexivity | constructor]).
  split; [reflexivity|]. split; [reflexivity|].
  split. { split; [repeat constructor|]. split; [reflexivity|].
           repeat constructor; simpl; intuition discriminate. }
  split; [reflexivity|].
  split. { vm_compute. repeat constructor; simpl; intuition discriminate. }
  split; [reflexivity|]. split; [reflexivity|]. split; [discriminate|].
  split. { eapply reach_step; [vm_compute; reflexivity | left; reflexivity | constructor]. }
  split; [vm_compute; reflexivity|]. split; [reflexivity|].
  split. { intros H. pose proof (reach_layout _ _ _ H _ Hl eq_refl) as Hin.
           simpl in Hin. intuition discriminate. }
  split. { intros H. pose proof (reach_layout _ _ _ H _ Hl eq_refl) as Hin.
           simpl in Hin. intuition discriminate. }
  split; eapply reach_step; try (vm_compute; reflexivity); try (left; reflexivity); constructor.
Qed.

(** ** Every id once *)

Lemma ids_erase T : json_ids (erase T) = ids T.
Proof.
  induction T as [a i n ks IH] using atree_ind'. rewrite ids_node. simpl. f_equal.
  induction ks as [|k ks IHks]; simpl; [reflexivity|].
  inversion IH as [|? ? Hk Hks]; subst. rewrite Hk, IHks by exact Hks. reflexivity.
Qed.

(** [JSON.stringify] only returns when the stack reaches to the bottom of
    the tree. *)
Lemma JSON_stringify_height h T : forall stack path j,
  layout h T -> JSON_stringify stack path h (aroot T) = Ok j -> height T <= stack.
Proof.
  induction T as [a i n ks IH] using atree_ind'. intros [|stack] path j HT.
  - simpl. destruct (decide _); discriminate.
  - rewrite JSON_stringify_S. simpl aroot.
    destruct (decide (a ∈ path)); [discriminate|].
    apply layout_inv in HT as [Ha Hks]. rewrite Ha. simpl subordinates.
    destruct (map_outcome _ _) as [js|] eqn:E; [|discriminate]. intros _.
    apply map_outcome_Ok in E. simpl. apply le_n_S.
    clear Ha. revert js E. induction ks as [|k ks IHks]; intros js E; simpl; [lia|].
    inversion E as [|? ? ? ? Hk Hrest]; subst.
    inversion IH as [|? ? IHk IHrest]; subst. inversion Hks; subst.
    apply Nat.max_lub; [eapply IHk; eauto | eapply IHks; eauto].
Qed.

Lemma subtrees_NoDup_ids T X : In X (subtrees T) -> NoDup (ids T) -> NoDup (ids X).
Proof.
  revert T X. apply (subtrees_ind (fun T X => NoDup (ids T) -> NoDup (ids X))); [auto|].
  intros a i n ks k X Hk _ IH H. apply IH. rewrite ids_node in H.
  apply NoDup_cons_iff in H as [_ H]. eapply NoDup_flat_map_In; eauto.
Qed.

(** Among subordinates with distinct ids, the filter by id singles out
    one. *)
Lemma filter_aid_unique id ks X :
  NoDup (flat_map ids ks) -> In X ks -> aid X = id ->
  List.filter (fun k => Z.eqb (aid k) id) ks = [X].
Proof.
  induction ks as [|k ks IH]; simpl; [contradiction|]. intros Hnd HX Hid.
  assert (forall k', In k' ks -> In (aid k') (flat_map ids ks)) as Hin.
  { intros k' Hk'. apply in_flat_map. exists k'. split; [exact Hk' | apply aid_ids]. }
  destruct (Z.eqb (aid k) id) eqn:E.
  - apply Z.eqb_eq in E. destruct HX as [->|HX].
    + f_equal. clear IH. assert (forall k', In k' ks -> aid k' <> id) as Hno.
      { intros k' Hk' Ek'. apply (NoDup_app_disjoint _ _ id Hnd).
        - rewrite <- Hid. apply aid_ids.
        - rewrite <- Ek'. apply Hin. exact Hk'. }
      clear Hnd Hin. induction ks as [|k' ks IHks]; simpl; [reflexivity|].
      destruct (Z.eqb (aid k') id) eqn:E'.
      * apply Z.eqb_eq in E'. exfalso. apply (Hno k'); [left; reflexivity | exact E'].
      * apply IHks. intros k'' Hk''. apply Hno. right. exact Hk''.
    + exfalso. apply (NoDup_app_disjoint _ _ id Hnd).
      * rewrite <- E. apply aid_ids.
      * rewrite <- Hid. apply Hin. exact HX.
  - destruct HX as [->|HX]; [apply Z.eqb_neq in E; contradiction|].
    apply IH; [eapply NoDup_app_remove_l; exact Hnd | exact HX | exact Hid].
Qed.

Lemma tree_inv_constructor stack h c s0 j0 :
  constructor stack h c = Ok s0 -> deep_eq h c j0 -> NoDup (json_ids j0) ->
  tree_inv (json_ids j0) s0.
Proof.
  unfold constructor. destruct (clone stack h c) as [[c' h']|] eqn:E; [|discriminate].
  intros H Hj0 Hnd. inversion H; subst s0. clear H.
  apply clone_Ok in E as (j & Hj & _ & T & HT & Hr & He & HndT & _).
  apply JSON_stringify_deep_eq in Hj.
  rewrite (deep_eq_functional _ _ _ _ Hj Hj0) in He.
  exists c', T. cbn [current store]. split; [reflexivity|].
  split; [split; [exact HT | split; [exact Hr | exact HndT]]|].
  rewrite <- (ids_erase T), He. split; [exact Hnd | reflexivity].
Qed.

Lemma tree_inv_move stack employeeID supervisorID ids0 s cur e sv s1 :
  tree_inv ids0 s ->
  current s = Some cur ->
  findEmployee stack (store s) cur employeeID = Ok (Some e) ->
  findEmployee stack (store s) cur supervisorID = Ok (Some sv) ->
  ~ reach (store s) e sv ->
  move stack employeeID supervisorID s = (Ok tt, s1) ->
  tree_inv ids0 s1.
Proof.
  intros (cur' & T & Hcur' & Htree & Hndi & Hperm0) Hcur He Hsv Hnr Hm.
  assert (cur' = cur) as -> by congruence. pose proof Htree as (HT & Hr & Hnd).
  assert (height T <= stack) as Hh.
  { pose proof Hm as Hm'. apply move_cases in Hm' as [(x & h4 & Hx & _)|Hm']; [discriminate|].
    destruct Hm' as (c & e' & sv' & ud & h4 & cs & _ & Hc & _ & _ & Hud & _).
    apply createUndoData_cases in Hud as (h4' & _ & _ & Hud).
    destruct (Hud ud eq_refl) as (c' & _ & _ & _ & _ & j & _ & Hc' & _ & _ & _ & Hj & _).
    assert (c' = cur) as -> by congruence. rewrite <- Hr in Hj.
    eapply JSON_stringify_height; eauto. }
  pose proof He as He'. pose proof Hsv as Hsv'. rewrite <- Hr in He', Hsv'.
  rewrite (findEmployee_layout _ _ _ _ HT Hh) in He'.
  rewrite (findEmployee_layout _ _ _ _ HT Hh) in Hsv'.
  inversion He' as [Hpe]. inversion Hsv' as [Hpsv]. clear He' Hsv'.
  assert (e <> cur) as Hne.
  { intros ->. apply Hnr. eapply findEmployee_reach. exact Hsv. }
  destruct (move_tree stack employeeID supervisorID s cur T e sv Hcur Htree Hh Hpe Hne Hpsv)
    as (s' & P & X & Hm' & Hcur1 & HP & HX & HXr & HXi & _ & Hnd1 & Hdis & Hperm & _ & Hgraft).
  assert (s' = s1) as -> by congruence.
  pose proof (subtrees_layout _ _ _ HP HT) as HPl.
  assert (layout (store s) X) as HXl.
  { destruct P. apply layout_inv in HPl as [_ Hks]. rewrite Forall_forall in Hks. auto. }
  assert (List.filter (fun k => Z.eqb (aid k) employeeID) (akids P) = [X]) as Hone.
  { apply filter_aid_unique; [|exact HX | exact HXi].
    pose proof (subtrees_NoDup_ids _ _ HP Hndi) as H. destruct P.
    rewrite ids_node in H. apply NoDup_cons_iff in H. apply H. }
  rewrite Hone in Hperm. simpl in Hperm. rewrite app_nil_r in Hperm.
  set (T1 := modify (aroot P) (keep_other employeeID) T) in *.
  assert (In sv (addrs T1)) as Hsv1.
  { assert (In sv (addrs T)) as Hin by (eapply find_pre_In; eauto).
    rewrite addrs_labels in Hin.
    apply (Permutation_in _ (Permutation_map fst Hperm)) in Hin.
    rewrite map_app, <- !addrs_labels in Hin. apply in_app_or in Hin as [Hin|Hin]; [exact Hin|].
    exfalso. apply Hnr. rewrite <- HXr. apply layout_reach; assumption. }
  destruct (addrs_subtree _ _ Hsv1) as (S' & HS' & HS'r).
  assert (labels T1 ++ labels X ≡ₚ labels (modify sv (fun ks => ks ++ [X]) T1)) as Hperm2.
  { rewrite <- (app_nil_r (labels (modify _ _ _))).
    apply (labels_modify _ _ _ S'); [exact Hnd1 | exact HS' | exact HS'r|].
    rewrite flat_map_app. simpl. rewrite !app_nil_r. reflexivity. }
  assert (labels T ≡ₚ labels (modify sv (fun ks => ks ++ [X]) T1)) as Hall
    by (rewrite Hperm; exact Hperm2).
  exists cur, (modify sv (fun ks => ks ++ [X]) T1).
  split; [exact Hcur1|]. split; [split; [exact (Hgraft Hsv1) | split]|].
  - unfold T1. rewrite !modify_aroot. exact Hr.
  - rewrite addrs_labels. eapply Permutation_NoDup; [apply Permutation_map; exact Hall|].
    rewrite <- addrs_labels. exact Hnd.
  - assert (ids T ≡ₚ ids (modify sv (fun ks => ks ++ [X]) T1)) as Hids
      by (apply Permutation_map; exact Hall).
    split; [eapply Permutation_NoDup; eauto|].
    rewrite <- Hids. exact Hperm0.
Qed.

(** Ids are lost on the chain CEO - A - B: both ids of [move(2, 3)]
    resolve and the call returns, and the ids 2 and 3 are gone from the
    live tree. *)
Lemma move_loses_ids :
  NoDup (json_ids chain_tree) /\
  findEmployee 10 (store chain_app) 5 2 = Ok (Some 4) /\
  findEmployee 10 (store chain_app) 5 3 = Ok (Some 3) /\
  current chain_app = Some 5 /\
  move 10 2 3 chain_app = (Ok tt, chain_moved) /\
  live 10 chain_moved = Ok (JEmployee 1 "CEO" []) /\
  count_occ Z.eq_dec (json_ids (JEmployee 1 "CEO" [])) 2%Z = 0.
Proof.
  split. { vm_compute. repeat constructor; simpl; intuition discriminate. }
  repeat (split; [vm_compute; reflexivity|]). reflexivity.
Qed.

(** C6, amended.  From a tree in which every id is unique, after any
    sequence of moves that return and in which the new supervisor is
    neither the employee moved nor below it, the live structure is a tree
    in which every id of the initial tree appears exactly once. *)
Theorem proper_moves_keep_ids stack h c s0 j0 ms s :
  constructor stack h c = Ok s0 ->
  deep_eq h c j0 ->
  NoDup (json_ids j0) ->
  proper_moves stack s0 ms s ->
  exists cur j,
    current s = Some cur /\ deep_eq (store s) cur j /\
    NoDup (json_ids j) /\ json_ids j ≡ₚ json_ids j0.
Proof.
  intros Hc Hj0 Hnd Hms.
  assert (tree_inv (json_ids j0) s) as (cur & T & Hcur & (HT & Hr & _) & Hndi & Hperm).
  { pose proof (tree_inv_constructor _ _ _ _ _ Hc Hj0 Hnd) as Hinv. clear Hc.
    induction Hms as [s|s cur e sv eid sid ms s1 s2 Hcur He Hsv Hnr Hm _ IH]; [exact Hinv|].
    apply IH. exact (tree_inv_move _ _ _ _ _ _ _ _ _ Hinv Hcur He Hsv Hnr Hm). }
  exists cur, (erase T). split; [exact Hcur|]. split; [exists T; auto|].
  rewrite ids_erase. auto.
Qed.

Lemma ex_proper_moves : proper_moves 10 ex_app [(2%Z, 3%Z)] ex_moved.
Proof.
  apply (proper_cons 10 ex_app 5 3 4 2 3 [] ex_moved ex_moved).
  - reflexivity.
  - reflexivity.
  - reflexivity.
  - intros H.
    assert (layout (store ex_app) (ANode 3 2 "A" [])) as Hl by (repeat constructor).
    pose proof (reach_layout _ _ _ H _ Hl eq_refl) as Hin.
    simpl in Hin. intuition discriminate.
  - vm_compute. reflexivity.
  - constructor.
Qed.

Lemma proper_moves_keep_ids_witness :
  exists cur j,
    current ex_moved = Some cur /\ deep_eq (store ex_moved) cur j /\
    NoDup (json_ids j) /\ json_ids j ≡ₚ json_ids ex_tree.
Proof.
  apply (proper_moves_keep_ids 10 ex_heap ex_ceo ex_app ex_tree [(2%Z, 3%Z)] ex_moved).
  - reflexivity.
  - exact ex_heap_deep_eq.
  - vm_compute. repeat constructor; simpl; intuition discriminate.
  - exact ex_proper_moves.
Defined.

(** * Further properties of the code *)

(** ** The employee search *)

Lemma spec_findEmployee_node id a i n ks :
  spec_findEmployee id (ANode a i n ks) =
  if Z.eqb i id then Some a else first_some (spec_findEmployee id) ks.
Proof.
  unfold spec_findEmployee. simpl. destruct (Z.eqb i id); [reflexivity|].
  apply find_flat_map.
Qed.

Lemma find_pre_spec id T : find_pre id T = spec_findEmployee id T.
Proof.
  induction T as [a i n ks IH] using atree_ind'.
  rewrite spec_findEmployee_node. simpl.
  destruct (decide (i = id)) as [E|E].
  - apply Z.eqb_eq in E. rewrite E. reflexivity.
  - apply Z.eqb_neq in E. rewrite E.
    induction ks as [|k ks IHks]; simpl; [reflexivity|].
    inversion IH as [|? ? Hk Hks]; subst. rewrite Hk, (IHks Hks). reflexivity.
Qed.

Lemma spec_findEmployee_None id T :
  spec_findEmployee id T = None <-> ~ In id (ids T).
Proof.
  unfold spec_findEmployee. rewrite ids_subtrees. generalize (subtrees T). intros l.
  induction l as [|X l IH]; simpl; [tauto|].
  destruct (Z.eqb (aid X) id) eqn:E; simpl.
  - apply Z.eqb_eq in E. split; [discriminate | tauto].
  - apply Z.eqb_neq in E. rewrite IH. tauto.
Qed.

(** X1.  On a tree of objects within the stack's reach, whether or not its
    ids are unique, [findEmployee] returns the first node in pre-order
    that carries the id, and [null] exactly when no node carries it. *)
Theorem findEmployee_first stack h T id :
  layout h T ->
  height T <= stack ->
  findEmployee stack h (aroot T) id = Ok (spec_findEmployee id T) /\
  (findEmployee stack h (aroot T) id = Ok None <-> ~ In id (ids T)).
Proof.
  intros HT Hh. rewrite (findEmployee_layout h id T stack HT Hh), find_pre_spec.
  split; [reflexivity|]. rewrite <- spec_findEmployee_None.
  split; [intros H; inversion H; reflexivity | intros ->; reflexivity].
Qed.

Lemma findEmployee_first_witness :
  findEmployee 10 dup_heap (aroot dup_tree) 4 = Ok (spec_findEmployee 4 dup_tree) /\
  (findEmployee 10 dup_heap (aroot dup_tree) 4 = Ok None <-> ~ In 4%Z (ids dup_tree)).
Proof.
  apply (findEmployee_first 10 dup_heap dup_tree 4).
  - repeat constructor.
  - vm_compute. lia.
Defined.

(** ** The two searches together *)

(** X2.  For an id other than the root's, on any tree of objects within
    the stack's reach: when [findEmployee] finds a node,
    [findEmployeeSupervisor] returns an object that has that very node
    among its subordinates; when the one finds nothing, so does the
    other. *)
Theorem supervisor_of_employee_found stack h T id :
  layout h T ->
  height T <= stack ->
  aid T <> id ->
  match findEmployee stack h (aroot T) id with
  | Ok (Some e) =>
      exists p np, findEmployeeSupervisor stack h (aroot T) id = Ok (Some p) /\
                   h !! p = Some np /\ In e (subordinates np)
  | Ok None => findEmployeeSupervisor stack h (aroot T) id = Ok None
  | Throw _ => False
  end.
Proof.
  intros HT Hh Hne.
  rewrite (findEmployee_layout h id T stack HT Hh).
  rewrite (findEmployeeSupervisor_layout h id T stack HT Hh).
  pose proof (find_pre_sup id T Hne) as H. unfold same_stop in H.
  destruct (find_pre id T) as [e|]; [|rewrite H; reflexivity].
  destruct H as (P & X & -> & HP & HX & HXr & _).
  exists (aroot P), (mkEmployee (aid P) (aname P) (map aroot (akids P))).
  split; [reflexivity|]. split.
  - apply layout_root. eapply subtrees_layout; eauto.
  - simpl. rewrite <- HXr. apply in_map. exact HX.
Qed.

Lemma supervisor_of_employee_found_witness :
  match findEmployee 10 dup_heap (aroot dup_tree) 4 with
  | Ok (Some e) =>
      exists p np, findEmployeeSupervisor 10 dup_heap (aroot dup_tree) 4 = Ok (Some p) /\
                   dup_heap !! p = Some np /\ In e (subordinates np)
  | Ok None => findEmployeeSupervisor 10 dup_heap (aroot dup_tree) 4 = Ok None
  | Throw _ => False
  end.
Proof.
  apply (supervisor_of_employee_found 10 dup_heap dup_tree 4).
  - repeat constructor.
  - vm_compute. lia.
  - discriminate.
Defined.

(** ** The constructor *)

(** X3.  When the constructor returns, the live structure is a tree of
    objects created for it -- none of them is an object of the caller,
    and no object occurs twice in it even where the caller's structure
    shares objects -- that reads as the caller's structure does; the
    caller's objects are as they were, [ceo] is the reference given, and
    both stacks are empty. *)
Theorem constructor_copies stack h c s0 :
  constructor stack h c = Ok s0 ->
  exists j cur T,
    deep_eq h c j /\
    current s0 = Some cur /\ is_tree (store s0) cur T /\ erase T = j /\
    (forall x, In x (addrs T) -> length h <= x) /\
    (forall a e, h !! a = Some e -> store s0 !! a = Some e) /\
    ceo s0 = c /\ history s0 = [] /\ redoStack s0 = [].
Proof.
  unfold constructor. destruct (clone stack h c) as [[c' h']|] eqn:E; [|discriminate].
  intros H. inversion H; subst s0. clear H.
  apply clone_Ok in E as (j & Hj & Hext & T & HT & Hr & He & Hnd & Hb).
  exists j, c', T. cbn [store ceo current history redoStack].
  split; [eapply JSON_stringify_deep_eq; exact Hj|]. split; [reflexivity|].
  split; [split; [exact HT | split; [exact Hr | exact Hnd]]|]. split; [exact He|].
  split; [intros x Hx; apply Hb in Hx; lia|].
  split; [intros a e Ha; eapply extends_lookup; eauto|]. auto.
Qed.

Lemma constructor_copies_witness :
  exists j cur T,
    deep_eq shared_heap 1 j /\
    current (state_of (constructor 10 shared_heap 1)) = Some cur /\
    is_tree (store (state_of (constructor 10 shared_heap 1))) cur T /\ erase T = j /\
    (forall x, In x (addrs T) -> length shared_heap <= x) /\
    (forall a e, shared_heap !! a = Some e ->
                 store (state_of (constructor 10 shared_heap 1)) !! a = Some e) /\
    ceo (state_of (constructor 10 shared_heap 1)) = 1 /\
    history (state_of (constructor 10 shared_heap 1)) = [] /\
    redoStack (state_of (constructor 10 shared_heap 1)) = [].
Proof.
  apply (constructor_copies 10 shared_heap 1 (state_of (constructor 10 shared_heap 1))).
  reflexivity.
Defined.

(** ** The routes *)

(** X4.  [POST /move] answers 200 with the success message when [move]
    returns, the call having pushed one record tagged "move" and left
    [current], [ceo] and the redo stack alone; it answers 400 with the
    message of what [move] threw when [move] throws, and then the chart
    is as before: the same [current], the same two stacks, and every
    object with the fields it had.  Either way the instance goes on in
    the state [move] left. *)
Theorem post_move_response text stack employeeID supervisorID s r s' :
  post_move text stack employeeID supervisorID s = (r, s') ->
  (move stack employeeID supervisorID s = (Ok tt, s') /\
   r = mkResponse 200 (message "Employee moved successfully") /\
   (exists ud, history s' = push (history s) (mkHistory "move" ud)) /\
   current s' = current s /\ ceo s' = ceo s /\ redoStack s' = redoStack s) \/
  (exists x,
     move stack employeeID supervisorID s = (Throw x, s') /\
     r = mkResponse 400 (error (message_of text x)) /\
     current s' = current s /\ history s' = history s /\
     ceo s' = ceo s /\ redoStack s' = redoStack s /\
     (forall a n, store s !! a = Some n -> store s' !! a = Some n) /\
     (forall c j, deep_eq (store s) c j -> deep_eq (store s') c j)).
Proof.
  unfold post_move. destruct (move stack employeeID supervisorID s) as [o s1] eqn:Hm.
  pose proof Hm as Hcases.
  apply move_cases in Hcases as [(x & h4 & -> & Hext & Hs1)|Hcases].
  - intros H. inversion H; subst r s'. right. exists x.
    split; [reflexivity|]. split; [reflexivity|].
    rewrite Hs1. unfold set_store. cbn [store ceo current history redoStack].
    repeat (split; [reflexivity|]). split.
    + intros a n Ha. eapply extends_lookup; eauto.
    + intros c j (T & HT & HTr & HTe). exists T.
      split; [eapply extends_layout; eauto | auto].
  - destruct Hcases as (cur & e & sv & ud & h4 & cs & -> & _ & _ & _ & _ & _ & _ & Hs1).
    intros H. inversion H; subst r s'. left.
    split; [reflexivity|]. split; [reflexivity|].
    rewrite Hs1. cbn [store ceo current history redoStack].
    split; [eauto | auto].
Qed.

Lemma post_move_response_witness :
  (
   (move 10 2 3 ex_app = (Ok tt, ex_moved) /\
    (mkResponse 200 (message "Employee moved successfully")) = mkResponse 200 (message "Employee moved successfully") /\
    (exists ud, history ex_moved = push (history ex_app) (mkHistory "move" ud)) /\
    current ex_moved = current ex_app /\ ceo ex_moved = ceo ex_app /\
    redoStack ex_moved = redoStack ex_app) \/
   (exists x,
      move 10 2 3 ex_app = (Throw x, ex_moved) /\
      (mkResponse 200 (message "Employee moved successfully")) = mkResponse 400 (error (message_of (fun _ => "") x)) /\
      current ex_moved = current ex_app /\ history ex_moved = history ex_app /\
      ceo ex_moved = ceo ex_app /\ redoStack ex_moved = redoStack ex_app /\
      (forall a n, store ex_app !! a = Some n -> store ex_moved !! a = Some n) /\
      (forall c j, deep_eq (store ex_app) c j -> deep_eq (store ex_moved) c j))) /\
  (
   (move 10 2 9 ex_app = (Ok tt, ex_app) /\
    (mkResponse 400 (error "Employee or Supervisor not found")) = mkResponse 200 (message "Employee moved successfully") /\
    (exists ud, history ex_app = push (history ex_app) (mkHistory "move" ud)) /\
    current ex_app = current ex_app /\ ceo ex_app = ceo ex_app /\
    redoStack ex_app = redoStack ex_app) \/
   (exists x,
      move 10 2 9 ex_app = (Throw x, ex_app) /\
      (mkResponse 400 (error "Employee or Supervisor not found")) = mkResponse 400 (error (message_of (fun _ => "") x)) /\
      current ex_app = current ex_app /\ history ex_app = history ex_app /\
      ceo ex_app = ceo ex_app /\ redoStack ex_app = redoStack ex_app /\
      (forall a n, store ex_app !! a = Some n -> store ex_app !! a = Some n) /\
      (forall c j, deep_eq (store ex_app) c j -> deep_eq (store ex_app) c j))).
Proof.
  split.
  - apply (post_move_response (fun _ => "") 10 2 3 ex_app).
    vm_compute. reflexivity.
  - apply (post_move_response (fun _ => "") 10 2 9 ex_app).
    vm_compute. reflexivity.
Defined.

(** X5.  On every chart the instance can get into, [POST /redo] answers
    200 with its success message and changes nothing, and [POST /undo]
    answers 200 with its success message whether or not there is a record
    to undo; with none, it changes nothing. *)
Theorem post_undo_redo_always_succeed text stack h c s0 cs :
  constructor stack h c = Ok s0 ->
  post_redo text (run stack cs s0) =
    (mkResponse 200 (message "Redo successful"), run stack cs s0) /\
  fst (post_undo text (run stack cs s0)) = mkResponse 200 (message "Undo successful") /\
  (history (run stack cs s0) = [] ->
   snd (post_undo text (run stack cs s0)) = run stack cs s0).
Proof.
  intros H. apply chart_inv_constructor in H as [H _].
  pose proof (chart_inv_run stack cs _ _ _ H) as (_ & _ & _ & _ & _ & Hr).
  unfold post_redo, post_undo. rewrite (redo_empty _ Hr).
  split; [reflexivity|]. unfold undo.
  destruct (pop (history (run stack cs s0))) as [[lastAction rest]|] eqn:E.
  - destruct (String.eqb (undo_move lastAction) "move");
      (split; [reflexivity|]); intros Hh; rewrite Hh in E; discriminate.
  - split; reflexivity.
Qed.

Lemma post_undo_redo_always_succeed_witness :
  post_redo (fun _ => "") (run 10 [Move 2 3; Undo] ex_app) =
    (mkResponse 200 (message "Redo successful"), run 10 [Move 2 3; Undo] ex_app) /\
  fst (post_undo (fun _ => "") (run 10 [Move 2 3; Undo] ex_app)) =
    mkResponse 200 (message "Undo successful") /\
  (history (run 10 [Move 2 3; Undo] ex_app) = [] ->
   snd (post_undo (fun _ => "") (run 10 [Move 2 3; Undo] ex_app)) =
     run 10 [Move 2 3; Undo] ex_app).
Proof.
  apply (post_undo_redo_always_succeed (fun _ => "") 10 ex_heap ex_ceo ex_app [Move 2 3; Undo]).
  reflexivity.
Defined.

(** ** Moving an employee under the supervisor it has *)

Lemma filter_other_id_grown h new id T S1 n1 :
  layout h T -> In S1 (addrs T) -> h !! S1 = Some n1 ->
  List.filter (other_id (h ++ new) id) (subordinates n1) =
  List.filter (other_id h id) (subordinates n1).
Proof.
  intros HT HS1 Hn1. apply filter_ext_in. intros b Hb.
  destruct (addrs_subtree _ _ HS1) as (P1 & HP1 & HP1r).
  pose proof (subtrees_layout _ _ _ HP1 HT) as HP1l.
  pose proof (layout_root _ _ HP1l) as Hl. rewrite HP1r, Hn1 in Hl.
  inversion Hl; subst n1. simpl in Hb. apply in_map_iff in Hb as (k & <- & Hk).
  destruct P1 as [pa pi pn pks]. apply layout_inv in HP1l as [_ Hks].
  rewrite Forall_forall in Hks. simpl in Hk.
  eapply other_id_app. apply layout_root. apply Hks. exact Hk.
Qed.

(** What [move] does to the objects when the new supervisor is the one
    the employee has. *)
Lemma same_supervisor_nodes stack employeeID supervisorID s cur T E S1 n1 :
  current s = Some cur ->
  is_tree (store s) cur T ->
  height T <= stack ->
  findEmployee stack (store s) cur employeeID = Ok (Some E) ->
  findEmployee stack (store s) cur supervisorID = Ok (Some S1) ->
  store s !! S1 = Some n1 ->
  In E (subordinates n1) ->
  exists s',
    move stack employeeID supervisorID s = (Ok tt, s') /\
    store s' !! S1 =
      Some (mkEmployee (uniqueId n1) (name n1)
              (List.filter (other_id (store s) employeeID) (subordinates n1) ++ [E])) /\
    ~ In E (List.filter (other_id (store s) employeeID) (subordinates n1)) /\
    forall a e, a <> S1 -> store s !! a = Some e -> store s' !! a = Some e.
Proof.
  intros Hcur Htree Hh HE HS Hn1 Hin.
  pose proof Htree as (HT & Hr & Hnd). subst cur.
  rewrite (findEmployee_layout _ _ _ _ HT Hh) in HE.
  rewrite (findEmployee_layout _ _ _ _ HT Hh) in HS.
  inversion HE as [HE']. inversion HS as [HS']. clear HE HS.
  pose proof (find_pre_In _ _ _ HS') as HS1.
  destruct (move_tree_returns stack employeeID supervisorID s (aroot T) T E S1
              Hcur Htree Hh HE' HS') as (ud & h4 & Hext & Hm).
  rewrite (find_sup_of_subordinate _ _ _ _ _ _ HT Hnd HE' HS1 Hn1 Hin) in Hm.
  eexists. split; [exact Hm|]. cbn [store].
  destruct Hext as (new & -> & _).
  pose proof (lookup_lt_Some _ _ _ Hn1) as HS1lt.
  unfold attach, detach. rewrite (lookup_app_old _ new _ _ Hn1).
  rewrite (filter_other_id_grown _ new _ _ _ _ HT HS1 Hn1).
  rewrite list_lookup_insert_eq by (rewrite length_app; lia).
  cbn [uniqueId name subordinates]. unfold push.
  split; [|split].
  - apply list_lookup_insert_eq. rewrite length_insert, length_app. lia.
  - intros HinF. apply filter_In in HinF as [_ Ho].
    destruct (find_pre_subtree _ _ _ HE') as (X & HX & HXr & HXi).
    pose proof (layout_root _ _ (subtrees_layout _ _ _ HX HT)) as Hl.
    rewrite HXr in Hl. unfold other_id in Ho. rewrite Hl in Ho. simpl in Ho.
    rewrite HXi, Z.eqb_refl in Ho. discriminate.
  - intros a e Ha Hae.
    rewrite list_lookup_insert_ne by congruence.
    rewrite list_lookup_insert_ne by congruence.
    apply lookup_app_old. exact Hae.
Qed.

(** X6.  Moving an employee, whose id occurs once in the live tree,
    under the supervisor it already has is not a no-op: the call returns,
    [current] stays, and the employee is now the last of that supervisor's
    subordinates, the others keeping their places and order; no other
    object changes. *)
Theorem move_to_same_supervisor stack employeeID supervisorID s cur T E S1 n1 :
  current s = Some cur ->
  is_tree (store s) cur T ->
  height T <= stack ->
  count_occ Z.eq_dec (ids T) employeeID <= 1 ->
  findEmployee stack (store s) cur employeeID = Ok (Some E) ->
  findEmployee stack (store s) cur supervisorID = Ok (Some S1) ->
  store s !! S1 = Some n1 ->
  In E (subordinates n1) ->
  exists s' before after,
    move stack employeeID supervisorID s = (Ok tt, s') /\
    current s' = Some cur /\
    subordinates n1 = before ++ E :: after /\
    ~ In E (before ++ after) /\
    store s' !! S1 =
      Some (mkEmployee (uniqueId n1) (name n1) ((before ++ after) ++ [E])) /\
    forall a e, a <> S1 -> store s !! a = Some e -> store s' !! a = Some e.
Proof.
  intros Hcur Htree Hh Hc HE HS Hn1 Hin.
  destruct (same_supervisor_nodes stack employeeID supervisorID s cur T E S1 n1
              Hcur Htree Hh HE HS Hn1 Hin) as (s' & Hm & HS1' & _ & Hframe).
  pose proof Htree as (HT & Hr & Hnd). subst cur.
  rewrite (findEmployee_layout _ _ _ _ HT Hh) in HE.
  rewrite (findEmployee_layout _ _ _ _ HT Hh) in HS.
  inversion HE as [HE']. inversion HS as [HS'].
  pose proof (find_pre_In _ _ _ HS') as HS1.
  destruct (detach_one _ _ _ _ _ _ HT Hnd Hc HE' HS1 Hn1 Hin)
    as (before & after & Hsplit & Hf & Hout).
  exists s', before, after. split; [exact Hm|]. split.
  { apply move_cases in Hm as [(x & h4 & Hx & _)|(c & e & sv & ud & h4 & cs & _ & _ & _ & _ & _ & _ & _ & ->)];
      [discriminate | exact Hcur]. }
  split; [exact Hsplit|]. split; [exact Hout|].
  split; [rewrite <- Hf; exact HS1' | exact Hframe].
Qed.

Lemma move_to_same_supervisor_witness :
  exists s' before after,
    move 10 3 1 org_app = (Ok tt, s') /\
    current s' = Some 9 /\
    [6; 7; 8] = before ++ 7 :: after /\
    ~ In 7 (before ++ after) /\
    store s' !! 9 = Some (mkEmployee 1 "CEO" ((before ++ after) ++ [7])) /\
    forall a e, a <> 9 -> store org_app !! a = Some e -> store s' !! a = Some e.
Proof.
  apply (move_to_same_supervisor 10 3 1 org_app 9 org_live 7 9
           (mkEmployee 1 "CEO" [6; 7; 8])).
  - reflexivity.
  - exact org_live_is_tree.
  - vm_compute. lia.
  - vm_compute. lia.
  - reflexivity.
  - reflexivity.
  - reflexivity.
  - simpl. tauto.
Defined.

(** ** Moving the root *)

Lemma kid_subtree_height T X :
  In X (flat_map subtrees (akids T)) -> height X < height T.
Proof.
  intros H. apply in_flat_map in H as (k & Hk & HX).
  pose proof (subtrees_height _ _ HX). destruct T as [a i n ks]. simpl in *.
  pose proof (list_max_In height ks k Hk). lia.
Qed.

(** A structure that unfolds to a tree does not come back to its root. *)
Lemma layout_no_cycle h T : layout h T -> ~ In (aroot T) (flat_map addrs (akids T)).
Proof.
  intros HT Hin. apply in_flat_map in Hin as (k & Hk & Hin).
  destruct (addrs_subtree _ _ Hin) as (X & HX & HXr).
  assert (In X (flat_map subtrees (akids T))) as HX' by (apply in_flat_map; eauto).
  pose proof (kid_subtree_height _ _ HX') as Hlt.
  assert (X = T) as ->; [|lia].
  eapply subtrees_unique; [exact HT | | apply subtrees_self | exact HXr].
  destruct T. right. exact HX'.
Qed.

Lemma cycle_no_deep_eq h c sv n :
  reach h c sv -> h !! sv = Some n -> In c (subordinates n) ->
  ~ exists j, deep_eq h c j.
Proof.
  intros Hreach Hn Hin (j & T & HT & Hr & _).
  pose proof (reach_layout _ _ _ Hreach _ HT Hr) as Hsv.
  destruct (addrs_subtree _ _ Hsv) as (S & HS & HSr).
  pose proof (layout_root _ _ (subtrees_layout _ _ _ HS HT)) as Hl.
  rewrite HSr, Hn in Hl. inversion Hl; subst n. simpl in Hin.
  apply in_map_iff in Hin as (k & Hkr & Hk).
  pose proof (subtree_edge _ _ _ HS Hk) as Hedge.
  apply (in_map snd) in Hedge. rewrite edges_snd in Hedge. simpl in Hedge.
  apply (layout_no_cycle _ _ HT). rewrite Hr, <- Hkr. exact Hedge.
Qed.





(** ** What [move] can reach and write *)

Lemma reach_snoc h c a e b :
  reach h c a -> h !! a = Some e -> In b (subordinates e) -> reach h c b.
Proof.
  induction 1 as [a|a0 e0 b0 a He0 Hb0 _ IH]; intros He Hb.
  - eapply reach_step; [exact He | exact Hb | constructor].
  - eapply reach_step; [exact He0 | exact Hb0 | exact (IH He Hb)].
Qed.

Lemma reach_shrink h h' c :
  (forall a e', reach h c a -> h' !! a = Some e' ->
     forall b, In b (subordinates e') -> reach h c b) ->
  forall x, reach h' c x -> reach h c x.
Proof.
  intros Hs. assert (forall a x, reach h' a x -> reach h c a -> reach h c x) as H.
  { induction 1 as [a|a e b x He Hb _ IH]; intros Ha; [exact Ha|].
    apply IH. exact (Hs a e Ha He b Hb). }
  intros x Hx. apply (H c x Hx). constructor.
Qed.

Lemma detach_lookup h id cs a ea :
  h !! a = Some ea ->
  exists e5, detach h id cs !! a = Some e5 /\
             incl (subordinates e5) (subordinates ea) /\ (cs <> Some a -> e5 = ea).
Proof.
  intros Ha. unfold detach. destruct cs as [p|]; [|exists ea; auto using incl_refl].
  destruct (h !! p) as [c|] eqn:Hp; [|exists ea; auto using incl_refl].
  destruct (decide (p = a)) as [->|Hne].
  - eexists. split; [apply list_lookup_insert_eq; eapply lookup_lt_Some; exact Ha|].
    assert (c = ea) as -> by congruence. simpl. split; [|congruence].
    intros b Hb. apply filter_In in Hb. apply Hb.
  - exists ea. rewrite list_lookup_insert_ne by exact Hne. auto using incl_refl.
Qed.

Lemma attach_lookup h sv e a ea :
  h !! a = Some ea ->
  exists e', attach h sv e !! a = Some e' /\
             (forall b, In b (subordinates e') -> In b (subordinates ea) \/ b = e) /\
             (a <> sv -> e' = ea).
Proof.
  intros Ha. unfold attach. destruct (h !! sv) as [sup|] eqn:Hs; [|exists ea; auto].
  destruct (decide (sv = a)) as [->|Hne].
  - eexists. split; [apply list_lookup_insert_eq; eapply lookup_lt_Some; exact Ha|].
    assert (sup = ea) as -> by congruence. simpl. unfold push. split; [|congruence].
    intros b Hb. apply in_app_or in Hb as [Hb|[<-|[]]]; auto.
  - exists ea. rewrite list_lookup_insert_ne by exact Hne. auto.
Qed.

(** Whatever [move] ends with: nothing that was out of reach of the live
    root comes within its reach, and nothing out of its reach is written. *)
Lemma move_live_set stack employeeID supervisorID s cur n o s' :
  current s = Some cur -> closed_from n (store s) -> n <= cur < length (store s) ->
  move stack employeeID supervisorID s = (o, s') ->
  (forall x, reach (store s') cur x -> reach (store s) cur x) /\
  (forall a e, ~ reach (store s) cur a -> store s !! a = Some e -> store s' !! a = Some e).
Proof.
  intros Hcur Hcl Hb Hm.
  assert (forall a, reach (store s) cur a -> exists ea, store s !! a = Some ea) as Hvalid.
  { intros a Ha. apply lookup_lt_is_Some_2.
    apply (closed_from_reach _ _ _ _ Hcl Hb Ha). }
  apply move_cases in Hm as [(x & h4 & _ & Hext & ->)|Hm].
  - cbn [store set_store]. split.
    + apply reach_shrink. intros a e' Ha He' b Hbin.
      destruct (Hvalid a Ha) as (ea & Hea).
      rewrite (extends_lookup _ _ _ _ Hext Hea) in He'. inversion He'; subst e'.
      eapply reach_snoc; eauto.
    + intros a e _ Ha. eapply extends_lookup; eauto.
  - destruct Hm as (cur' & e & sv & ud & h4 & cs & _ & Hcur' & He & Hsv & _ & Hext & Hcs & ->).
    assert (cur' = cur) as -> by congruence. cbn [store].
    pose proof (findEmployee_reach _ _ _ _ _ He) as Hre.
    pose proof (findEmployee_reach _ _ _ _ _ Hsv) as Hrsv.
    split.
    + apply reach_shrink. intros a e' Ha He' b Hbin.
      destruct (Hvalid a Ha) as (ea & Hea).
      destruct (detach_lookup h4 employeeID cs a ea (extends_lookup _ _ _ _ Hext Hea))
        as (e5 & He5 & Hincl & _).
      destruct (attach_lookup _ sv e a e5 He5) as (e'' & He'' & Hsub & _).
      rewrite He'' in He'. inversion He'; subst e''.
      destruct (Hsub b Hbin) as [Hb5| ->]; [|exact Hre].
      eapply reach_snoc; [exact Ha | exact Hea | apply Hincl; exact Hb5].
    + intros a ea Hna Hea.
      destruct (detach_lookup h4 employeeID cs a ea (extends_lookup _ _ _ _ Hext Hea))
        as (e5 & He5 & _ & Hsame).
      destruct (attach_lookup _ sv e a e5 He5) as (e'' & He'' & _ & Hsame').
      rewrite He''. f_equal. rewrite Hsame', Hsame; [reflexivity | | ].
      * intros ->. apply Hna.
        destruct (findEmployeeSupervisor_sub _ _ _ _ _ Hcs) as [Hr _]. exact Hr.
      * intros ->. apply Hna. exact Hrsv.
Qed.

(** X8.  On every chart the instance can get into, a [move], whether it
    returns or throws, brings no object within reach of the live root
    that was not within its reach, and writes to no object out of its
    reach: the snapshots and the caller's objects keep their fields. *)
Theorem move_stays_in_live_tree stack h c s0 cs cur employeeID supervisorID o s' :
  constructor stack h c = Ok s0 ->
  current (run stack cs s0) = Some cur ->
  move stack employeeID supervisorID (run stack cs s0) = (o, s') ->
  (forall x, reach (store s') cur x -> reach (store (run stack cs s0)) cur x) /\
  (forall a e, ~ reach (store (run stack cs s0)) cur a ->
               store (run stack cs s0) !! a = Some e -> store s' !! a = Some e).
Proof.
  intros H Hcur Hm. apply chart_inv_constructor in H as [H _].
  pose proof (chart_inv_run stack cs _ _ _ H) as (_ & Hcl & _ & (c' & Hc' & Hb) & _).
  assert (c' = cur) as -> by congruence.
  eapply move_live_set; eauto.
Qed.

Lemma move_stays_in_live_tree_witness :
  (forall x, reach (store ex_moved) 5 x -> reach (store (run 10 [] ex_app)) 5 x) /\
  (forall a e, ~ reach (store (run 10 [] ex_app)) 5 a ->
               store (run 10 [] ex_app) !! a = Some e -> store ex_moved !! a = Some e).
Proof.
  apply (move_stays_in_live_tree 10 ex_heap ex_ceo ex_app [] 5 2 3 (Ok tt) ex_moved).
  - reflexivity.
  - reflexivity.
  - vm_compute. reflexivity.
Defined.

(** ** Undoing several moves *)

Lemma run_app stack cs1 cs2 s : run stack (cs1 ++ cs2) s = run stack cs2 (run stack cs1 s).
Proof. revert s. induction cs1 as [|c cs1 IH]; intros s; simpl; [reflexivity | apply IH]. Qed.

Lemma repeat_snoc {A} (x : A) n : repeat x (S n) = repeat x n ++ [x].
Proof. induction n as [|n IH]; simpl; [reflexivity|]. f_equal. exact IH. Qed.

Lemma layout_frame h h' T :
  (forall a e, In a (addrs T) -> h !! a = Some e -> h' !! a = Some e) ->
  layout h T -> layout h' T.
Proof.
  induction T as [a i n ks IH] using atree_ind'. intros Hf HT.
  apply layout_inv in HT as [Ha Hks]. constructor.
  - apply Hf; [left; reflexivity | exact Ha].
  - rewrite Forall_forall in *. intros k Hk. apply IH; [exact Hk | | apply Hks; exact Hk].
    intros x e Hx. apply Hf. right. apply in_flat_map. eauto.
Qed.

(** The record a returning [move] pushes: its first snapshot is a fresh
    copy of the live structure from before the move, still intact after
    it. *)
Lemma move_snapshot stack employeeID supervisorID s s' cur :
  current s = Some cur ->
  move stack employeeID supervisorID s = (Ok tt, s') ->
  exists c0 rest T0 j0,
    history s' = push (history s) (mkHistory "move" (c0 :: rest)) /\
    current s' = Some cur /\ ceo s' = ceo s /\ redoStack s' = redoStack s /\
    deep_eq (store s) cur j0 /\
    layout (store s') T0 /\ aroot T0 = c0 /\ erase T0 = j0 /\
    forall x, In x (addrs T0) -> length (store s) <= x.
Proof.
  intros Hc Hm. apply move_cases in Hm as [(x & h4 & Hx & _)|Hm]; [discriminate|].
  destruct Hm as (cur' & e & sv & ud & h4 & cs & _ & Hcur & He & Hsv & Hud & Hext & Hcs & ->).
  assert (cur' = cur) as -> by congruence.
  apply createUndoData_cases in Hud as (h4' & _ & Hh4 & Hud).
  assert (h4' = h4) as -> by (destruct s; inversion Hh4; reflexivity).
  destruct (Hud ud eq_refl)
    as (cur' & ee & cs' & c0 & rest & j & T & Hcur' & _ & _ & -> & Hj & HT & Hr & Hej & Hb & _).
  assert (cur' = cur) as -> by congruence.
  exists c0, rest, T, j. cbn [store ceo current history redoStack].
  split; [reflexivity|]. split; [exact Hc|]. split; [reflexivity|]. split; [reflexivity|].
  split; [eapply JSON_stringify_deep_eq; exact Hj|].
  split; [|split; [exact Hr | split; [exact Hej | intros x Hx; apply Hb in Hx; lia]]].
  apply layout_attach; [|apply layout_detach; [|exact HT]].
  - intros Hin. apply Hb in Hin.
    destruct (findEmployee_id _ _ _ _ _ Hsv) as (sup & Hsup & _).
    apply lookup_lt_Some in Hsup. lia.
  - intros p -> Hin. apply Hb in Hin.
    destruct (findEmployeeSupervisor_sub _ _ _ _ _ Hcs) as (_ & c1 & _ & _ & Hp & _).
    apply lookup_lt_Some in Hp. lia.
Qed.

Lemma moves_ok_unwind stack h0 c0 : forall s1 ms s2,
  moves_ok stack s1 ms s2 ->
  forall cur, current s1 = Some cur -> chart_inv h0 c0 s1 ->
  chart_inv h0 c0 s2 /\
  current s2 = Some cur /\
  (forall x, reach (store s2) cur x -> reach (store s1) cur x) /\
  (forall a e, ~ reach (store s1) cur a -> store s1 !! a = Some e -> store s2 !! a = Some e) /\
  store (run stack (repeat Undo (length ms)) s2) = store s2 /\
  history (run stack (repeat Undo (length ms)) s2) = history s1 /\
  ceo (run stack (repeat Undo (length ms)) s2) = ceo s1 /\
  redoStack (run stack (repeat Undo (length ms)) s2) = redoStack s1 /\
  forall j, deep_eq (store s1) cur j ->
    exists c', current (run stack (repeat Undo (length ms)) s2) = Some c' /\
               deep_eq (store (run stack (repeat Undo (length ms)) s2)) c' j.
Proof.
  induction 1 as [s|s eid sid ms s1 s2 Hm _ IH]; intros cur Hcur Hinv.
  - simpl. repeat (split; [auto|]). intros j Hj. eauto.
  - pose proof (chart_inv_move stack eid sid _ _ _ Hinv) as Hinv1. rewrite Hm in Hinv1.
    cbn [snd] in Hinv1.
    destruct (move_snapshot _ _ _ _ _ _ Hcur Hm)
      as (u0 & rest & T0 & j0 & Hh1 & Hcur1 & Hceo1 & Hredo1 & Hj0 & HT0 & Hr0 & He0 & Hfresh).
    pose proof Hinv as (_ & Hcl & _ & (c' & Hc' & Hb) & _).
    assert (c' = cur) as -> by congruence.
    destruct (move_live_set _ _ _ _ _ _ _ _ Hcur Hcl Hb Hm) as [Hshrink1 Hframe1].
    destruct (IH cur Hcur1 Hinv1)
      as (Hinv2 & Hcur2 & Hshrink2 & Hframe2 & Hst & Hhi & Hce & Hre & _).
    split; [exact Hinv2|]. split; [exact Hcur2|].
    split; [intros x Hx; apply Hshrink1, Hshrink2; exact Hx|].
    split.
    { intros a e Hna Hae. apply Hframe2; [|apply Hframe1; assumption].
      intros Hr1. apply Hna. apply Hshrink1. exact Hr1. }
    simpl length. rewrite repeat_snoc, run_app.
    set (s3 := run stack (repeat Undo (length ms)) s2) in *.
    assert (layout (store s3) T0) as HT3.
    { rewrite Hst. eapply layout_frame; [|exact HT0].
      intros a e Ha Hae. apply Hframe2; [|exact Hae].
      intros Hr1. apply Hshrink1 in Hr1.
      pose proof (closed_from_reach _ _ _ _ Hcl Hb Hr1). apply Hfresh in Ha. lia. }
    simpl run. unfold undo. rewrite Hhi, Hh1, pop_push. cbn [undo_move undoData].
    simpl String.eqb. cbv iota.
    unfold set_current, set_history. cbn [snd store ceo current history redoStack].
    split; [exact Hst|]. split; [reflexivity|]. split; [congruence|]. split; [congruence|].
    intros j Hj. exists u0. split; [reflexivity|].
    rewrite (deep_eq_functional _ _ _ _ Hj Hj0). exists T0. auto.
Qed.

(** X9.  Undo is last-in-first-out over any depth: from any chart the
    instance can get into, after moves that all return, as many undos
    bring back a live structure deep-equal to the one from before the
    first of them, and the undo stack, [ceo] and the redo stack from
    before it. *)
Theorem undo_unwinds stack h c s0 cs ms s2 cur j :
  constructor stack h c = Ok s0 ->
  moves_ok stack (run stack cs s0) ms s2 ->
  current (run stack cs s0) = Some cur ->
  deep_eq (store (run stack cs s0)) cur j ->
  history (run stack (repeat Undo (length ms)) s2) = history (run stack cs s0) /\
  ceo (run stack (repeat Undo (length ms)) s2) = ceo (run stack cs s0) /\
  redoStack (run stack (repeat Undo (length ms)) s2) = redoStack (run stack cs s0) /\
  exists c', current (run stack (repeat Undo (length ms)) s2) = Some c' /\
             deep_eq (store (run stack (repeat Undo (length ms)) s2)) c' j.
Proof.
  intros H Hms Hcur Hj. apply chart_inv_constructor in H as [H _].
  pose proof (chart_inv_run stack cs _ _ _ H) as Hinv.
  destruct (moves_ok_unwind stack h c _ _ _ Hms cur Hcur Hinv)
    as (_ & _ & _ & _ & _ & Hh & Hc & Hr & Hd).
  auto.
Qed.

Lemma ex_two_moves :
  moves_ok 10 (run 10 [] ex_app) [(2%Z, 3%Z); (3%Z, 2%Z)]
    (run 10 [Move 2 3; Move 3 2] ex_app).
Proof.
  eapply moves_cons; [vm_compute; reflexivity|].
  eapply moves_cons; [vm_compute; reflexivity|].
  apply moves_nil.
Qed.

Lemma undo_unwinds_witness :
  history (run 10 (repeat Undo 2) (run 10 [Move 2 3; Move 3 2] ex_app)) =
    history (run 10 [] ex_app) /\
  ceo (run 10 (repeat Undo 2) (run 10 [Move 2 3; Move 3 2] ex_app)) =
    ceo (run 10 [] ex_app) /\
  redoStack (run 10 (repeat Undo 2) (run 10 [Move 2 3; Move 3 2] ex_app)) =
    redoStack (run 10 [] ex_app) /\
  exists c', current (run 10 (repeat Undo 2) (run 10 [Move 2 3; Move 3 2] ex_app)) = Some c' /\
             deep_eq (store (run 10 (repeat Undo 2) (run 10 [Move 2 3; Move 3 2] ex_app)))
                     c' ex_tree.
Proof.
  apply (undo_unwinds 10 ex_heap ex_ceo ex_app [] [(2%Z, 3%Z); (3%Z, 2%Z)]
           (run 10 [Move 2 3; Move 3 2] ex_app) 5 ex_tree).
  - reflexivity.
  - exact ex_two_moves.
  - reflexivity.
  - apply (JSON_stringify_deep_eq 10 []). reflexivity.
Defined.

(** ** The snapshots of [createUndoData] *)

Lemma deep_eq_extends h h' a j : extends h h' -> deep_eq h a j -> deep_eq h' a j.
Proof.
  intros Hext (T & HT & Hr & He). exists T. split; [eapply extends_layout; eauto | auto].
Qed.

Lemma clone_of_subtree stack h0 h T X :
  layout h0 T -> NoDup (addrs T) -> height T <= stack ->
  In X (subtrees T) -> extends h0 h ->
  exists a' h', clone stack h (aroot X) = Ok (a', h') /\ extends h h' /\
                deep_eq h' a' (erase X) /\ length h <= a'.
Proof.
  intros HT Hnd Hh HX Hext.
  destruct (clone_tree stack h X) as (a' & h' & Hc & Hext' & T' & HT' & Hr' & He' & _ & Hb).
  - eapply extends_layout; [exact Hext|]. eapply subtrees_layout; eauto.
  - eapply subtrees_NoDup; eauto.
  - pose proof (subtrees_height _ _ HX). lia.
  - exists a', h'. split; [exact Hc|]. split; [exact Hext'|]. split; [exists T'; auto|].
    apply Hb. rewrite <- Hr'. apply aroot_addrs.
Qed.

(** X10.  On a live tree within the stack's reach, [createUndoData] for
    two of its nodes returns fresh deep copies taken before anything is
    written: of the live tree, then of the supervisor that
    [findEmployeeSupervisor] returns for the employee's id if it returns
    one, then of the employee, then of the new supervisor -- four
    snapshots or three, so that only the first has a fixed meaning by
    position.  Nothing but the store changes, and no object in it. *)
Theorem createUndoData_snapshots stack s cur T X S :
  current s = Some cur ->
  is_tree (store s) cur T ->
  height T <= stack ->
  In X (subtrees T) ->
  In S (subtrees T) ->
  exists ud s' cs,
    createUndoData stack (aroot X) (aroot S) s = (Ok ud, s') /\
    current s' = current s /\ history s' = history s /\
    ceo s' = ceo s /\ redoStack s' = redoStack s /\
    (forall a n, store s !! a = Some n -> store s' !! a = Some n) /\
    Forall (fun c => length (store s) <= c) ud /\
    findEmployeeSupervisor stack (store s) cur (aid X) = Ok cs /\
    match cs with
    | Some p =>
        exists P c0 c1 c2 c3,
          In P (subtrees T) /\ aroot P = p /\ ud = [c0; c1; c2; c3] /\
          deep_eq (store s') c0 (erase T) /\ deep_eq (store s') c1 (erase P) /\
          deep_eq (store s') c2 (erase X) /\ deep_eq (store s') c3 (erase S)
    | None =>
        exists c0 c2 c3,
          ud = [c0; c2; c3] /\
          deep_eq (store s') c0 (erase T) /\
          deep_eq (store s') c2 (erase X) /\ deep_eq (store s') c3 (erase S)
    end.
Proof.
  intros Hcur (HT & Hr & Hnd) Hh HX HS. rewrite createUndoData_eq, Hcur.
  rewrite (layout_root _ _ (subtrees_layout _ _ _ HX HT)). cbn [uniqueId]. subst cur.
  rewrite (findEmployeeSupervisor_layout _ _ _ _ HT Hh).
  destruct (clone_of_subtree stack _ _ T T HT Hnd Hh (subtrees_self T) (extends_refl _))
    as (c0 & h1 & -> & Hext1 & Hd0 & Hb0).
  pose proof (extends_length _ _ Hext1) as Hl1.
  destruct (find_sup (aid X) T) as [p|] eqn:Hp.
  - destruct (addrs_subtree _ _ (find_sup_In _ _ _ _ HT Hp)) as (P & HP & HPr).
    destruct (clone_of_subtree stack _ h1 T P HT Hnd Hh HP Hext1)
      as (c1 & h2 & Hc1 & Hext2 & Hd1 & Hb1).
    rewrite HPr in Hc1. rewrite Hc1.
    pose proof (extends_trans _ _ _ Hext1 Hext2) as Hext12.
    pose proof (extends_length _ _ Hext2) as Hl2.
    destruct (clone_of_subtree stack _ h2 T X HT Hnd Hh HX Hext12)
      as (c2 & h3 & -> & Hext3 & Hd2 & Hb2).
    pose proof (extends_trans _ _ _ Hext12 Hext3) as Hext123.
    pose proof (extends_length _ _ Hext3) as Hl3.
    destruct (clone_of_subtree stack _ h3 T S HT Hnd Hh HS Hext123)
      as (c3 & h4 & -> & Hext4 & Hd3 & Hb3).
    exists [c0; c1; c2; c3], (set_store h4 s), (Some p).
    unfold set_store. cbn [store ceo current history redoStack].
    split; [reflexivity|]. do 4 (split; [first [reflexivity | exact Hcur]|]).
    split; [intros a n Ha; eapply extends_lookup; [|exact Ha];
            eapply extends_trans; eauto|].
    split; [repeat constructor; lia|]. split; [reflexivity|].
    exists P, c0, c1, c2, c3. split; [exact HP|]. split; [exact HPr|]. split; [reflexivity|].
    split; [eapply deep_eq_extends; [|exact Hd0];
            eapply extends_trans; [exact Hext2|]; eapply extends_trans; eauto|].
    split; [eapply deep_eq_extends; [|exact Hd1]; eapply extends_trans; eauto|].
    split; [eapply deep_eq_extends; eauto | exact Hd3].
  - destruct (clone_of_subtree stack _ h1 T X HT Hnd Hh HX Hext1)
      as (c2 & h3 & -> & Hext3 & Hd2 & Hb2).
    pose proof (extends_trans _ _ _ Hext1 Hext3) as Hext13.
    pose proof (extends_length _ _ Hext3) as Hl3.
    destruct (clone_of_subtree stack _ h3 T S HT Hnd Hh HS Hext13)
      as (c3 & h4 & -> & Hext4 & Hd3 & Hb3).
    exists [c0; c2; c3], (set_store h4 s), None.
    unfold set_store. cbn [store ceo current history redoStack].
    split; [reflexivity|]. do 4 (split; [first [reflexivity | exact Hcur]|]).
    split; [intros a n Ha; eapply extends_lookup; [|exact Ha];
            eapply extends_trans; eauto|].
    split; [repeat constructor; lia|]. split; [reflexivity|].
    exists c0, c2, c3. split; [reflexivity|].
    split; [eapply deep_eq_extends; [|exact Hd0]; eapply extends_trans; eauto|].
    split; [eapply deep_eq_extends; eauto | exact Hd3].
Qed.

Lemma createUndoData_snapshots_witness :
  exists ud s' cs,
    createUndoData 10 (aroot (ANode 3 2 "A" [])) (aroot (ANode 4 3 "B" [])) ex_app
      = (Ok ud, s') /\
    current s' = current ex_app /\ history s' = history ex_app /\
    ceo s' = ceo ex_app /\ redoStack s' = redoStack ex_app /\
    (forall a n, store ex_app !! a = Some n -> store s' !! a = Some n) /\
    Forall (fun c => length (store ex_app) <= c) ud /\
    findEmployeeSupervisor 10 (store ex_app) 5 (aid (ANode 3 2 "A" [])) = Ok cs /\
    match cs with
    | Some p =>
        exists P c0 c1 c2 c3,
          In P (subtrees ex_live) /\ aroot P = p /\ ud = [c0; c1; c2; c3] /\
          deep_eq (store s') c0 (erase ex_live) /\ deep_eq (store s') c1 (erase P) /\
          deep_eq (store s') c2 (erase (ANode 3 2 "A" [])) /\
          deep_eq (store s') c3 (erase (ANode 4 3 "B" []))
    | None =>
        exists c0 c2 c3,
          ud = [c0; c2; c3] /\
          deep_eq (store s') c0 (erase ex_live) /\
          deep_eq (store s') c2 (erase (ANode 3 2 "A" [])) /\
          deep_eq (store s') c3 (erase (ANode 4 3 "B" []))
    end.
Proof.
  apply (createUndoData_snapshots 10 ex_app 5 ex_live (ANode 3 2 "A" []) (ANode 4 3 "B" [])).
  - reflexivity.
  - exact ex_live_is_tree.
  - vm_compute. lia.
  - simpl. tauto.
  - simpl. tauto.
Defined.

(** ** The constructor on a cyclic structure *)

(** X11.  Given a structure that comes back to its root, the constructor
    throws: there is no instance on a cyclic chart. *)
Theorem constructor_rejects_cycle stack h c sv n :
  reach h c sv ->
  h !! sv = Some n ->
  In c (subordinates n) ->
  exists x, constructor stack h c = Throw x.
Proof.
  intros Hr Hn Hin. unfold constructor, clone.
  destruct (JSON_stringify stack [] h c) as [j|x] eqn:E; [|eauto].
  exfalso. apply (cycle_no_deep_eq _ _ _ _ Hr Hn Hin).
  exists j. eapply JSON_stringify_deep_eq. exact E.
Qed.

Lemma constructor_rejects_cycle_witness :
  exists x, constructor 10 loop_heap 0 = Throw x.
Proof.
  apply (constructor_rejects_cycle 10 loop_heap 0 0 (mkEmployee 1 "CEO" [0])).
  - constructor.
  - reflexivity.
  - simpl. tauto.
Defined.

(** ** The chart the server starts with *)

Lemma server_app_S n :
  server_app (S n) =
  mkState [mkEmployee 1 "John Smith" []; mkEmployee 1 "John Smith" []] 0 [] (Some 1) [].
Proof. reflexivity. Qed.

Lemma server_move_unknown n employeeID supervisorID :
  (employeeID, supervisorID) <> (1%Z, 1%Z) ->
  move (S n) employeeID supervisorID (server_app (S n)) =
    (Throw EntityNotFound, server_app (S n)).
Proof.
  intros Hne. rewrite move_eq, server_app_S. cbn [store current].
  rewrite !findEmployee_S. simpl.
  destruct (decide (1%Z = employeeID)) as [<-|He];
    destruct (decide (1%Z = supervisorID)) as [<-|Hs]; try reflexivity.
  contradiction Hne. reflexivity.
Qed.

(** X12.  The server starts with a chart of one employee, id 1.  As long
    as no request moves 1 under 1, the chart stays exactly as it started,
    and every [POST /move] other than that one is answered 400 with
    the message "Employee or Supervisor not found". *)
Theorem server_knows_only_the_ceo text stack cs employeeID supervisorID :
  1 <= stack ->
  Forall (fun c => c <> Move 1 1) cs ->
  (employeeID, supervisorID) <> (1%Z, 1%Z) ->
  run stack cs (server_app stack) = server_app stack /\
  post_move text stack employeeID supervisorID (server_app stack) =
    (mkResponse 400 (error "Employee or Supervisor not found"), server_app stack).
Proof.
  intros Hs Hcs Hne. destruct stack as [|n]; [lia|]. split.
  - induction Hcs as [|c cs Hc _ IH]; simpl; [reflexivity|].
    assert (snd (exec (S n) c (server_app (S n))) = server_app (S n)) as ->; [|exact IH].
    destruct c as [e sv| |]; simpl.
    + rewrite server_move_unknown; [reflexivity|]. intros E. inversion E; subst.
      apply Hc. reflexivity.
    + reflexivity.
    + reflexivity.
  - unfold post_move. rewrite (server_move_unknown n _ _ Hne). reflexivity.
Qed.

Lemma server_knows_only_the_ceo_witness :
  run 10 [Move 1 2; Undo; Redo; Move 7 1] (server_app 10) = server_app 10 /\
  post_move (fun _ => "") 10 2 1 (server_app 10) =
    (mkResponse 400 (error "Employee or Supervisor not found"), server_app 10).
Proof.
  apply (server_knows_only_the_ceo (fun _ => "") 10 [Move 1 2; Undo; Redo; Move 7 1] 2 1).
  - lia.
  - repeat constructor; discriminate.
  - discriminate.
Defined.



(** ** The snapshots on the undo stack *)

Lemma createUndoData_first stack e sv s ud s' :
  createUndoData stack e sv s = (Ok ud, s') ->
  exists cur c0 h1 rest,
    current s = Some cur /\ clone stack (store s) cur = Ok (c0, h1) /\
    ud = c0 :: rest /\ extends h1 (store s').
Proof.
  rewrite createUndoData_eq.
  destruct (current s) as [cur|]; [|discriminate].
  destruct (store s !! e) as [ee|]; [|discriminate].
  destruct (findEmployeeSupervisor stack (store s) cur (uniqueId ee)) as [cs|]; [|discriminate].
  destruct (clone stack (store s) cur) as [[c0 h1]|] eqn:Hc0; [|discriminate].
  destruct cs as [p|].
  - destruct (clone stack h1 p) as [[c1 h2]|] eqn:Hc1; [|discriminate].
    destruct (clone stack h2 e) as [[c2 h3]|] eqn:Hc2; [|discriminate].
    destruct (clone stack h3 sv) as [[c3 h4]|] eqn:Hc3; [|discriminate].
    intros H. inversion H; subst. exists cur, c0, h1, [c1; c2; c3].
    split; [reflexivity|]. split; [exact Hc0|]. split; [reflexivity|]. cbn [store set_store].
    eapply extends_trans; [eapply clone_extends; exact Hc1|].
    eapply extends_trans; eapply clone_extends; eauto.
  - destruct (clone stack h1 e) as [[c2 h3]|] eqn:Hc2; [|discriminate].
    destruct (clone stack h3 sv) as [[c3 h4]|] eqn:Hc3; [|discriminate].
    intros H. inversion H; subst. exists cur, c0, h1, [c2; c3].
    split; [reflexivity|]. split; [exact Hc0|]. split; [reflexivity|]. cbn [store set_store].
    eapply extends_trans; eapply clone_extends; eauto.
Qed.

(** The first snapshot of the record a returning [move] pushes is a tree
    of fresh objects. *)
Lemma move_snapshot_tree stack employeeID supervisorID s s' :
  move stack employeeID supervisorID s = (Ok tt, s') ->
  exists rest T0,
    history s' = push (history s) (mkHistory "move" (aroot T0 :: rest)) /\
    layout (store s') T0 /\ NoDup (addrs T0) /\
    forall x, In x (addrs T0) -> length (store s) <= x.
Proof.
  intros Hm. apply move_cases in Hm as [(x & h4 & Hx & _)|Hm]; [discriminate|].
  destruct Hm as (cur & e & sv & ud & h4 & cs & _ & Hcur & He & Hsv & Hud & Hext & Hcs & ->).
  apply createUndoData_first in Hud as (cur' & c0 & h1 & rest & _ & Hc0 & -> & Hext1).
  cbn [store set_store] in Hext1.
  apply clone_Ok in Hc0 as (j & _ & _ & T & HT & Hr & _ & Hnd & Hb).
  exists rest, T. cbn [store history]. rewrite Hr.
  split; [reflexivity|]. split; [|split; [exact Hnd | intros x Hx; apply Hb in Hx; lia]].
  apply layout_attach; [|apply layout_detach; [|exact (extends_layout _ _ _ Hext1 HT)]].
  - intros Hin. apply Hb in Hin.
    destruct (findEmployee_id _ _ _ _ _ Hsv) as (sup & Hsup & _).
    apply lookup_lt_Some in Hsup. lia.
  - intros p -> Hin. apply Hb in Hin.
    destruct (findEmployeeSupervisor_sub _ _ _ _ _ Hcs) as (_ & c1 & _ & _ & Hp & _).
    apply lookup_lt_Some in Hp. lia.
Qed.

Lemma layout_all_lt h Ts x :
  Forall (layout h) Ts -> In x (flat_map addrs Ts) -> x < length h.
Proof.
  intros H Hx. apply in_flat_map in Hx as (T & HT & Hx).
  rewrite Forall_forall in H. eapply layout_lt; eauto.
Qed.

Lemma Forall2_impl_r {A B} (P Q : A -> B -> Prop) l l' :
  Forall2 P l l' -> (forall a b, In b l' -> P a b -> Q a b) -> Forall2 Q l l'.
Proof.
  induction 1 as [|a b l l' Hab _ IH]; intros HPQ; constructor.
  - apply HPQ; [left; reflexivity | exact Hab].
  - apply IH. intros a' b' Hb'. apply HPQ. right. exact Hb'.
Qed.

Lemma snapshots_move stack employeeID supervisorID h0 c0 s Ts :
  chart_inv h0 c0 s -> snapshots_inv s Ts ->
  exists Ts', snapshots_inv (snd (move stack employeeID supervisorID s)) Ts'.
Proof.
  intros Hinv (Hrec & Hnd & Hout).
  pose proof Hinv as (_ & Hcl & _ & (cur & Hcur & Hb) & _).
  destruct (move stack employeeID supervisorID s) as [o s'] eqn:Hm. cbn [snd].
  destruct (move_live_set _ _ _ _ _ _ _ _ Hcur Hcl Hb Hm) as [Hshrink Hframe].
  assert (Forall2 (fun r T => undo_move r = "move" /\
                     exists rest, undoData r = aroot T :: rest /\ layout (store s') T)
                  (history s) Ts) as Hrec'.
  { eapply Forall2_impl_r; [exact Hrec|].
    intros r T HT (Htag & rest & Hu & HTl). split; [exact Htag|].
    exists rest. split; [exact Hu|].
    eapply layout_frame; [|exact HTl]. intros a e Ha Hae. apply Hframe; [|exact Hae].
    intros Hr. apply (Hout cur a Hcur Hr). apply in_flat_map. eauto. }
  assert (current s' = Some cur) as Hcur'.
  { pose proof (chart_inv_move stack employeeID supervisorID _ _ _ Hinv) as Hi.
    apply move_cases in Hm as [(x & h4 & _ & _ & ->)|Hm]; [exact Hcur|].
    destruct Hm as (? & ? & ? & ? & ? & ? & _ & _ & _ & _ & _ & _ & _ & ->). exact Hcur. }
  assert (forall x, In x (flat_map addrs Ts) -> x < length (store s)) as Hold.
  { intros x Hx. apply in_flat_map in Hx as (T & HT & Hx).
    apply (Forall2_impl_r _ (fun _ T => layout (store s) T)) in Hrec.
    - assert (Forall (layout (store s)) Ts) as Hall.
      { clear -Hrec. induction Hrec; constructor; auto. }
      rewrite Forall_forall in Hall. eapply layout_lt; eauto.
    - intros a b _ (_ & rest & _ & Hl). exact Hl. }
  destruct o as [[]|x].
  - destruct (move_snapshot_tree _ _ _ _ _ Hm) as (rest & T0 & Hh & HT0 & Hnd0 & Hfresh).
    exists (Ts ++ [T0]). split; [|split].
    + rewrite Hh. unfold push. apply Forall2_app; [exact Hrec'|].
      constructor; [|constructor]. split; [reflexivity|]. exists rest. auto.
    + rewrite flat_map_app. simpl. rewrite app_nil_r.
      apply NoDup_app; [exact Hnd | exact Hnd0|].
      intros x Hx Hx'. apply Hold in Hx. apply Hfresh in Hx'. lia.
    + intros c x Hc Hr Hx. assert (c = cur) as -> by congruence.
      apply Hshrink in Hr. rewrite flat_map_app in Hx. simpl in Hx. rewrite app_nil_r in Hx.
      apply in_app_or in Hx as [Hx|Hx]; [exact (Hout cur x Hcur Hr Hx)|].
      apply Hfresh in Hx. pose proof (closed_from_reach _ _ _ _ Hcl Hb Hr). lia.
  - assert (history s' = history s) as Hh.
    { apply move_cases in Hm as [(x' & h4 & _ & _ & ->)|Hm]; [reflexivity|].
      destruct Hm as (? & ? & ? & ? & ? & ? & Hx & _). discriminate. }
    exists Ts. split; [rewrite Hh; exact Hrec'|]. split; [exact Hnd|].
    intros c y Hc Hr. assert (c = cur) as -> by congruence.
    apply Hshrink in Hr. exact (Hout cur y Hcur Hr).
Qed.

Lemma Forall2_snoc_inv {A B} (P : A -> B -> Prop) l x l' :
  Forall2 P (l ++ [x]) l' ->
  exists l0 y, l' = l0 ++ [y] /\ Forall2 P l l0 /\ P x y.
Proof.
  revert l'. induction l as [|a l IH]; intros l' H; simpl in H.
  - inversion H as [|? y ? l1 Hxy Hnil]; subst. inversion Hnil; subst.
    exists [], y. split; [reflexivity|]. split; [constructor | exact Hxy].
  - inversion H as [|? b ? l1 Hab Hrest]; subst.
    destruct (IH _ Hrest) as (l0 & y & -> & Hl0 & Hxy).
    exists (b :: l0), y. split; [reflexivity|]. split; [constructor; assumption | exact Hxy].
Qed.

Lemma snapshots_undo s Ts :
  snapshots_inv s Ts -> exists Ts', snapshots_inv (snd (undo s)) Ts'.
Proof.
  intros (Hrec & Hnd & Hout). unfold undo.
  destruct (pop (history s)) as [[lastAction rest]|] eqn:E;
    [|exists Ts; split; [exact Hrec | split; [exact Hnd | exact Hout]]].
  apply pop_Some in E. rewrite E in Hrec. unfold push in Hrec.
  apply Forall2_snoc_inv in Hrec as (Ts0 & T & -> & Hrec0 & Htag & rest' & Hu & HT).
  rewrite flat_map_app in Hnd, Hout. simpl in Hnd, Hout. rewrite app_nil_r in Hnd, Hout.
  rewrite Htag. simpl String.eqb. cbv iota. exists Ts0.
  unfold set_current, set_history. cbn [snd]. unfold snapshots_inv.
  cbn [store history current]. split; [exact Hrec0|].
  split; [eapply NoDup_app_remove_r; exact Hnd|].
  rewrite Hu. cbn. intros c x Hc Hr Hx. inversion Hc; subst c.
  apply (NoDup_app_disjoint _ _ x Hnd Hx).
  eapply reach_layout; [exact Hr | exact HT | reflexivity].
Qed.

Lemma snapshots_constructor stack h c s0 :
  constructor stack h c = Ok s0 -> snapshots_inv s0 [].
Proof.
  unfold constructor. destruct (clone stack h c) as [[c' h']|]; [|discriminate].
  intros H. inversion H; subst. split; [constructor|]. split; [constructor|].
  intros cur x _ _ [].
Qed.

Lemma snapshots_run stack cs : forall h c s,
  chart_inv h c s -> (exists Ts, snapshots_inv s Ts) ->
  exists Ts, snapshots_inv (run stack cs s) Ts.
Proof.
  induction cs as [|call cs IH]; intros h c s Hinv Hs; simpl; [exact Hs|].
  apply (IH h c); [apply chart_inv_exec; exact Hinv|].
  destruct Hs as (Ts & Hs). destruct call as [e sv| |]; simpl.
  - eapply snapshots_move; eauto.
  - eapply snapshots_undo; eauto.
  - rewrite redo_empty; [eauto | apply Hinv].
Qed.

(** X14.  On every chart the instance can get into, each record on the
    undo stack is tagged "move" and its first snapshot is an intact tree
    of objects; no object belongs to two of these snapshots, and none of
    them can be reached from the live root, so that no [move] writes into
    a snapshot. *)
Theorem snapshots_are_owned stack h c s0 cs :
  constructor stack h c = Ok s0 ->
  exists Ts,
    Forall2 (fun r T => undo_move r = "move" /\
                        exists rest, undoData r = aroot T :: rest /\
                                     is_tree (store (run stack cs s0)) (aroot T) T)
            (history (run stack cs s0)) Ts /\
    NoDup (flat_map addrs Ts) /\
    forall cur x, current (run stack cs s0) = Some cur ->
                  reach (store (run stack cs s0)) cur x -> ~ In x (flat_map addrs Ts).
Proof.
  intros H. pose proof (snapshots_constructor _ _ _ _ H) as H0.
  apply chart_inv_constructor in H as [Hinv _].
  destruct (snapshots_run stack cs _ _ _ Hinv (ex_intro _ [] H0)) as (Ts & Hrec & Hnd & Hout).
  exists Ts. split; [|split; [exact Hnd | exact Hout]].
  eapply Forall2_impl_r; [exact Hrec|].
  intros r T HT (Htag & rest & Hu & HTl). split; [exact Htag|]. exists rest.
  split; [exact Hu|]. split; [exact HTl|]. split; [reflexivity|].
  eapply NoDup_flat_map_In; eauto.
Qed.

Lemma snapshots_are_owned_witness :
  exists Ts,
    Forall2 (fun r T => undo_move r = "move" /\
                        exists rest, undoData r = aroot T :: rest /\
                                     is_tree (store (run 10 [Move 2 3; Move 3 2] ex_app))
                                             (aroot T) T)
            (history (run 10 [Move 2 3; Move 3 2] ex_app)) Ts /\
    NoDup (flat_map addrs Ts) /\
    forall cur x, current (run 10 [Move 2 3; Move 3 2] ex_app) = Some cur ->
                  reach (store (run 10 [Move 2 3; Move 3 2] ex_app)) cur x ->
                  ~ In x (flat_map addrs Ts).
Proof.
  apply (snapshots_are_owned 10 ex_heap ex_ceo ex_app [Move 2 3; Move 3 2]). reflexivity.
Defined.

(** X15.  On every chart the instance can get into, whatever the moves
    did to the live structure, [undo] with a record to undo installs a
    tree of objects -- nothing cyclic, nothing shared -- and takes that
    record off the undo stack. *)
Theorem undo_installs_a_tree stack h c s0 cs :
  constructor stack h c = Ok s0 ->
  history (run stack cs s0) <> [] ->
  exists cur T r,
    current (snd (undo (run stack cs s0))) = Some cur /\
    is_tree (store (snd (undo (run stack cs s0)))) cur T /\
    history (run stack cs s0) = push (history (snd (undo (run stack cs s0)))) r.
Proof.
  intros H Hne. pose proof (snapshots_constructor _ _ _ _ H) as H0.
  apply chart_inv_constructor in H as [Hinv _].
  destruct (snapshots_run stack cs _ _ _ Hinv (ex_intro _ [] H0)) as (Ts & Hrec & Hnd & _).
  unfold undo. destruct (pop (history (run stack cs s0))) as [[r rest]|] eqn:E;
    [|apply pop_None in E; contradiction].
  apply pop_Some in E. rewrite E in Hrec. unfold push in Hrec.
  apply Forall2_snoc_inv in Hrec as (Ts0 & T & -> & _ & Htag & rest' & Hu & HT).
  rewrite Htag. simpl String.eqb. cbv iota.
  unfold set_current, set_history. cbn [snd store history current].
  exists (aroot T), T, r. rewrite Hu. split; [reflexivity|]. split; [|exact E].
  split; [exact HT|]. split; [reflexivity|].
  eapply NoDup_flat_map_In; [exact Hnd|]. apply in_or_app. right. left. reflexivity.
Qed.

Lemma undo_installs_a_tree_witness :
  exists cur T r,
    current (snd (undo (run 10 [Move 1 3] ex_app))) = Some cur /\
    is_tree (store (snd (undo (run 10 [Move 1 3] ex_app)))) cur T /\
    history (run 10 [Move 1 3] ex_app) =
      push (history (snd (undo (run 10 [Move 1 3] ex_app)))) r.
Proof.
  apply (undo_installs_a_tree 10 ex_heap ex_ceo ex_app [Move 1 3]).
  - reflexivity.
  - vm_compute. discriminate.
Defined.


